(** * Clockwork: compiler back end, error reporting and run loop

    A shallow embedding of the parts of Clockwork that the properties below
    are about:

    - [compiler.c]: the constants pool, the locals, the chunk writer, jump
      emission and patching, the end of compilation.  The file holds two
      listings of the compiler; the first one is embedded at top level, and
      the function of the second listing that differs where a property
      depends on it ([cw_make_constant]) is embedded in [Module Listing2];
    - [debug.c]: the value printer ([Module Debug], which has the value type
      of that file) and [cw_syntax_error_at];
    - [runtime.c]: [cw_runtime_error], the stack operations, [cw_run] and
      [cw_interpret].

    Conventions.  A C [int] is a [Z]; the counters of the program stay far
    below [INT_MAX], and an unsigned narrowing ([uint8_t]) is written out.
    A C array is the list of its slots that have been written, indexed from
    0; [load] is [None] outside of it.  A pointer into an array is the index
    it points at.  What is written to [stdout] and [stderr] is kept as the
    list of the calls made, in order, each with its format and arguments:
    the text that [printf] makes of a format is not modelled.  Format
    strings are spelled as in the C source, so the two characters
    backslash-n stand for the newline. *)

From Stdlib Require Import ZArith List String Bool Lia PrimFloat Sorted.
Import ListNotations.
Local Open Scope string_scope.
Local Open Scope list_scope.
Local Open Scope Z_scope.

(* ------------------------------------------------------------------ *)
(** ** Machine integers and arrays *)

Definition UINT8_MAX : Z := 255.
Definition UINT16_MAX : Z := 65535.

(** Conversion to [uint8_t]. *)
Definition uint8 (z : Z) : Z := z mod 256.

Section Arrays.
Context {A : Type}.

(** [a[i]] read. *)
Definition load (a : list A) (i : Z) : option A :=
  if i <? 0 then None else nth_error a (Z.to_nat i).

(** Slot [n] replaced; the slot just past the written ones is added. *)
Fixpoint update (a : list A) (n : nat) (v : A) : list A :=
  match a, n with
  | [], O => [v]
  | [], S _ => []
  | _ :: r, O => v :: r
  | x :: r, S m => x :: update r m v
  end.

(** [a[i] = v]. *)
Definition store (a : list A) (i : Z) (v : A) : list A :=
  if i <? 0 then a else update a (Z.to_nat i) v.

(** The first [n] slots of an array: its contents when [n] is its
    length field. *)
Definition contents (a : list A) (n : Z) : list A := firstn (Z.to_nat n) a.
End Arrays.

(* ------------------------------------------------------------------ *)
(** ** Values and objects *)

(** A string object: where it lives, its bytes and their hash. *)
Record cwString := mkString {
  address : Z;
  chars : string;
  hash : Z
}.

(** Modelled from the spec: [value.h] is not among the sources.  Section 3
    gives the value as a tagged variant with the cases Null, Bool, Number
    (a 64-bit IEEE-754 double) and Object, and the string as the only
    object.  An object value holds the handle of its object. *)
Inductive Value :=
| VAL_NULL
| VAL_BOOL (b : bool)
| VAL_NUMBER (n : float)
| VAL_OBJECT (o : cwString).

(** Modelled from the spec: the macros of [value.h] that make a value,
    test its case and read its payload, on the cases of section 3. *)
Definition MAKE_NULL : Value := VAL_NULL.
Definition MAKE_BOOL (b : bool) : Value := VAL_BOOL b.
Definition MAKE_NUMBER (n : float) : Value := VAL_NUMBER n.
Definition MAKE_OBJECT (o : cwString) : Value := VAL_OBJECT o.

Definition IS_NUMBER (v : Value) : bool :=
  match v with VAL_NUMBER _ => true | _ => false end.
Definition IS_STRING (v : Value) : bool :=
  match v with VAL_OBJECT _ => true | _ => false end.

(** The accessors are used after the matching test only; elsewhere they
    are given a fixed result. *)
Definition AS_NUMBER (v : Value) : float :=
  match v with VAL_NUMBER n => n | _ => PrimFloat.zero end.
Definition AS_STRING (v : Value) : cwString :=
  match v with VAL_OBJECT o => o | _ => mkString 0 EmptyString 0 end.

(** Modelled from the spec: [cw_values_equal] is not among the sources.
    Section 3: same tag and same payload, a Number compared bit for bit,
    an object by its handle, and [false] across tags. *)
Definition cw_values_equal (a b : Value) : bool :=
  match a, b with
  | VAL_NULL, VAL_NULL => true
  | VAL_BOOL x, VAL_BOOL y => Bool.eqb x y
  | VAL_NUMBER x, VAL_NUMBER y => PrimFloat.Leibniz.eqb x y
  | VAL_OBJECT x, VAL_OBJECT y => address x =? address y
  | _, _ => false
  end.

(** Modelled from the spec: [cw_is_falsey] is not among the sources.
    Section 4.3: Null and Bool(false) are falsey, all else is truthy. *)
Definition cw_is_falsey (v : Value) : bool :=
  match v with
  | VAL_NULL => true
  | VAL_BOOL b => negb b
  | _ => false
  end.

(* ------------------------------------------------------------------ *)
(** ** Output *)

Inductive printf_arg :=
| ArgInt (n : Z)
| ArgDouble (x : float)
| ArgStr (s : string).

(** One call that writes to a stream.  [PrintValue] is a call of the
    value printer of the run loop, whose listing is not the one of
    [debug.c] (see [Module Debug]). *)
Inductive io_call :=
| Printf (format : string) (args : list printf_arg)
| Fputs (s : string)
| PrintValue (v : Value).

(* ------------------------------------------------------------------ *)
(** ** Tokens ([scanner.h]) *)

Inductive cwTokenType :=
| TOKEN_EOF
| TOKEN_LPAREN | TOKEN_RPAREN
| TOKEN_LBRACE | TOKEN_RBRACE
| TOKEN_LBRACKET | TOKEN_RBRACKET
| TOKEN_PERIOD
| TOKEN_COMMA
| TOKEN_COLON
| TOKEN_SEMICOLON
| TOKEN_PLUS
| TOKEN_MINUS
| TOKEN_ASTERISK
| TOKEN_SLASH
| TOKEN_EXCLAMATION
| TOKEN_ASSIGN
| TOKEN_EQ | TOKEN_NOTEQ
| TOKEN_LT | TOKEN_LTEQ
| TOKEN_GT | TOKEN_GTEQ
| TOKEN_IDENTIFIER
| TOKEN_INTEGER
| TOKEN_NULL
| TOKEN_TRUE
| TOKEN_FALSE
| TOKEN_AND
| TOKEN_OR
| TOKEN_IF
| TOKEN_ELSE
| TOKEN_WHILE
| TOKEN_FOR
| TOKEN_LET
| TOKEN_MUT
| TOKEN_FUNC
| TOKEN_RETURN
| TOKEN_ERROR  (* named by debug.c and by section 4.1 of the spec *).

Inductive cwTokenMod :=
| TOKENMOD_NONE
| TOKENMOD_BIN
| TOKENMOD_OCT
| TOKENMOD_HEX.

(** [start] and [end] point into the source text; the model keeps the
    bytes between them as [lexeme], so that [end - start] is its length. *)
Record cwToken := mkToken {
  type : cwTokenType;
  mod_ : cwTokenMod;
  lexeme : string;
  line : Z
}.

Record cwLocal := mkLocal {
  name : cwToken;
  depth : Z
}.

(** The token and the local whose bytes are all zero, as [main] creates
    them with [cwRuntime cw = { 0 }]: [TOKEN_EOF] and [TOKENMOD_NONE] are
    the members 0 of their enumerations, and [start] and [end] are equal. *)
Definition zero_token : cwToken := mkToken TOKEN_EOF TOKENMOD_NONE EmptyString 0.

Definition zero_local : cwLocal := mkLocal zero_token 0.

(* ------------------------------------------------------------------ *)
(** ** Chunks *)

(** Modelled from the spec: the [OpCode] enumeration of [chunk.h] is not
    among the sources.  The opcodes are those of the table of section 4.3,
    and section 6 gives each one byte; they are numbered from 0 in the
    order of that table, as C numbers an enumeration. *)
Inductive OpCode :=
| OP_CONSTANT | OP_NULL | OP_TRUE | OP_FALSE | OP_POP
| OP_DEF_GLOBAL | OP_GET_GLOBAL | OP_SET_GLOBAL
| OP_GET_LOCAL | OP_SET_LOCAL
| OP_EQ | OP_NOTEQ
| OP_LT | OP_LTEQ | OP_GT | OP_GTEQ
| OP_ADD | OP_SUBTRACT | OP_MULTIPLY | OP_DIVIDE
| OP_NOT | OP_NEGATE
| OP_PRINT
| OP_JUMP | OP_JUMP_IF_FALSE | OP_JUMP_IF_TRUE | OP_LOOP
| OP_RETURN.

Definition opcodes : list OpCode :=
  [ OP_CONSTANT; OP_NULL; OP_TRUE; OP_FALSE; OP_POP;
    OP_DEF_GLOBAL; OP_GET_GLOBAL; OP_SET_GLOBAL;
    OP_GET_LOCAL; OP_SET_LOCAL;
    OP_EQ; OP_NOTEQ;
    OP_LT; OP_LTEQ; OP_GT; OP_GTEQ;
    OP_ADD; OP_SUBTRACT; OP_MULTIPLY; OP_DIVIDE;
    OP_NOT; OP_NEGATE;
    OP_PRINT;
    OP_JUMP; OP_JUMP_IF_FALSE; OP_JUMP_IF_TRUE; OP_LOOP;
    OP_RETURN ].

(** The number of an opcode, as the byte of the chunk that holds it. *)
Definition opcode_byte (o : OpCode) : Z :=
  match o with
  | OP_CONSTANT => 0 | OP_NULL => 1 | OP_TRUE => 2 | OP_FALSE => 3
  | OP_POP => 4
  | OP_DEF_GLOBAL => 5 | OP_GET_GLOBAL => 6 | OP_SET_GLOBAL => 7
  | OP_GET_LOCAL => 8 | OP_SET_LOCAL => 9
  | OP_EQ => 10 | OP_NOTEQ => 11
  | OP_LT => 12 | OP_LTEQ => 13 | OP_GT => 14 | OP_GTEQ => 15
  | OP_ADD => 16 | OP_SUBTRACT => 17 | OP_MULTIPLY => 18 | OP_DIVIDE => 19
  | OP_NOT => 20 | OP_NEGATE => 21
  | OP_PRINT => 22
  | OP_JUMP => 23 | OP_JUMP_IF_FALSE => 24 | OP_JUMP_IF_TRUE => 25
  | OP_LOOP => 26
  | OP_RETURN => 27
  end.

(** The opcode that a byte names, if any: what [switch] compares. *)
Definition opcode_of_byte (b : Z) : option OpCode :=
  find (fun o => opcode_byte o =? b) opcodes.

Record cwChunk := mkChunk {
  bytes : list Z;
  lines : list Z;
  len : Z;
  cap : Z;
  constants : list Value;
  const_len : Z;
  const_cap : Z
}.

(** The byte array, the line array and the constants pool of a chunk: the
    slots below the length fields. *)
Definition chunk_bytes (c : cwChunk) : list Z := contents (bytes c) (len c).
Definition chunk_lines (c : cwChunk) : list Z := contents (lines c) (len c).
Definition chunk_constants (c : cwChunk) : list Value :=
  contents (constants c) (const_len c).

(** Modelled from the spec: [CW_GROW_CAPACITY] of [memory.h] is not among
    the sources.  Section 4.4 gives the growth of the tables as doubling
    from an initial 8; the chunk arrays are taken to grow the same way.
    [CW_GROW_ARRAY] reallocates and keeps the slots, so it does not show
    in the lists of written slots. *)
Definition CW_GROW_CAPACITY (c : Z) : Z := if c <? 8 then 8 else c * 2.

(* ------------------------------------------------------------------ *)
(** ** The runtime record *)

(** Modelled from the spec: the table of [table.h] is kept as the list of
    its live entries, most recent first; [table.c] is not among the
    sources. *)
Definition Table := list (cwString * Value).

Inductive InterpretResult :=
| INTERPRET_OK
| INTERPRET_COMPILE_ERROR
| INTERPRET_RUNTIME_ERROR.

(** [cwRuntime], with the chunk it points to, [ip] as an index into the
    bytes of that chunk, and the two output streams. *)
Record cwRuntime := mkRuntime {
  chunk : cwChunk;
  ip : Z;
  stack : list Value;
  stack_index : Z;
  objects : list cwString;
  strings : Table;
  previous : cwToken;
  current : cwToken;
  locals : list cwLocal;
  local_count : Z;
  scope_depth : Z;
  error : bool;
  panic : bool;
  stdout : list io_call;
  stderr : list io_call
}.

Definition set_chunk (x : cwChunk) (cw : cwRuntime) : cwRuntime :=
  mkRuntime x (ip cw) (stack cw) (stack_index cw) (objects cw) (strings cw)
    (previous cw) (current cw) (locals cw) (local_count cw) (scope_depth cw)
    (error cw) (panic cw) (stdout cw) (stderr cw).
Definition set_ip (x : Z) (cw : cwRuntime) : cwRuntime :=
  mkRuntime (chunk cw) x (stack cw) (stack_index cw) (objects cw) (strings cw)
    (previous cw) (current cw) (locals cw) (local_count cw) (scope_depth cw)
    (error cw) (panic cw) (stdout cw) (stderr cw).
Definition set_stack (x : list Value) (cw : cwRuntime) : cwRuntime :=
  mkRuntime (chunk cw) (ip cw) x (stack_index cw) (objects cw) (strings cw)
    (previous cw) (current cw) (locals cw) (local_count cw) (scope_depth cw)
    (error cw) (panic cw) (stdout cw) (stderr cw).
Definition set_stack_index (x : Z) (cw : cwRuntime) : cwRuntime :=
  mkRuntime (chunk cw) (ip cw) (stack cw) x (objects cw) (strings cw)
    (previous cw) (current cw) (locals cw) (local_count cw) (scope_depth cw)
    (error cw) (panic cw) (stdout cw) (stderr cw).
Definition set_objects (x : list cwString) (cw : cwRuntime) : cwRuntime :=
  mkRuntime (chunk cw) (ip cw) (stack cw) (stack_index cw) x (strings cw)
    (previous cw) (current cw) (locals cw) (local_count cw) (scope_depth cw)
    (error cw) (panic cw) (stdout cw) (stderr cw).
Definition set_strings (x : Table) (cw : cwRuntime) : cwRuntime :=
  mkRuntime (chunk cw) (ip cw) (stack cw) (stack_index cw) (objects cw) x
    (previous cw) (current cw) (locals cw) (local_count cw) (scope_depth cw)
    (error cw) (panic cw) (stdout cw) (stderr cw).
Definition set_previous (x : cwToken) (cw : cwRuntime) : cwRuntime :=
  mkRuntime (chunk cw) (ip cw) (stack cw) (stack_index cw) (objects cw)
    (strings cw) x (current cw) (locals cw) (local_count cw) (scope_depth cw)
    (error cw) (panic cw) (stdout cw) (stderr cw).
Definition set_current (x : cwToken) (cw : cwRuntime) : cwRuntime :=
  mkRuntime (chunk cw) (ip cw) (stack cw) (stack_index cw) (objects cw)
    (strings cw) (previous cw) x (locals cw) (local_count cw) (scope_depth cw)
    (error cw) (panic cw) (stdout cw) (stderr cw).
Definition set_locals (x : list cwLocal) (cw : cwRuntime) : cwRuntime :=
  mkRuntime (chunk cw) (ip cw) (stack cw) (stack_index cw) (objects cw)
    (strings cw) (previous cw) (current cw) x (local_count cw) (scope_depth cw)
    (error cw) (panic cw) (stdout cw) (stderr cw).
Definition set_local_count (x : Z) (cw : cwRuntime) : cwRuntime :=
  mkRuntime (chunk cw) (ip cw) (stack cw) (stack_index cw) (objects cw)
    (strings cw) (previous cw) (current cw) (locals cw) x (scope_depth cw)
    (error cw) (panic cw) (stdout cw) (stderr cw).
Definition set_scope_depth (x : Z) (cw : cwRuntime) : cwRuntime :=
  mkRuntime (chunk cw) (ip cw) (stack cw) (stack_index cw) (objects cw)
    (strings cw) (previous cw) (current cw) (locals cw) (local_count cw) x
    (error cw) (panic cw) (stdout cw) (stderr cw).
Definition set_error (x : bool) (cw : cwRuntime) : cwRuntime :=
  mkRuntime (chunk cw) (ip cw) (stack cw) (stack_index cw) (objects cw)
    (strings cw) (previous cw) (current cw) (locals cw) (local_count cw)
    (scope_depth cw) x (panic cw) (stdout cw) (stderr cw).
Definition set_panic (x : bool) (cw : cwRuntime) : cwRuntime :=
  mkRuntime (chunk cw) (ip cw) (stack cw) (stack_index cw) (objects cw)
    (strings cw) (previous cw) (current cw) (locals cw) (local_count cw)
    (scope_depth cw) (error cw) x (stdout cw) (stderr cw).
Definition set_stdout (x : list io_call) (cw : cwRuntime) : cwRuntime :=
  mkRuntime (chunk cw) (ip cw) (stack cw) (stack_index cw) (objects cw)
    (strings cw) (previous cw) (current cw) (locals cw) (local_count cw)
    (scope_depth cw) (error cw) (panic cw) x (stderr cw).
Definition set_stderr (x : list io_call) (cw : cwRuntime) : cwRuntime :=
  mkRuntime (chunk cw) (ip cw) (stack cw) (stack_index cw) (objects cw)
    (strings cw) (previous cw) (current cw) (locals cw) (local_count cw)
    (scope_depth cw) (error cw) (panic cw) (stdout cw) x.

(** A call that writes to [stdout], and one that writes to [stderr]. *)
Definition to_stdout (c : io_call) (cw : cwRuntime) : cwRuntime :=
  set_stdout (stdout cw ++ [c]) cw.
Definition to_stderr (c : io_call) (cw : cwRuntime) : cwRuntime :=
  set_stderr (stderr cw ++ [c]) cw.

(* ------------------------------------------------------------------ *)
(** ** [debug.c]: the value printer *)

Module Debug.

(** The type tags of a value, as the [switch] of [cw_print_value] has
    them. *)
Inductive ValueType :=
| VAL_NULL
| VAL_BOOL
| VAL_INT
| VAL_FLOAT
| VAL_OBJECT.

Inductive Object :=
| OBJ_STRING (raw : string).

(** A value of [debug.c]: a tag with the member of the union that goes
    with it. *)
Inductive Value :=
| Null
| Bool (b : bool)
| Int (i : Z)
| Float (x : float)
| Obj (o : Object).

Definition type_of (val : Value) : ValueType :=
  match val with
  | Null => VAL_NULL
  | Bool _ => VAL_BOOL
  | Int _ => VAL_INT
  | Float _ => VAL_FLOAT
  | Obj _ => VAL_OBJECT
  end.

Definition AS_BOOL (val : Value) : bool :=
  match val with Bool b => b | _ => false end.
Definition AS_INT (val : Value) : Z :=
  match val with Int i => i | _ => 0 end.
Definition AS_FLOAT (val : Value) : float :=
  match val with Float x => x | _ => PrimFloat.zero end.
Definition AS_RAWSTRING (val : Value) : string :=
  match val with Obj (OBJ_STRING raw) => raw | _ => EmptyString end.

(** The numeric cases of the value type. *)
Definition is_numeric (val : Value) : bool :=
  match type_of val with
  | VAL_INT | VAL_FLOAT => true
  | _ => false
  end.

Definition cw_print_object (val : Value) : list io_call :=
  match val with
  | Obj (OBJ_STRING _) => [Printf "%s" [ArgStr (AS_RAWSTRING val)]]
  | _ => []
  end.

Definition cw_print_value (val : Value) : list io_call :=
  match type_of val with
  | VAL_NULL => [Printf "null" []]
  | VAL_BOOL => [Printf (if AS_BOOL val then "true" else "false") []]
  | VAL_INT => [Printf "%d" [ArgInt (AS_INT val)]]
  | VAL_FLOAT => [Printf "%g" [ArgDouble (AS_FLOAT val)]]
  | VAL_OBJECT => cw_print_object val
  end.

(** A value is rendered with [%g]: the printer makes the one call
    [printf("%g", x)]. *)
Definition rendered_with_g (val : Value) : Prop :=
  exists x, cw_print_value val = [Printf "%g" [ArgDouble x]].

End Debug.

(* ------------------------------------------------------------------ *)
(** ** [debug.c]: syntax errors *)

Definition cw_syntax_error_at (cw : cwRuntime) (token : cwToken)
    (msg : string) : cwRuntime :=
  if panic cw then cw
  else
    let cw := set_panic true cw in
    let cw := to_stderr (Printf "[line %d] Error" [ArgInt (line token)]) cw in
    let cw :=
      match type token with
      | TOKEN_EOF => to_stderr (Printf " at end" []) cw
      | TOKEN_ERROR => cw
      | _ =>
          to_stderr
            (Printf " at '%.*s'"
               [ArgInt (Z.of_nat (String.length (lexeme token)));
                ArgStr (lexeme token)]) cw
      end in
    let cw := to_stderr (Printf ": %s\n" [ArgStr msg]) cw in
    set_error true cw.

Definition cw_syntax_error (cw : cwRuntime) (msg : string) : cwRuntime :=
  cw_syntax_error_at cw (previous cw) msg.

(** What [cw_syntax_error_at] writes for an error that is not
    suppressed. *)
Definition error_report (token : cwToken) (msg : string) : list io_call :=
  [Printf "[line %d] Error" [ArgInt (line token)]]
  ++ match type token with
     | TOKEN_EOF => [Printf " at end" []]
     | TOKEN_ERROR => []
     | _ => [Printf " at '%.*s'"
               [ArgInt (Z.of_nat (String.length (lexeme token)));
                ArgStr (lexeme token)]]
     end
  ++ [Printf ": %s\n" [ArgStr msg]].

(* ------------------------------------------------------------------ *)
(** ** [compiler.c], first listing *)

(** Modelled from the spec: the hash of a string is not among the
    sources.  Section 4.4: FNV-1a on 32 bits over the bytes. *)
Definition cw_hash_str (s : string) : Z :=
  fold_left
    (fun h c => (Z.lxor h (Z.of_nat (Ascii.nat_of_ascii c)) * 16777619) mod 2 ^ 32)
    (list_ascii_of_string s) 2166136261.

(** Modelled from the spec: [cw_table_find_key], section 4.4
    ([find_by_bytes]): length, hash and bytes are compared, and the
    canonical string is returned, or nothing. *)
Definition cw_table_find_key (table : Table) (str : string) (h : Z)
    : option cwString :=
  option_map fst
    (find (fun e =>
             (Nat.eqb (String.length (chars (fst e))) (String.length str))
             && (hash (fst e) =? h)
             && String.eqb (chars (fst e)) str)
       table).

(** An address that no object of the list has. *)
Definition fresh_address (objs : list cwString) : Z :=
  1 + fold_right (fun o m => Z.max (address o) m) 0 objs.

(** Modelled from the spec: what sections 2 to 5 say of interning.  The
    string of these bytes that is in the table is returned; otherwise one
    is allocated, entered in the table and put at the head of the object
    list. *)
Definition intern (cw : cwRuntime) (str : string) : cwRuntime * cwString :=
  let h := cw_hash_str str in
  match cw_table_find_key (strings cw) str h with
  | Some s => (cw, s)
  | None =>
      let s := mkString (fresh_address (objects cw)) str h in
      (set_strings ((s, VAL_NULL) :: strings cw)
         (set_objects (s :: objects cw) cw), s)
  end.

(** Modelled from the spec: [cw_str_copy] is not among the sources; the
    bytes it is given are interned. *)
Definition cw_str_copy (cw : cwRuntime) (src : string)
    : cwRuntime * cwString :=
  intern cw src.

Definition cw_chunk_init : cwChunk := mkChunk [] [] 0 0 [] 0 0.

(** The arrays are released and the chunk is initialized again. *)
Definition cw_chunk_free (chunk : cwChunk) : cwChunk := cw_chunk_init.

(** [byte] arrives as a [uint8_t]. *)
Definition cw_chunk_write (chunk : cwChunk) (byte : Z) (line : Z) : cwChunk :=
  let new_cap :=
    if cap chunk <? len chunk + 1 then CW_GROW_CAPACITY (cap chunk)
    else cap chunk in
  mkChunk (store (bytes chunk) (len chunk) (uint8 byte))
          (store (lines chunk) (len chunk) line)
          (len chunk + 1)
          new_cap
          (constants chunk) (const_len chunk) (const_cap chunk).

Definition cw_chunk_add_constant (chunk : cwChunk) (val : Value)
    : cwChunk * Z :=
  let new_cap :=
    if const_cap chunk <? const_len chunk + 1
    then CW_GROW_CAPACITY (const_cap chunk)
    else const_cap chunk in
  (mkChunk (bytes chunk) (lines chunk) (len chunk) (cap chunk)
           (store (constants chunk) (const_len chunk) val)
           (const_len chunk + 1)
           new_cap,
   const_len chunk).

Definition cw_make_constant (cw : cwRuntime) (value : Value)
    : cwRuntime * Z :=
  let '(chunk', constant) := cw_chunk_add_constant (chunk cw) value in
  let cw := set_chunk chunk' cw in
  if constant >? UINT8_MAX
  then (cw_syntax_error_at cw (previous cw)
          "Too many constants in one chunk.", 0)
  else (cw, uint8 constant).

Definition cw_identifier_constant (cw : cwRuntime) (ident : cwToken)
    : cwRuntime * Z :=
  let '(cw, s) := cw_str_copy cw (lexeme ident) in
  cw_make_constant cw (MAKE_OBJECT s).

Definition cw_identifiers_equal (a b : cwToken) : bool :=
  let a_len := String.length (lexeme a) in
  let b_len := String.length (lexeme b) in
  if Nat.eqb a_len b_len then String.eqb (lexeme a) (lexeme b) else false.

Definition cw_add_local (cw : cwRuntime) (ident : cwToken) : cwRuntime :=
  if local_count cw >? UINT8_MAX
  then cw_syntax_error_at cw (previous cw) "Too many variables in scope."
  else
    set_local_count (local_count cw + 1)
      (set_locals (store (locals cw) (local_count cw) (mkLocal ident (-1)))
         cw).

(** [cw->locals[i]].  A slot of [locals] that was never written holds
    the zeroed local of the zeroed [cwRuntime]: its name is empty, so an
    identifier with an empty lexeme is equal to it, and its depth is 0. *)
Definition local_at (cw : cwRuntime) (i : Z) : cwLocal :=
  match load (locals cw) i with
  | Some local => local
  | None => zero_local
  end.

(** The loop of [cw_resolve_local] with [i] at [n - 1]. *)
Fixpoint resolve_local_from (n : nat) (cw : cwRuntime) (ident : cwToken)
    : cwRuntime * Z :=
  match n with
  | O => (cw, -1)
  | S i =>
      let local := local_at cw (Z.of_nat i) in
      if cw_identifiers_equal ident (name local)
      then
        ((if depth local <? 0
          then cw_syntax_error_at cw ident
                 "Can not read local variable in its own initializer."
          else cw),
         Z.of_nat i)
      else resolve_local_from i cw ident
  end.

Definition cw_resolve_local (cw : cwRuntime) (ident : cwToken)
    : cwRuntime * Z :=
  resolve_local_from (Z.to_nat (local_count cw)) cw ident.

Definition cw_emit_byte (cw : cwRuntime) (byte : Z) : cwRuntime :=
  set_chunk (cw_chunk_write (chunk cw) byte (line (previous cw))) cw.

Definition cw_emit_bytes (cw : cwRuntime) (a b : Z) : cwRuntime :=
  cw_emit_byte (cw_emit_byte cw a) b.

Definition cw_emit_jump (cw : cwRuntime) (instruction : Z)
    : cwRuntime * Z :=
  let cw := cw_emit_byte cw instruction in
  let cw := cw_emit_byte cw 255 in
  let cw := cw_emit_byte cw 255 in
  (cw, len (chunk cw) - 2).

Definition set_bytes (x : list Z) (c : cwChunk) : cwChunk :=
  mkChunk x (lines c) (len c) (cap c) (constants c) (const_len c)
    (const_cap c).

Definition cw_patch_jump (cw : cwRuntime) (offset : Z) : cwRuntime :=
  let jump := len (chunk cw) - offset - 2 in
  let cw :=
    if jump >? UINT16_MAX
    then cw_syntax_error_at cw (previous cw) "Too much code to jump over."
    else cw in
  let cw :=
    set_chunk
      (set_bytes (store (bytes (chunk cw)) offset
                    (Z.land (Z.shiftr jump 8) 255)) (chunk cw)) cw in
  set_chunk
    (set_bytes (store (bytes (chunk cw)) (offset + 1) (Z.land jump 255))
       (chunk cw)) cw.

Definition cw_compiler_end (cw : cwRuntime) : cwRuntime :=
  cw_emit_byte cw (opcode_byte OP_RETURN).

(** The parser ([parser.c], [statement.c]) is not among the sources.  What
    it does to the compiler is a sequence of calls of the functions above
    and of writes to the fields of [cwRuntime] that belong to it: the two
    tokens, the panic flag that synchronization clears, and the locals
    with their count and the scope depth. *)
Inductive Action :=
| CallEmitByte (byte : Z)
| CallEmitBytes (a b : Z)
| CallEmitJump (instruction : Z)
| CallPatchJump (offset : Z)
| CallMakeConstant (value : Value)
| CallIdentifierConstant (ident : cwToken)
| CallAddLocal (ident : cwToken)
| CallResolveLocal (ident : cwToken)
| CallSyntaxError (msg : string)
| CallSyntaxErrorAt (token : cwToken) (msg : string)
| SetTokens (prev cur : cwToken)
| SetPanic (b : bool)
| SetLocals (ls : list cwLocal) (count scope : Z).

Definition run_action (cw : cwRuntime) (a : Action) : cwRuntime :=
  match a with
  | CallEmitByte byte => cw_emit_byte cw byte
  | CallEmitBytes a b => cw_emit_bytes cw a b
  | CallEmitJump instruction => fst (cw_emit_jump cw instruction)
  | CallPatchJump offset => cw_patch_jump cw offset
  | CallMakeConstant value => fst (cw_make_constant cw value)
  | CallIdentifierConstant ident => fst (cw_identifier_constant cw ident)
  | CallAddLocal ident => cw_add_local cw ident
  | CallResolveLocal ident => fst (cw_resolve_local cw ident)
  | CallSyntaxError msg => cw_syntax_error cw msg
  | CallSyntaxErrorAt token msg => cw_syntax_error_at cw token msg
  | SetTokens prev cur => set_current cur (set_previous prev cw)
  | SetPanic b => set_panic b cw
  | SetLocals ls count scope =>
      set_scope_depth scope (set_local_count count (set_locals ls cw))
  end.

Definition run_actions (cw : cwRuntime) (l : list Action) : cwRuntime :=
  fold_left run_action l cw.

(** [cw_compile].  [parser src] stands for what [cw_advance], the
    [cw_match] tests of the loop and the calls of [cw_parse_declaration]
    do on the source text [src], up to the end of the input. *)
Definition cw_compile (parser : string -> list Action) (cw : cwRuntime)
    (src : string) (chunk : cwChunk) : cwRuntime * bool :=
  let cw :=
    set_current (mkToken TOKEN_NULL (mod_ (current cw)) EmptyString 1) cw in
  let cw := set_chunk chunk cw in
  let cw := set_local_count 0 cw in
  let cw := set_scope_depth 0 cw in
  let cw := set_error false cw in
  let cw := set_panic false cw in
  let cw := run_actions cw (parser src) in
  let cw := cw_compiler_end cw in
  (cw, negb (error cw)).

(* ------------------------------------------------------------------ *)
(** ** [compiler.c], second listing *)

Module Listing2.

Definition cw_make_constant (cw : cwRuntime) (val : Value)
    : cwRuntime * Z :=
  let c := chunk cw in
  let new_cap :=
    if const_cap c <? const_len c + 1
    then CW_GROW_CAPACITY (const_cap c)
    else const_cap c in
  let c :=
    mkChunk (bytes c) (lines c) (len c) (cap c)
      (store (constants c) (const_len c) val) (const_len c) new_cap in
  let cw := set_chunk c cw in
  if const_len c >? UINT8_MAX
  then (cw_syntax_error_at cw (previous cw)
          "Too many constants in one chunk.", 0)
  else
    (set_chunk
       (mkChunk (bytes c) (lines c) (len c) (cap c) (constants c)
          (const_len c + 1) (const_cap c)) cw,
     uint8 (const_len c)).

(** The chunk writer of the second listing. *)
Definition cw_emit_byte (chunk : cwChunk) (byte : Z) (line : Z) : cwChunk :=
  let new_cap :=
    if cap chunk <? len chunk + 1 then CW_GROW_CAPACITY (cap chunk)
    else cap chunk in
  mkChunk (store (bytes chunk) (len chunk) (uint8 byte))
          (store (lines chunk) (len chunk) line)
          (len chunk + 1)
          new_cap
          (constants chunk) (const_len chunk) (const_cap chunk).

Definition cw_emit_loop (cw : cwRuntime) (start : Z) : cwRuntime :=
  let cw :=
    set_chunk
      (cw_emit_byte (chunk cw) (opcode_byte OP_LOOP) (line (previous cw))) cw in
  let offset := len (chunk cw) - start + 2 in
  let cw :=
    if offset >? UINT16_MAX
    then cw_syntax_error_at cw (previous cw) "Loop body too large."
    else cw in
  let cw :=
    set_chunk
      (cw_emit_byte (chunk cw) (Z.land (Z.shiftr offset 8) 255)
         (line (previous cw))) cw in
  set_chunk
    (cw_emit_byte (chunk cw) (Z.land offset 255) (line (previous cw))) cw.

End Listing2.

(* ------------------------------------------------------------------ *)
(** ** [runtime.c] *)

(** Modelled from the spec: [CW_STACK_MAX] of [runtime.h] is not among the
    sources.  Section 3 gives the value stack a capacity of 256. *)
Definition CW_STACK_MAX : Z := 256.

(** What a piece of the run loop comes to: it goes on with a result, or it
    leaves [cw_run] with [return], or it reads a slot that was never
    written (below the stack, past the code), which C leaves undefined. *)
Inductive Res (A : Type) :=
| Val (a : A) (cw : cwRuntime)
| Ret (r : InterpretResult) (cw : cwRuntime)
| Undefined.

Arguments Val {A} a cw.
Arguments Ret {A} r cw.
Arguments Undefined {A}.

Definition M (A : Type) : Type := cwRuntime -> Res A.

Definition ret {A : Type} (a : A) : M A := fun cw => Val a cw.

Definition bind {A B : Type} (m : M A) (k : A -> M B) : M B :=
  fun cw =>
    match m cw with
    | Val a cw' => k a cw'
    | Ret r cw' => Ret r cw'
    | Undefined => Undefined
    end.

Declare Scope run_scope.
Delimit Scope run_scope with run.
Notation "x <- m ;; k" := (bind m (fun x => k))
  (at level 61, m at next level, right associativity) : run_scope.
Notation "m ;; k" := (bind m (fun _ => k))
  (at level 61, right associativity) : run_scope.
Local Open Scope run_scope.

(** [return r;] inside [cw_run]. *)
Definition return_ {A : Type} (r : InterpretResult) : M A :=
  fun cw => Ret r cw.

Definition modify (f : cwRuntime -> cwRuntime) : M unit :=
  fun cw => Val tt (f cw).

Definition cw_reset_stack (cw : cwRuntime) : cwRuntime :=
  set_stack_index 0 cw.

(** [instruction] is [ip - bytes - 1]. *)
Definition cw_runtime_error (format : string) (args : list printf_arg)
    : M unit :=
  fun cw =>
    let cw := to_stderr (Printf format args) cw in
    let cw := to_stderr (Fputs "\n") cw in
    let instruction := ip cw - 1 in
    match load (lines (chunk cw)) instruction with
    | Some line =>
        let cw :=
          to_stderr (Printf "[line %d] in script\n" [ArgInt line]) cw in
        Val tt (cw_reset_stack cw)
    | None => Undefined
    end.

Definition cw_push_stack (val : Value) : M unit :=
  fun cw =>
    if stack_index cw >=? CW_STACK_MAX
    then cw_runtime_error "Stack overflow" [] cw
    else
      Val tt
        (set_stack_index (stack_index cw + 1)
           (set_stack (store (stack cw) (stack_index cw) val) cw)).

Definition cw_pop_stack : M Value :=
  fun cw =>
    let cw := set_stack_index (stack_index cw - 1) cw in
    match load (stack cw) (stack_index cw) with
    | Some v => Val v cw
    | None => Undefined
    end.

Definition cw_peek_stack (distance : Z) : M Value :=
  fun cw =>
    match load (stack cw) (stack_index cw - 1 - distance) with
    | Some v => Val v cw
    | None => Undefined
    end.

(** [*cw->ip++]. *)
Definition READ_BYTE : M Z :=
  fun cw =>
    match load (bytes (chunk cw)) (ip cw) with
    | Some b => Val b (set_ip (ip cw + 1) cw)
    | None => Undefined
    end.

Definition READ_CONSTANT : M Value :=
  b <- READ_BYTE ;;
  fun cw =>
    match load (constants (chunk cw)) b with
    | Some v => Val v cw
    | None => Undefined
    end.

(** [a && b] and [a || b] on tests that read the stack: the right operand
    is evaluated only when the left one does not decide. *)
Definition and_also (a b : M bool) : M bool :=
  x <- a ;; if x then b else ret false.
Definition or_else (a b : M bool) : M bool :=
  x <- a ;; if x then ret true else b.

Definition test (p : Value -> bool) (distance : Z) : M bool :=
  v <- cw_peek_stack distance ;; ret (p v).

Definition BINARY_OP {T : Type} (value_type : T -> Value)
    (op : float -> float -> T) : M unit :=
  bad <- or_else (test (fun v => negb (IS_NUMBER v)) 0)
                 (test (fun v => negb (IS_NUMBER v)) 1) ;;
  if bad
  then
    cw_runtime_error "Operands must be numbers." [] ;;
    return_ INTERPRET_RUNTIME_ERROR
  else
    b <- cw_pop_stack ;;
    a <- cw_pop_stack ;;
    cw_push_stack (value_type (op (AS_NUMBER a) (AS_NUMBER b))).

(** Modelled from the spec: [cw_str_concat] is not among the sources.
    Section 4.3: the bytes of both strings are copied into a new string,
    its hash is computed and the intern table is searched; the canonical
    object is used if there is one.  Section 5: only the surviving object
    is put on the object list. *)
Definition cw_str_concat (a b : cwString) : M cwString :=
  fun cw =>
    let '(cw', s) := intern cw (chars a ++ chars b)%string in
    Val s cw'.

(** The [switch] of [cw_run].  A byte that no [case] names leaves the
    [switch] at once. *)
Definition cw_run_switch (instruction : Z) : M unit :=
  match opcode_of_byte instruction with
  | Some OP_CONSTANT =>
      constant <- READ_CONSTANT ;;
      cw_push_stack constant
  | Some OP_NULL => cw_push_stack MAKE_NULL
  | Some OP_TRUE => cw_push_stack (MAKE_BOOL true)
  | Some OP_FALSE => cw_push_stack (MAKE_BOOL false)
  | Some OP_POP => _ <- cw_pop_stack ;; ret tt
  | Some OP_EQ | Some OP_NOTEQ =>
      b <- cw_pop_stack ;;
      a <- cw_pop_stack ;;
      let eq := cw_values_equal a b in
      cw_push_stack
        (MAKE_BOOL (if instruction =? opcode_byte OP_EQ then eq else negb eq))
  | Some OP_LT => BINARY_OP MAKE_BOOL PrimFloat.ltb
  | Some OP_GT => BINARY_OP MAKE_BOOL (fun a b => PrimFloat.ltb b a)
  | Some OP_LTEQ => BINARY_OP MAKE_BOOL PrimFloat.leb
  | Some OP_GTEQ => BINARY_OP MAKE_BOOL (fun a b => PrimFloat.leb b a)
  | Some OP_ADD =>
      strs <- and_also (test IS_STRING 0) (test IS_STRING 1) ;;
      if strs
      then
        b <- cw_pop_stack ;;
        a <- cw_pop_stack ;;
        s <- cw_str_concat (AS_STRING a) (AS_STRING b) ;;
        cw_push_stack (MAKE_OBJECT s)
      else
        nums <- and_also (test IS_NUMBER 0) (test IS_NUMBER 1) ;;
        if nums
        then
          b <- cw_pop_stack ;;
          a <- cw_pop_stack ;;
          cw_push_stack (MAKE_NUMBER (PrimFloat.add (AS_NUMBER a) (AS_NUMBER b)))
        else
          cw_runtime_error "Operands must be two numbers or two strings." [] ;;
          return_ INTERPRET_RUNTIME_ERROR
  | Some OP_SUBTRACT => BINARY_OP MAKE_NUMBER PrimFloat.sub
  | Some OP_MULTIPLY => BINARY_OP MAKE_NUMBER PrimFloat.mul
  | Some OP_DIVIDE => BINARY_OP MAKE_NUMBER PrimFloat.div
  | Some OP_NOT =>
      v <- cw_pop_stack ;;
      cw_push_stack (MAKE_BOOL (cw_is_falsey v))
  | Some OP_NEGATE =>
      num <- test IS_NUMBER 0 ;;
      if negb num
      then
        cw_runtime_error "Operand must be a number." [] ;;
        return_ INTERPRET_RUNTIME_ERROR
      else
        v <- cw_pop_stack ;;
        cw_push_stack (MAKE_NUMBER (PrimFloat.opp (AS_NUMBER v)))
  | Some OP_PRINT =>
      v <- cw_pop_stack ;;
      modify (to_stdout (PrintValue v)) ;;
      modify (to_stdout (Printf "\n" []))
  | Some OP_RETURN => return_ INTERPRET_OK
  | _ => ret tt
  end.

(** One turn of the loop of [cw_run]: an instruction is read and the
    [switch] is executed. *)
Definition cw_run_instruction : M unit :=
  instruction <- READ_BYTE ;;
  cw_run_switch instruction.

(** How a run ends: [cw_run] returns, or it runs into what C leaves
    undefined, or the turns granted to the loop are used up. *)
Inductive Outcome :=
| Returned (r : InterpretResult) (cw : cwRuntime)
| UndefinedBehaviour
| OutOfFuel (cw : cwRuntime).

(** [cw_run]: the loop [while (true)], for at most [fuel] turns. *)
Fixpoint cw_run (fuel : nat) (cw : cwRuntime) : Outcome :=
  match fuel with
  | O => OutOfFuel cw
  | S fuel' =>
      match cw_run_instruction cw with
      | Val _ cw' => cw_run fuel' cw'
      | Ret r cw' => Returned r cw'
      | Undefined => UndefinedBehaviour
      end
  end.

Definition cw_interpret (parser : string -> list Action) (fuel : nat)
    (cw : cwRuntime) (src : string) : Outcome :=
  let chunk0 := cw_chunk_init in
  let '(cw, ok) := cw_compile parser cw src chunk0 in
  if ok
  then
    let cw := set_chunk (chunk cw) cw in
    let cw := set_ip 0 cw in
    match cw_run fuel cw with
    | Returned result cw => Returned result (set_chunk (cw_chunk_free (chunk cw)) cw)
    | other => other
    end
  else Returned INTERPRET_COMPILE_ERROR (set_chunk (cw_chunk_free (chunk cw)) cw).

(** [chunk] and [ip] are set to [NULL]: no chunk, no code. *)
Definition cw_init (cw : cwRuntime) : cwRuntime :=
  cw_reset_stack
    (set_strings [] (set_objects [] (set_ip 0 (set_chunk cw_chunk_init cw)))).

(* ------------------------------------------------------------------ *)
(** ** Vocabulary of the statements *)

(** The length field of a chunk counts slots that have been written in
    both of its arrays. *)
Definition chunk_wf (c : cwChunk) : Prop :=
  0 <= len c /\
  len c <= Z.of_nat (List.length (bytes c)) /\
  len c <= Z.of_nat (List.length (lines c)).

(** What a step of compilation may do to the chunk: the length field does
    not shrink and keeps counting written slots. *)
Definition chunk_grows (c c' : cwChunk) : Prop :=
  (chunk_wf c -> chunk_wf c') /\ len c <= len c'.

(** The 16-bit big-endian number held by the two bytes at [offset]. *)
Definition be16_at (a : list Z) (offset : Z) : option Z :=
  match load a offset, load a (offset + 1) with
  | Some hi, Some lo => Some (hi * 256 + lo)
  | _, _ => None
  end.

(** A compile error raised through [cw_syntax_error_at] between two
    states: the compiler is in panic mode afterwards; out of panic mode
    the error flag is set and the report is written; in panic mode the
    report is suppressed. *)
Definition syntax_error_raised (before after : cwRuntime) (token : cwToken)
    (msg : string) : Prop :=
  panic after = true /\
  (panic before = false ->
     error after = true /\
     stderr after = stderr before ++ error_report token msg) /\
  (panic before = true ->
     error after = error before /\ stderr after = stderr before).

(** The runtime that [cw_runtime_error] leaves when the instruction at
    fault is on line [ln]: the message and the line are written to
    [stderr] and the stack is reset. *)
Definition after_runtime_error (cw : cwRuntime) (format : string)
    (args : list printf_arg) (ln : Z) : cwRuntime :=
  cw_reset_stack
    (set_stderr
       (stderr cw
        ++ [Printf format args; Fputs "\n";
            Printf "[line %d] in script\n" [ArgInt ln]])
       cw).

(** The next instruction of the run loop. *)
Definition next_opcode (cw : cwRuntime) (o : OpCode) : Prop :=
  load (bytes (chunk cw)) (ip cw) = Some (opcode_byte o).

(** The string [s] is the canonical one of the intern table of [cw]. *)
Definition interned (cw : cwRuntime) (s : cwString) : Prop :=
  cw_table_find_key (strings cw) (chars s) (hash s) = Some s.

(* ------------------------------------------------------------------ *)
(** ** Sample states *)

(** [cwRuntime cw = { 0 }] of [main], after [cw_init]. *)
Definition cw_zero : cwRuntime :=
  cw_init
    (mkRuntime cw_chunk_init 0 [] 0 [] [] zero_token zero_token [] 0 0
       false false [] []).

Definition token_at (ty : cwTokenType) (lex : string) (ln : Z) : cwToken :=
  mkToken ty TOKENMOD_NONE lex ln.

(** A chunk with the given code on line 1 and the given constants. *)
Definition chunk_of (code : list Z) (consts : list Value) : cwChunk :=
  mkChunk code (map (fun _ => 1) code) (Z.of_nat (List.length code))
    (Z.of_nat (List.length code)) consts (Z.of_nat (List.length consts))
    (Z.of_nat (List.length consts)).

(** A runtime about to run the given code, with the given values on the
    stack (bottom first). *)
Definition runtime_of (code : list Z) (consts : list Value)
    (values : list Value) : cwRuntime :=
  set_stack_index (Z.of_nat (List.length values))
    (set_stack values (set_chunk (chunk_of code consts) cw_zero)).

(** A parser that emits the given code on line 1, for a source text that
    compiles to it. *)
Definition emitting (code : list Z) (src : string) : list Action :=
  SetTokens (token_at TOKEN_SEMICOLON ";" 1) (token_at TOKEN_EOF EmptyString 1)
  :: map CallEmitByte code.

(** 257 pushes in a row, then the end of the program. *)
Definition overflow_code : list Z := repeat (opcode_byte OP_NULL) 257.

(** 257 pushes in a row, then [true] is pushed and printed. *)
Definition overflow_print_code : list Z :=
  repeat (opcode_byte OP_NULL) 257
  ++ [opcode_byte OP_TRUE; opcode_byte OP_PRINT; opcode_byte OP_RETURN].

(** A runtime whose constants pool holds 256 values. *)
Definition cw_full_pool : cwRuntime :=
  set_chunk (chunk_of [] (repeat VAL_NULL 256)) cw_zero.

(** What the parser does on the program that prints the number one: the
    constant is entered in the pool and loaded, then printed. *)
Definition print_one (src : string) : list Action :=
  [ SetTokens (token_at TOKEN_INTEGER "1" 1) (token_at TOKEN_SEMICOLON ";" 1);
    CallMakeConstant (MAKE_NUMBER 1%float);
    CallEmitBytes (opcode_byte OP_CONSTANT) 0;
    SetTokens (token_at TOKEN_SEMICOLON ";" 1) (token_at TOKEN_EOF EmptyString 1);
    CallEmitByte (opcode_byte OP_PRINT) ].

(** A runtime whose chunk holds a jump at byte 0, its operand still
    [0xff 0xff], and 65537 bytes of code after it. *)
Definition cw_long_jump : cwRuntime :=
  set_chunk
    (chunk_of ([opcode_byte OP_JUMP; 255; 255] ++ repeat 0 (Z.to_nat 65537)) [])
    cw_zero.

(** The code of an equality nested 257 deep, printed: 257 operands are
    pushed before the first comparison. *)
Definition nested_equality_code : list Z :=
  repeat (opcode_byte OP_TRUE) 257
  ++ repeat (opcode_byte OP_EQ) 256
  ++ [opcode_byte OP_PRINT; opcode_byte OP_RETURN].

(* ------------------------------------------------------------------ *)
(** ** [debug.c]: the disassembler *)

Module Disasm.

(** The fields of the chunk that the disassembler reads; its constants are
    values of [debug.c]. *)
Record Chunk := mkChunk {
  bytes : list Z;
  lines : list Z;
  len : Z;
  constants : list Debug.Value
}.

(** What the disassembler prints and the offset it returns; [None] when it
    reads a slot that was never written. *)
Definition cw_disassemble_constant (name : string) (chunk : Chunk)
    (offset : Z) : option (list io_call * Z) :=
  match load (bytes chunk) (offset + 1) with
  | None => None
  | Some constant =>
      match load (constants chunk) constant with
      | None => None
      | Some v =>
          Some ([Printf "%-16s %4d '" [ArgStr name; ArgInt constant]]
                ++ Debug.cw_print_value v
                ++ [Printf "'\n" []],
                offset + 2)
      end
  end.

Definition cw_disassemble_simple (name : string) (offset : Z)
    : option (list io_call * Z) :=
  Some ([Printf "%s\n" [ArgStr name]], offset + 1).

(** The line column: a bar when the byte is on the line of the byte
    before it. *)
Definition line_column (chunk : Chunk) (offset : Z) : option (list io_call) :=
  match load (lines chunk) offset with
  | None => None
  | Some ln =>
      if 0 <? offset
      then
        match load (lines chunk) (offset - 1) with
        | None => None
        | Some before =>
            if ln =? before then Some [Printf "   | " []]
            else Some [Printf "%4d " [ArgInt ln]]
        end
      else Some [Printf "%4d " [ArgInt ln]]
  end.

Definition cw_disassemble_instruction (chunk : Chunk) (offset : Z)
    : option (list io_call * Z) :=
  match line_column chunk offset, load (bytes chunk) offset with
  | Some column, Some instruction =>
      let head := Printf "%04d " [ArgInt offset] :: column in
      let r :=
        match opcode_of_byte instruction with
        | Some OP_CONSTANT => cw_disassemble_constant "OP_CONSTANT" chunk offset
        | Some OP_NULL => cw_disassemble_simple "OP_NULL" offset
        | Some OP_TRUE => cw_disassemble_simple "OP_TRUE" offset
        | Some OP_FALSE => cw_disassemble_simple "OP_FALSE" offset
        | Some OP_POP => cw_disassemble_simple "OP_POP" offset
        | Some OP_DEF_GLOBAL =>
            cw_disassemble_constant "OP_DEF_GLOBAL" chunk offset
        | Some OP_SET_GLOBAL =>
            cw_disassemble_constant "OP_SET_GLOBAL" chunk offset
        | Some OP_GET_GLOBAL =>
            cw_disassemble_constant "OP_GET_GLOBAL" chunk offset
        | Some OP_EQ => cw_disassemble_simple "OP_EQ" offset
        | Some OP_NOTEQ => cw_disassemble_simple "OP_NOTEQ" offset
        | Some OP_LT => cw_disassemble_simple "OP_LT" offset
        | Some OP_GT => cw_disassemble_simple "OP_GT" offset
        | Some OP_LTEQ => cw_disassemble_simple "OP_LTEQ" offset
        | Some OP_GTEQ => cw_disassemble_simple "OP_GTEQ" offset
        | Some OP_ADD => cw_disassemble_simple "OP_ADD" offset
        | Some OP_SUBTRACT => cw_disassemble_simple "OP_SUBTRACT" offset
        | Some OP_MULTIPLY => cw_disassemble_simple "OP_MULTIPLY" offset
        | Some OP_DIVIDE => cw_disassemble_simple "OP_DIVIDE" offset
        | Some OP_NOT => cw_disassemble_simple "OP_NOT" offset
        | Some OP_NEGATE => cw_disassemble_simple "OP_NEGATE" offset
        | Some OP_PRINT => cw_disassemble_simple "OP_PRINT" offset
        | Some OP_RETURN => cw_disassemble_simple "OP_RETURN" offset
        | _ =>
            Some ([Printf "Unknown opcode %d\n" [ArgInt instruction]],
                  offset + 1)
        end in
      match r with
      | Some (out, next) => Some (head ++ out, next)
      | None => None
      end
  | _, _ => None
  end.

(** How a disassembly ends: with its output, in a read that C leaves
    undefined, or with the turns granted to the loop used up. *)
Inductive Listing :=
| Printed (out : list io_call)
| BadRead
| NoFuel.

(** The loop of [cw_disassemble_chunk] from [offset], for at most [fuel]
    turns. *)
Fixpoint disassemble_from (fuel : nat) (chunk : Chunk) (offset : Z)
    : Listing :=
  if offset <? len chunk
  then
    match fuel with
    | O => NoFuel
    | S fuel' =>
        match cw_disassemble_instruction chunk offset with
        | None => BadRead
        | Some (out, next) =>
            match disassemble_from fuel' chunk next with
            | Printed rest => Printed (out ++ rest)
            | other => other
            end
        end
    end
  else Printed [].

Definition cw_disassemble_chunk (fuel : nat) (chunk : Chunk) (name : string)
    : Listing :=
  match disassemble_from fuel chunk 0 with
  | Printed out => Printed (Printf "== %s ==\n" [ArgStr name] :: out)
  | other => other
  end.

(** The offsets at which the loop calls [cw_disassemble_instruction]. *)
Fixpoint visited (fuel : nat) (chunk : Chunk) (offset : Z) : list Z :=
  if offset <? len chunk
  then
    match fuel with
    | O => []
    | S fuel' =>
        match cw_disassemble_instruction chunk offset with
        | None => [offset]
        | Some (_, next) => offset :: visited fuel' chunk next
        end
    end
  else [].

End Disasm.

(* ------------------------------------------------------------------ *)
(** ** Vocabulary of the further properties *)

(** A piece of the run loop started in a state of [P] goes on in a state
    of [Q], or leaves [cw_run] with a result and a state of [R]. *)
Definition triple {A : Type} (P : cwRuntime -> Prop) (m : M A)
    (Q : A -> cwRuntime -> Prop) (R : InterpretResult -> cwRuntime -> Prop)
    : Prop :=
  forall cw, P cw ->
    match m cw with
    | Val a cw' => Q a cw'
    | Ret r cw' => R r cw'
    | Undefined => True
    end.

(** How the results of [cw_run] come about: [INTERPRET_OK] after an
    [OP_RETURN] was read, [INTERPRET_RUNTIME_ERROR] with the stack reset,
    [INTERPRET_COMPILE_ERROR] never. *)
Definition result_origin (r : InterpretResult) (cw : cwRuntime) : Prop :=
  match r with
  | INTERPRET_OK =>
      load (bytes (chunk cw)) (ip cw - 1) = Some (opcode_byte OP_RETURN)
  | INTERPRET_RUNTIME_ERROR => stack_index cw = 0
  | INTERPRET_COMPILE_ERROR => False
  end.

(** The opcodes that the [switch] of [cw_run] has a [case] for. *)
Definition handled : list OpCode :=
  [ OP_CONSTANT; OP_NULL; OP_TRUE; OP_FALSE; OP_POP;
    OP_EQ; OP_NOTEQ; OP_LT; OP_GT; OP_LTEQ; OP_GTEQ;
    OP_ADD; OP_SUBTRACT; OP_MULTIPLY; OP_DIVIDE;
    OP_NOT; OP_NEGATE; OP_PRINT; OP_RETURN ].

(** The value that a comparison or an arithmetic opcode computes from [a]
    and [b], [b] on top: the equalities take any two values, the others
    two Numbers. *)
Definition binary_value (o : OpCode) (a b : Value) : option Value :=
  match o, a, b with
  | OP_EQ, _, _ => Some (MAKE_BOOL (cw_values_equal a b))
  | OP_NOTEQ, _, _ => Some (MAKE_BOOL (negb (cw_values_equal a b)))
  | OP_LT, VAL_NUMBER x, VAL_NUMBER y => Some (MAKE_BOOL (PrimFloat.ltb x y))
  | OP_GT, VAL_NUMBER x, VAL_NUMBER y => Some (MAKE_BOOL (PrimFloat.ltb y x))
  | OP_LTEQ, VAL_NUMBER x, VAL_NUMBER y => Some (MAKE_BOOL (PrimFloat.leb x y))
  | OP_GTEQ, VAL_NUMBER x, VAL_NUMBER y => Some (MAKE_BOOL (PrimFloat.leb y x))
  | OP_SUBTRACT, VAL_NUMBER x, VAL_NUMBER y =>
      Some (MAKE_NUMBER (PrimFloat.sub x y))
  | OP_MULTIPLY, VAL_NUMBER x, VAL_NUMBER y =>
      Some (MAKE_NUMBER (PrimFloat.mul x y))
  | OP_DIVIDE, VAL_NUMBER x, VAL_NUMBER y =>
      Some (MAKE_NUMBER (PrimFloat.div x y))
  | _, _, _ => None
  end.

(** The value that [OP_NOT] or [OP_NEGATE] computes from [v]: the first
    takes any value, the second a Number. *)
Definition unary_value (o : OpCode) (v : Value) : option Value :=
  match o, v with
  | OP_NOT, _ => Some (MAKE_BOOL (cw_is_falsey v))
  | OP_NEGATE, VAL_NUMBER x => Some (MAKE_NUMBER (PrimFloat.opp x))
  | _, _ => None
  end.

(** The fields of the runtime that belong to the compiler are those of
    [cw0]. *)
Definition same_compiler_state (cw0 cw : cwRuntime) : Prop :=
  chunk cw = chunk cw0 /\
  previous cw = previous cw0 /\ current cw = current cw0 /\
  locals cw = locals cw0 /\ local_count cw = local_count cw0 /\
  scope_depth cw = scope_depth cw0 /\
  error cw = error cw0 /\ panic cw = panic cw0.

(** The fields of the runtime that belong to the run loop are those of
    [cw0]. *)
Definition same_run_state (cw0 cw : cwRuntime) : Prop :=
  ip cw = ip cw0 /\ stack cw = stack cw0 /\
  stack_index cw = stack_index cw0 /\ stdout cw = stdout cw0.

(** What a step of compilation may do to the error flag and to [stderr]:
    nothing, or, out of panic mode, set the flag and write one report. *)
Definition error_step (cw cw' : cwRuntime) : Prop :=
  (error cw' = error cw /\ stderr cw' = stderr cw) \/
  (exists token msg,
      panic cw = false /\ error cw' = true /\
      stderr cw' = stderr cw ++ error_report token msg).

(** Since [stderr] held [s0] no error has been flagged and nothing was
    written, or an error has been flagged and a first report was written,
    and maybe more. *)
Definition error_log (s0 : list io_call) (cw : cwRuntime) : Prop :=
  (error cw = false /\ stderr cw = s0) \/
  (error cw = true /\
   exists token msg rest, stderr cw = s0 ++ error_report token msg ++ rest).

(** The code of [c'] is the code of [c] with [suffix] after it, and its
    lines are the lines of [c] with as many lines after them. *)
Definition code_extends (c c' : cwChunk) (suffix : list Z) : Prop :=
  chunk_bytes c' = chunk_bytes c ++ suffix /\
  exists more,
    chunk_lines c' = chunk_lines c ++ more /\
    List.length more = List.length suffix.

(** The pool of [c'] has the constants of the pool of [c] at their
    indices. *)
Definition pool_extends (c c' : cwChunk) : Prop :=
  const_len c <= const_len c' /\
  forall k, k < const_len c ->
            load (constants c') k = load (constants c) k.

(** An action is not a call of [cw_patch_jump]. *)
Definition not_a_patch (a : Action) : Prop :=
  match a with CallPatchJump _ => False | _ => True end.

(** A chunk of [debug.c] that loads its one constant and returns, on one
    line. *)
Definition listing_sample : Disasm.Chunk :=
  Disasm.mkChunk
    [opcode_byte OP_CONSTANT; 0; opcode_byte OP_RETURN] [1; 1; 1] 3
    [Debug.Int 7].

(* ================================================================== *)
(** * Properties *)

(* ------------------------------------------------------------------ *)
(** ** Arrays *)

Section ArrayFacts.
Context {A : Type}.
Implicit Types (a : list A) (v : A).

Lemma update_length_le a : forall n v,
  (List.length a <= List.length (update a n v))%nat.
Proof.
  induction a as [|x r IH]; intros [|n] v; simpl; try lia.
  specialize (IH n v). lia.
Qed.

Lemma update_read_same a : forall n v,
  (n <= List.length a)%nat -> nth_error (update a n v) n = Some v.
Proof.
  induction a as [|x r IH]; intros [|n] v Hn; simpl in *;
    try reflexivity; try lia.
  apply IH. lia.
Qed.

Lemma update_read_other a : forall n m v,
  n <> m -> nth_error (update a n v) m = nth_error a m.
Proof.
  induction a as [|x r IH]; intros [|n] [|m] v Hnm; simpl;
    try reflexivity; try congruence.
  - destruct m; reflexivity.
  - apply IH. congruence.
Qed.

Lemma update_prefix a : forall n k v,
  (k <= n)%nat -> firstn k (update a n v) = firstn k a.
Proof.
  induction a as [|x r IH]; intros [|n] [|k] v Hk; simpl;
    try reflexivity; try lia.
  f_equal. apply IH. lia.
Qed.

Lemma update_prefix_next a : forall n v,
  (n <= List.length a)%nat ->
  firstn (S n) (update a n v) = firstn n a ++ [v].
Proof.
  induction a as [|x r IH]; intros [|n] v Hn; simpl in *;
    try reflexivity; try lia.
  f_equal. apply IH. lia.
Qed.

Lemma store_length_le a i v :
  (List.length a <= List.length (store a i v))%nat.
Proof.
  unfold store. destruct (i <? 0); [lia | apply update_length_le].
Qed.

Lemma load_store_same a i v :
  0 <= i <= Z.of_nat (List.length a) -> load (store a i v) i = Some v.
Proof.
  intros Hi. unfold load, store.
  destruct (Z.ltb_spec i 0); [lia|].
  apply update_read_same. lia.
Qed.

Lemma load_store_other a i j v :
  i <> j -> load (store a i v) j = load a j.
Proof.
  intros Hij. unfold load, store.
  destruct (Z.ltb_spec j 0); [reflexivity|].
  destruct (Z.ltb_spec i 0); [reflexivity|].
  apply update_read_other. lia.
Qed.

Lemma contents_store_above a i n v :
  n <= i -> contents (store a i v) n = contents a n.
Proof.
  intros Hn. unfold contents, store.
  destruct (Z.ltb_spec i 0); [reflexivity|].
  apply update_prefix. lia.
Qed.

Lemma contents_store_next a i v :
  0 <= i <= Z.of_nat (List.length a) ->
  contents (store a i v) (i + 1) = contents a i ++ [v].
Proof.
  intros Hi. unfold contents, store.
  destruct (Z.ltb_spec i 0); [lia|].
  replace (Z.to_nat (i + 1)) with (S (Z.to_nat i)) by lia.
  apply update_prefix_next. lia.
Qed.

Lemma contents_length a n :
  0 <= n <= Z.of_nat (List.length a) ->
  List.length (contents a n) = Z.to_nat n.
Proof.
  intros Hn. unfold contents. rewrite length_firstn. lia.
Qed.
End ArrayFacts.

(* ------------------------------------------------------------------ *)
(** ** Syntax errors and panic mode *)

Lemma cw_syntax_error_at_chunk cw token msg :
  chunk (cw_syntax_error_at cw token msg) = chunk cw.
Proof.
  unfold cw_syntax_error_at.
  destruct (panic cw); [reflexivity|].
  destruct (type token); reflexivity.
Qed.

Lemma cw_syntax_error_at_previous cw token msg :
  previous (cw_syntax_error_at cw token msg) = previous cw.
Proof.
  unfold cw_syntax_error_at.
  destruct (panic cw); [reflexivity|].
  destruct (type token); reflexivity.
Qed.

Lemma cw_syntax_error_at_in_panic cw token msg :
  panic cw = true -> cw_syntax_error_at cw token msg = cw.
Proof.
  intros Hp. unfold cw_syntax_error_at. rewrite Hp. reflexivity.
Qed.

Lemma cw_syntax_error_at_reported cw token msg :
  panic cw = false ->
  error (cw_syntax_error_at cw token msg) = true /\
  panic (cw_syntax_error_at cw token msg) = true /\
  stderr (cw_syntax_error_at cw token msg)
  = stderr cw ++ error_report token msg.
Proof.
  intros Hp. unfold cw_syntax_error_at, error_report. rewrite Hp.
  destruct (type token); simpl;
    repeat split; rewrite <- ?app_assoc; reflexivity.
Qed.

Lemma cw_syntax_error_at_raised cw token msg :
  syntax_error_raised cw (cw_syntax_error_at cw token msg) token msg.
Proof.
  unfold syntax_error_raised.
  destruct (panic cw) eqn:Hp.
  - rewrite (cw_syntax_error_at_in_panic cw token msg Hp).
    repeat split; auto; discriminate.
  - destruct (cw_syntax_error_at_reported cw token msg Hp) as (He & Hq & Hs).
    repeat split; auto; discriminate.
Qed.

(** C9.  The first syntax error reported through [cw_syntax_error_at],
    that is a call out of panic mode, sets [error] and [panic] (and writes
    its report); a call in panic mode returns the runtime as it was: it
    writes nothing and changes no field.  So does every sequence of calls
    that follows the first error while panic remains set. *)
Theorem cw_syntax_error_at_first_sets_then_suppressed :
  forall (cw : cwRuntime) (token : cwToken) (msg : string),
    (panic cw = false ->
       let cw1 := cw_syntax_error_at cw token msg in
       error cw1 = true /\ panic cw1 = true /\
       stderr cw1 = stderr cw ++ error_report token msg /\
       forall later : list (cwToken * string),
         fold_left (fun s e => cw_syntax_error_at s (fst e) (snd e)) later cw1
         = cw1) /\
    (panic cw = true -> cw_syntax_error_at cw token msg = cw).
Proof.
  intros cw token msg. split.
  - intros Hp cw1.
    destruct (cw_syntax_error_at_reported cw token msg Hp) as (He & Hq & Hs).
    repeat split; try assumption.
    intros later. induction later as [|[t m] l IH]; simpl.
    + reflexivity.
    + rewrite (cw_syntax_error_at_in_panic cw1 t m Hq). exact IH.
  - apply cw_syntax_error_at_in_panic.
Qed.

Lemma cw_syntax_error_at_first_sets_then_suppressed_witness :
  let tok := token_at TOKEN_IDENTIFIER "x" 3 in
  let cw1 := cw_syntax_error_at cw_zero tok "Expect expression." in
  panic cw_zero = false /\
  error cw1 = true /\ panic cw1 = true /\
  stderr cw1
  = [Printf "[line %d] Error" [ArgInt 3];
     Printf " at '%.*s'" [ArgInt 1; ArgStr "x"];
     Printf ": %s\n" [ArgStr "Expect expression."]] /\
  cw_syntax_error_at cw1 tok "Expect ';'." = cw1.
Proof.
  intros tok cw1.
  destruct (cw_syntax_error_at_first_sets_then_suppressed cw_zero tok
              "Expect expression.") as [Hfirst _].
  destruct (Hfirst eq_refl) as (He & Hp & Hs & _).
  destruct (cw_syntax_error_at_first_sets_then_suppressed cw1 tok
              "Expect ';'.") as [_ Hnext].
  split; [reflexivity|].
  split; [exact He|].
  split; [exact Hp|].
  split; [exact Hs | exact (Hnext Hp)].
Defined.

(* ------------------------------------------------------------------ *)
(** ** Writing the chunk *)

Lemma cw_chunk_init_wf : chunk_wf cw_chunk_init.
Proof. unfold chunk_wf; simpl; lia. Qed.

Lemma chunk_of_wf code consts : chunk_wf (chunk_of code consts).
Proof. unfold chunk_wf, chunk_of; simpl. rewrite length_map. lia. Qed.

Lemma cw_chunk_write_wf c byte ln :
  chunk_wf c -> chunk_wf (cw_chunk_write c byte ln).
Proof.
  intros (H0 & Hb & Hl). unfold chunk_wf, cw_chunk_write, store; simpl.
  destruct (Z.ltb_spec (len c) 0); [lia|].
  pose proof (update_read_same (bytes c) (Z.to_nat (len c)) (uint8 byte)) as Rb.
  pose proof (update_read_same (lines c) (Z.to_nat (len c)) ln) as Rl.
  assert (Z.to_nat (len c) < List.length (update (bytes c) (Z.to_nat (len c)) (uint8 byte)))%nat
    by (apply nth_error_Some; rewrite Rb by lia; discriminate).
  assert (Z.to_nat (len c) < List.length (update (lines c) (Z.to_nat (len c)) ln))%nat
    by (apply nth_error_Some; rewrite Rl by lia; discriminate).
  lia.
Qed.

Lemma cw_chunk_write_bytes c byte ln :
  chunk_wf c ->
  chunk_bytes (cw_chunk_write c byte ln) = chunk_bytes c ++ [uint8 byte].
Proof.
  intros (H0 & Hb & Hl). unfold chunk_bytes, cw_chunk_write; simpl.
  apply contents_store_next. lia.
Qed.

Lemma cw_chunk_write_lines c byte ln :
  chunk_wf c ->
  chunk_lines (cw_chunk_write c byte ln) = chunk_lines c ++ [ln].
Proof.
  intros (H0 & Hb & Hl). unfold chunk_lines, cw_chunk_write; simpl.
  apply contents_store_next. lia.
Qed.

Lemma chunk_wf_same_length c :
  chunk_wf c ->
  List.length (chunk_bytes c) = List.length (chunk_lines c).
Proof.
  intros (H0 & Hb & Hl). unfold chunk_bytes, chunk_lines.
  rewrite !contents_length by lia. reflexivity.
Qed.

Lemma chunk_grows_refl c : chunk_grows c c.
Proof. split; [auto | lia]. Qed.

Lemma chunk_grows_trans c1 c2 c3 :
  chunk_grows c1 c2 -> chunk_grows c2 c3 -> chunk_grows c1 c3.
Proof. intros [W1 L1] [W2 L2]. split; [auto | lia]. Qed.

Lemma cw_emit_byte_grows cw byte :
  chunk_grows (chunk cw) (chunk (cw_emit_byte cw byte)).
Proof.
  split; simpl.
  - apply cw_chunk_write_wf.
  - lia.
Qed.

Lemma set_bytes_store_grows c i v :
  chunk_grows c (set_bytes (store (bytes c) i v) c).
Proof.
  split; simpl; [|lia].
  intros (H0 & Hb & Hl). unfold chunk_wf; simpl.
  pose proof (store_length_le (bytes c) i v). lia.
Qed.

Lemma cw_patch_jump_chunk cw offset :
  let jump := len (chunk cw) - offset - 2 in
  chunk (cw_patch_jump cw offset)
  = set_bytes
      (store (store (bytes (chunk cw)) offset (Z.land (Z.shiftr jump 8) 255))
         (offset + 1) (Z.land jump 255))
      (chunk cw).
Proof.
  unfold cw_patch_jump. cbv zeta.
  set (cw1 := if _ >? UINT16_MAX then _ else cw).
  assert (E : chunk cw1 = chunk cw).
  { subst cw1. destruct (_ >? _); [apply cw_syntax_error_at_chunk | reflexivity]. }
  simpl. rewrite E. reflexivity.
Qed.

Lemma cw_patch_jump_grows cw offset :
  chunk_grows (chunk cw) (chunk (cw_patch_jump cw offset)).
Proof.
  rewrite cw_patch_jump_chunk. cbv zeta.
  set (hi := Z.land _ 255). set (lo := Z.land _ 255).
  apply (chunk_grows_trans _ (set_bytes (store (bytes (chunk cw)) offset hi)
                                (chunk cw))).
  - apply set_bytes_store_grows.
  - apply (set_bytes_store_grows
             (set_bytes (store (bytes (chunk cw)) offset hi) (chunk cw))
             (offset + 1) lo).
Qed.

Lemma cw_make_constant_grows cw value :
  chunk_grows (chunk cw) (chunk (fst (cw_make_constant cw value))).
Proof.
  unfold cw_make_constant, cw_chunk_add_constant.
  destruct (_ >? UINT8_MAX); simpl; rewrite ?cw_syntax_error_at_chunk; simpl;
    (split; [intros W; exact W | simpl; lia]).
Qed.

Lemma intern_chunk cw str : chunk (fst (intern cw str)) = chunk cw.
Proof.
  unfold intern. destruct (cw_table_find_key _ _ _); reflexivity.
Qed.

Lemma resolve_local_from_chunk n : forall cw ident,
  chunk (fst (resolve_local_from n cw ident)) = chunk cw.
Proof.
  induction n as [|i IH]; intros cw ident; cbn [resolve_local_from];
    [reflexivity|]. cbv zeta.
  destruct (cw_identifiers_equal ident (name (local_at cw (Z.of_nat i))));
    [|apply IH].
  cbn [fst]. destruct (depth (local_at cw (Z.of_nat i)) <? 0);
    [apply cw_syntax_error_at_chunk | reflexivity].
Qed.

Lemma cw_emit_jump_grows cw instruction :
  chunk_grows (chunk cw) (chunk (fst (cw_emit_jump cw instruction))).
Proof.
  unfold cw_emit_jump. cbv zeta. cbn [fst].
  apply (chunk_grows_trans _ (chunk (cw_emit_byte cw instruction)));
    [apply cw_emit_byte_grows|].
  apply (chunk_grows_trans _
           (chunk (cw_emit_byte (cw_emit_byte cw instruction) 255)));
    apply cw_emit_byte_grows.
Qed.

Lemma run_action_grows cw a :
  chunk_grows (chunk cw) (chunk (run_action cw a)).
Proof.
  destruct a; cbn [run_action].
  - apply cw_emit_byte_grows.
  - unfold cw_emit_bytes.
    apply (chunk_grows_trans _ (chunk (cw_emit_byte cw a)));
      apply cw_emit_byte_grows.
  - apply cw_emit_jump_grows.
  - apply cw_patch_jump_grows.
  - apply cw_make_constant_grows.
  - unfold cw_identifier_constant, cw_str_copy.
    pose proof (intern_chunk cw (lexeme ident)) as E.
    destruct (intern cw (lexeme ident)) as [cw1 s]. cbn [fst] in E.
    rewrite <- E. apply cw_make_constant_grows.
  - unfold cw_add_local. destruct (_ >? _);
      [rewrite cw_syntax_error_at_chunk|]; apply chunk_grows_refl.
  - unfold cw_resolve_local. rewrite resolve_local_from_chunk.
    apply chunk_grows_refl.
  - unfold cw_syntax_error. rewrite cw_syntax_error_at_chunk.
    apply chunk_grows_refl.
  - rewrite cw_syntax_error_at_chunk. apply chunk_grows_refl.
  - apply chunk_grows_refl.
  - apply chunk_grows_refl.
  - apply chunk_grows_refl.
Qed.

Lemma run_actions_grows l : forall cw,
  chunk_grows (chunk cw) (chunk (run_actions cw l)).
Proof.
  induction l as [|a l IH]; intros cw; simpl.
  - apply chunk_grows_refl.
  - eapply chunk_grows_trans; [apply run_action_grows | apply IH].
Qed.

(* ------------------------------------------------------------------ *)
(** ** The end of compilation *)

Lemma cw_compiler_end_bytes cw :
  chunk_wf (chunk cw) ->
  chunk_bytes (chunk (cw_compiler_end cw))
  = chunk_bytes (chunk cw) ++ [opcode_byte OP_RETURN].
Proof.
  intros W. unfold cw_compiler_end, cw_emit_byte. cbn [chunk set_chunk].
  rewrite cw_chunk_write_bytes by exact W. reflexivity.
Qed.

(** Whatever the parser did, and whether or not an error was reported,
    the chunk that [cw_compile] leaves ends with [OP_RETURN] and has as
    many lines as bytes. *)
Lemma cw_compile_chunk parser cw src chunk0 :
  chunk_wf chunk0 ->
  let c := chunk (fst (cw_compile parser cw src chunk0)) in
  chunk_wf c /\
  exists code, chunk_bytes c = code ++ [opcode_byte OP_RETURN].
Proof.
  intros W0. unfold cw_compile. cbv zeta. cbn [fst].
  match goal with
  | |- context [run_actions ?s ?l] =>
      pose proof (run_actions_grows l s) as [W _];
      set (cw2 := run_actions s l) in *
  end.
  specialize (W W0).
  split.
  - unfold cw_compiler_end. apply cw_emit_byte_grows. exact W.
  - eexists. apply cw_compiler_end_bytes. exact W.
Qed.

(** C7.  When [cw_compile] returns true on a chunk whose length counts
    written slots (as the fresh chunk of [cw_interpret] does), the last
    byte of the resulting chunk is [OP_RETURN], and its byte array and its
    line array have the same length. *)
Theorem cw_compile_success_ends_with_return :
  forall (parser : string -> list Action) (cw : cwRuntime) (src : string)
         (chunk0 : cwChunk) (cw' : cwRuntime),
    chunk_wf chunk0 ->
    cw_compile parser cw src chunk0 = (cw', true) ->
    (exists code,
        chunk_bytes (chunk cw') = code ++ [opcode_byte OP_RETURN]) /\
    List.length (chunk_bytes (chunk cw'))
    = List.length (chunk_lines (chunk cw')).
Proof.
  intros parser cw src chunk0 cw' W0 Hc.
  pose proof (cw_compile_chunk parser cw src chunk0 W0) as H.
  rewrite Hc in H. cbn [fst] in H. destruct H as [W Hret].
  split; [exact Hret | apply chunk_wf_same_length; exact W].
Qed.

Lemma cw_compile_success_ends_with_return_witness :
  let r := cw_compile print_one cw_zero "print 1;" cw_chunk_init in
  snd r = true /\
  chunk_bytes (chunk (fst r)) = [0; 0; 22; 27] /\
  (exists code,
      chunk_bytes (chunk (fst r)) = code ++ [opcode_byte OP_RETURN]) /\
  List.length (chunk_bytes (chunk (fst r)))
  = List.length (chunk_lines (chunk (fst r))).
Proof.
  intros r.
  split; [vm_compute; reflexivity|].
  split; [vm_compute; reflexivity|].
  apply (cw_compile_success_ends_with_return print_one cw_zero "print 1;"
           cw_chunk_init (fst r)).
  - unfold chunk_wf; simpl; lia.
  - vm_compute; reflexivity.
Defined.

(* ------------------------------------------------------------------ *)
(** ** Jumps *)

Lemma land_255 x : Z.land x 255 = x mod 256.
Proof. change 255 with (Z.ones 8). rewrite Z.land_ones by lia. reflexivity. Qed.

Lemma shiftr_8 x : Z.shiftr x 8 = x / 256.
Proof. rewrite Z.shiftr_div_pow2 by lia. reflexivity. Qed.

Lemma high_low_bytes x :
  (x / 256) mod 256 * 256 + x mod 256 = x mod 65536.
Proof.
  change 65536 with (256 * 256).
  rewrite (Z.rem_mul_r x 256 256) by lia. lia.
Qed.

Lemma cw_patch_jump_len cw offset :
  len (chunk (cw_patch_jump cw offset)) = len (chunk cw).
Proof. rewrite cw_patch_jump_chunk. reflexivity. Qed.

(** The two bytes that [cw_patch_jump] writes, for an operand that lies in
    the written code. *)
Lemma cw_patch_jump_bytes cw offset :
  0 <= offset < Z.of_nat (List.length (bytes (chunk cw))) ->
  let jump := len (chunk cw) - offset - 2 in
  let code := bytes (chunk (cw_patch_jump cw offset)) in
  load code offset = Some (Z.land (Z.shiftr jump 8) 255) /\
  load code (offset + 1) = Some (Z.land jump 255) /\
  be16_at code offset = Some (jump mod 65536).
Proof.
  intros Ho jump code. subst code. rewrite cw_patch_jump_chunk. cbv zeta.
  fold jump. cbn [bytes set_bytes].
  set (hi := Z.land (Z.shiftr jump 8) 255). set (lo := Z.land jump 255).
  assert (Hhi : load (store (store (bytes (chunk cw)) offset hi) (offset + 1) lo)
                  offset = Some hi).
  { rewrite load_store_other by lia. apply load_store_same. lia. }
  assert (Hlo : load (store (store (bytes (chunk cw)) offset hi) (offset + 1) lo)
                  (offset + 1) = Some lo).
  { apply load_store_same.
    pose proof (store_length_le (bytes (chunk cw)) offset hi). lia. }
  split; [exact Hhi|]. split; [exact Hlo|].
  unfold be16_at. rewrite Hhi, Hlo. f_equal.
  subst hi lo. rewrite !land_255, shiftr_8. apply high_low_bytes.
Qed.

Lemma cw_patch_jump_in_range cw offset :
  len (chunk cw) - offset - 2 <= UINT16_MAX ->
  error (cw_patch_jump cw offset) = error cw /\
  panic (cw_patch_jump cw offset) = panic cw /\
  stderr (cw_patch_jump cw offset) = stderr cw.
Proof.
  intros Hj. unfold cw_patch_jump. cbv zeta.
  destruct (Z.gtb_spec (len (chunk cw) - offset - 2) UINT16_MAX); [lia|].
  repeat split.
Qed.

Lemma cw_patch_jump_too_far cw offset :
  len (chunk cw) - offset - 2 > UINT16_MAX ->
  syntax_error_raised cw (cw_patch_jump cw offset) (previous cw)
    "Too much code to jump over.".
Proof.
  intros Hj.
  pose proof (cw_syntax_error_at_raised cw (previous cw)
                "Too much code to jump over.") as R.
  unfold cw_patch_jump. cbv zeta.
  destruct (Z.gtb_spec (len (chunk cw) - offset - 2) UINT16_MAX); [|lia].
  exact R.
Qed.

Lemma cw_emit_jump_offset cw instruction :
  snd (cw_emit_jump cw instruction) = len (chunk cw) + 1 /\
  len (chunk (fst (cw_emit_jump cw instruction))) = len (chunk cw) + 3.
Proof.
  unfold cw_emit_jump, cw_emit_byte. cbv zeta.
  cbn [fst snd chunk set_chunk len cw_chunk_write]. lia.
Qed.

(** C6.  A jump is emitted by [cw_emit_jump], which returns [offset]; the
    compiler goes on in any way; the jump is then patched by
    [cw_patch_jump] at [offset].  The displacement
    [chunk.len - offset - 2] is not negative, the bytes at [offset] and
    [offset + 1] are the high and the low byte of its low 16 bits, so they
    hold it as a 16-bit big-endian number whenever it is at most
    [UINT16_MAX] (and then nothing is reported); when it exceeds
    [UINT16_MAX] the compile error "Too much code to jump over." is
    raised. *)
Theorem cw_patch_jump_operand :
  forall (cw : cwRuntime) (instruction : Z) (between : list Action),
    chunk_wf (chunk cw) ->
    let offset := snd (cw_emit_jump cw instruction) in
    let cw2 := run_actions (fst (cw_emit_jump cw instruction)) between in
    let cw3 := cw_patch_jump cw2 offset in
    let jump := len (chunk cw2) - offset - 2 in
    0 <= jump /\
    load (bytes (chunk cw3)) offset = Some (Z.land (Z.shiftr jump 8) 255) /\
    load (bytes (chunk cw3)) (offset + 1) = Some (Z.land jump 255) /\
    be16_at (bytes (chunk cw3)) offset = Some (jump mod 65536) /\
    (jump <= UINT16_MAX ->
       be16_at (bytes (chunk cw3)) offset = Some jump /\
       error cw3 = error cw2 /\ stderr cw3 = stderr cw2) /\
    (jump > UINT16_MAX ->
       syntax_error_raised cw2 cw3 (previous cw2)
         "Too much code to jump over.").
Proof.
  intros cw instruction between W offset cw2 cw3 jump.
  destruct (cw_emit_jump_offset cw instruction) as [Eo El].
  destruct (cw_emit_jump_grows cw instruction) as [W1 _].
  destruct (run_actions_grows between (fst (cw_emit_jump cw instruction)))
    as [W2 L2].
  fold cw2 in W2, L2. fold offset in Eo.
  destruct (W2 (W1 W)) as (_ & Hb & _).
  assert (Hj : 0 <= jump) by (unfold jump; lia).
  assert (Ho : 0 <= offset < Z.of_nat (List.length (bytes (chunk cw2)))).
  { destruct W as (H0 & _). lia. }
  destruct (cw_patch_jump_bytes cw2 offset Ho) as (Hhi & Hlo & Hbe).
  fold jump in Hhi, Hlo, Hbe. fold cw3 in Hhi, Hlo, Hbe.
  split; [exact Hj|]. split; [exact Hhi|]. split; [exact Hlo|].
  split; [exact Hbe|]. split.
  - intros Hsmall.
    destruct (cw_patch_jump_in_range cw2 offset Hsmall) as (He & _ & Hs).
    split; [|split; assumption].
    rewrite Hbe. f_equal. apply Z.mod_small.
    unfold UINT16_MAX in Hsmall. lia.
  - intros Hbig. apply cw_patch_jump_too_far. exact Hbig.
Qed.

Lemma cw_patch_jump_operand_witness :
  let between :=
    [CallEmitByte (opcode_byte OP_POP); CallEmitByte (opcode_byte OP_TRUE);
     CallEmitByte (opcode_byte OP_PRINT)] in
  let emitted := cw_emit_jump cw_zero (opcode_byte OP_JUMP_IF_FALSE) in
  let cw2 := run_actions (fst emitted) between in
  let cw3 := cw_patch_jump cw2 (snd emitted) in
  chunk_wf (chunk cw_zero) /\
  snd emitted = 1 /\
  len (chunk cw2) - snd emitted - 2 = 3 /\
  be16_at (bytes (chunk cw3)) (snd emitted) = Some 3 /\
  chunk_bytes (chunk cw3) = [24; 0; 3; 4; 2; 22].
Proof.
  intros between emitted cw2 cw3.
  assert (W : chunk_wf (chunk cw_zero)) by (unfold chunk_wf; simpl; lia).
  pose proof (cw_patch_jump_operand cw_zero (opcode_byte OP_JUMP_IF_FALSE)
                between W) as H.
  cbv zeta in H. destruct H as (_ & _ & _ & _ & Hsmall & _).
  assert (Hle : len (chunk cw2) - snd emitted - 2 <= UINT16_MAX)
    by (vm_compute; discriminate).
  destruct (Hsmall Hle) as (Hbe & _).
  split; [exact W|].
  split; [vm_compute; reflexivity|].
  split; [vm_compute; reflexivity|].
  split; [|vm_compute; reflexivity].
  vm_compute in Hbe. vm_compute. exact Hbe.
Defined.

(** C10.  When the displacement that [cw_patch_jump] computes exceeds
    [UINT16_MAX], the compile error is raised and the two bytes at
    [offset] and [offset + 1] are written all the same: they hold the low
    16 bits of the displacement, which is not the displacement; the chunk
    is changed whenever the operand held another number before. *)
Theorem cw_patch_jump_overflow_still_writes :
  forall (cw : cwRuntime) (offset : Z),
    chunk_wf (chunk cw) ->
    0 <= offset ->
    len (chunk cw) - offset - 2 > UINT16_MAX ->
    let jump := len (chunk cw) - offset - 2 in
    let cw' := cw_patch_jump cw offset in
    syntax_error_raised cw cw' (previous cw) "Too much code to jump over." /\
    load (bytes (chunk cw')) offset = Some (Z.land (Z.shiftr jump 8) 255) /\
    load (bytes (chunk cw')) (offset + 1) = Some (Z.land jump 255) /\
    be16_at (bytes (chunk cw')) offset = Some (jump mod 65536) /\
    jump mod 65536 <> jump /\
    (be16_at (bytes (chunk cw)) offset <> Some (jump mod 65536) ->
     chunk cw' <> chunk cw).
Proof.
  intros cw offset (H0 & Hb & Hl) Ho Hbig jump cw'.
  assert (Hin : 0 <= offset < Z.of_nat (List.length (bytes (chunk cw))))
    by (unfold UINT16_MAX in Hbig; lia).
  destruct (cw_patch_jump_bytes cw offset Hin) as (Hhi & Hlo & Hbe).
  fold jump in Hhi, Hlo, Hbe. fold cw' in Hhi, Hlo, Hbe.
  split; [apply cw_patch_jump_too_far; exact Hbig|].
  split; [exact Hhi|]. split; [exact Hlo|]. split; [exact Hbe|].
  split.
  - pose proof (Z.mod_pos_bound jump 65536 ltac:(lia)).
    unfold UINT16_MAX in Hbig. fold jump in Hbig. lia.
  - intros Hold Hsame. apply Hold. rewrite <- Hsame. exact Hbe.
Qed.

Lemma cw_patch_jump_overflow_still_writes_witness :
  let cw' := cw_patch_jump cw_long_jump 1 in
  len (chunk cw_long_jump) - 1 - 2 = 65537 /\
  be16_at (bytes (chunk cw_long_jump)) 1 = Some 65535 /\
  be16_at (bytes (chunk cw')) 1 = Some 1 /\
  error cw' = true /\
  stderr cw'
  = [Printf "[line %d] Error" [ArgInt 0];
     Printf " at end" [];
     Printf ": %s\n" [ArgStr "Too much code to jump over."]].
Proof.
  intros cw'.
  assert (W : chunk_wf (chunk cw_long_jump)).
  { unfold chunk_wf. split; [|split]; vm_compute; discriminate. }
  assert (Ho : 0 <= 1) by lia.
  assert (Hbig : len (chunk cw_long_jump) - 1 - 2 > UINT16_MAX)
    by (vm_compute; reflexivity).
  pose proof (cw_patch_jump_overflow_still_writes cw_long_jump 1 W Ho Hbig)
    as H.
  cbv zeta in H. destruct H as ((_ & Hrep & _) & _ & _ & Hbe & _).
  destruct (Hrep eq_refl) as (He & Hs).
  split; [vm_compute; reflexivity|].
  split; [vm_compute; reflexivity|].
  split; [vm_compute in Hbe; vm_compute; exact Hbe|].
  split; [exact He|].
  vm_compute in Hs. vm_compute. exact Hs.
Defined.

(* ------------------------------------------------------------------ *)
(** ** The constants pool *)

Lemma syntax_error_raised_after_set_chunk cw c token msg :
  syntax_error_raised cw
    (cw_syntax_error_at (set_chunk c cw) token msg) token msg.
Proof.
  pose proof (cw_syntax_error_at_raised (set_chunk c cw) token msg) as R.
  unfold syntax_error_raised in *. exact R.
Qed.

(** The first listing on a full pool: the value is added all the same. *)
Lemma cw_make_constant_full cw value :
  const_len (chunk cw) = 256 ->
  256 <= Z.of_nat (List.length (constants (chunk cw))) ->
  let r := cw_make_constant cw value in
  snd r = 0 /\
  syntax_error_raised cw (fst r) (previous cw)
    "Too many constants in one chunk." /\
  const_len (chunk (fst r)) = 257 /\
  chunk_constants (chunk (fst r)) = chunk_constants (chunk cw) ++ [value].
Proof.
  intros Hlen Hslots.
  unfold cw_make_constant, cw_chunk_add_constant. rewrite Hlen.
  change (256 >? UINT8_MAX) with true. cbv beta iota zeta. cbn [fst snd].
  split; [reflexivity|].
  split; [apply syntax_error_raised_after_set_chunk|].
  rewrite cw_syntax_error_at_chunk. cbn [chunk set_chunk const_len].
  split; [reflexivity|].
  unfold chunk_constants. cbn [constants const_len]. rewrite Hlen.
  apply (contents_store_next (constants (chunk cw)) 256 value). lia.
Qed.

(** The second listing on a full pool: the value is written past the
    pool, whose length is not changed. *)
Lemma cw_make_constant_full_listing2 cw value :
  const_len (chunk cw) = 256 ->
  256 <= Z.of_nat (List.length (constants (chunk cw))) ->
  let r := Listing2.cw_make_constant cw value in
  snd r = 0 /\
  syntax_error_raised cw (fst r) (previous cw)
    "Too many constants in one chunk." /\
  const_len (chunk (fst r)) = 256 /\
  chunk_constants (chunk (fst r)) = chunk_constants (chunk cw) /\
  load (constants (chunk (fst r))) 256 = Some value.
Proof.
  intros Hlen Hslots.
  unfold Listing2.cw_make_constant. cbv zeta. cbn [const_len]. rewrite Hlen.
  change (256 >? UINT8_MAX) with true. cbv beta iota. cbn [fst snd].
  split; [reflexivity|].
  split; [apply syntax_error_raised_after_set_chunk|].
  rewrite cw_syntax_error_at_chunk. cbn [chunk set_chunk const_len constants].
  split; [reflexivity|].
  unfold chunk_constants. cbn [constants const_len]. rewrite Hlen.
  split.
  - apply contents_store_above. lia.
  - apply load_store_same. lia.
Qed.

(** C2, as the code has it.  When the pool already holds 256 values,
    [cw_make_constant] returns 0 and raises the compile error "Too many
    constants in one chunk.", but it tests the limit after it has written
    the value.  In the first listing the value is added: the pool holds
    257 values afterwards.  In the second listing the value is written in
    the slot past the pool and [const_len] stays 256, so the pool is as it
    was. *)
Theorem cw_make_constant_full_pool :
  forall (cw : cwRuntime) (value : Value),
    const_len (chunk cw) = 256 ->
    256 <= Z.of_nat (List.length (constants (chunk cw))) ->
    (let r := cw_make_constant cw value in
     snd r = 0 /\
     syntax_error_raised cw (fst r) (previous cw)
       "Too many constants in one chunk." /\
     const_len (chunk (fst r)) = 257 /\
     chunk_constants (chunk (fst r)) = chunk_constants (chunk cw) ++ [value])
    /\
    (let r := Listing2.cw_make_constant cw value in
     snd r = 0 /\
     syntax_error_raised cw (fst r) (previous cw)
       "Too many constants in one chunk." /\
     const_len (chunk (fst r)) = 256 /\
     chunk_constants (chunk (fst r)) = chunk_constants (chunk cw) /\
     load (constants (chunk (fst r))) 256 = Some value).
Proof.
  intros cw value Hlen Hslots. split.
  - apply cw_make_constant_full; assumption.
  - apply cw_make_constant_full_listing2; assumption.
Qed.

Lemma cw_make_constant_full_pool_witness :
  let r := cw_make_constant cw_full_pool (MAKE_NUMBER 1%float) in
  let r2 := Listing2.cw_make_constant cw_full_pool (MAKE_NUMBER 1%float) in
  const_len (chunk cw_full_pool) = 256 /\
  (snd r = 0 /\ const_len (chunk (fst r)) = 257) /\
  (snd r2 = 0 /\ const_len (chunk (fst r2)) = 256 /\
   load (constants (chunk (fst r2))) 256 = Some (MAKE_NUMBER 1%float)).
Proof.
  intros r r2.
  assert (Hlen : const_len (chunk cw_full_pool) = 256)
    by (vm_compute; reflexivity).
  assert (Hslots :
            256 <= Z.of_nat (List.length (constants (chunk cw_full_pool))))
    by (vm_compute; discriminate).
  destruct (cw_make_constant_full_pool cw_full_pool (MAKE_NUMBER 1%float)
              Hlen Hslots) as [H1 H2].
  cbv zeta in H1, H2.
  destruct H1 as (Hr & _ & Hn & _). destruct H2 as (Hr2 & _ & Hn2 & _ & Hw).
  split; [exact Hlen|].
  split; [split; [exact Hr | exact Hn]|].
  split; [exact Hr2|]. split; [exact Hn2 | exact Hw].
Defined.

(** C2, as stated, fails on the first listing: on a pool of 256 values
    the call returns 0 and reports the error, and the pool has changed,
    for it holds 257 values. *)
Lemma cw_make_constant_adds_before_check :
  let r := cw_make_constant cw_full_pool (MAKE_BOOL true) in
  List.length (chunk_constants (chunk cw_full_pool)) = 256%nat /\
  snd r = 0 /\
  error (fst r) = true /\
  List.length (chunk_constants (chunk (fst r))) = 257%nat /\
  load (constants (chunk (fst r))) 256 = Some (MAKE_BOOL true) /\
  chunk_constants (chunk (fst r)) <> chunk_constants (chunk cw_full_pool).
Proof.
  intros r.
  split; [vm_compute; reflexivity|].
  split; [vm_compute; reflexivity|].
  split; [vm_compute; reflexivity|].
  split; [vm_compute; reflexivity|].
  split; [vm_compute; reflexivity|].
  intros H. apply (f_equal (@List.length Value)) in H.
  vm_compute in H. discriminate H.
Qed.

(* ------------------------------------------------------------------ *)
(** ** Locals *)

(** A slot below the length of the array has been written. *)
Lemma load_written {A : Type} (a : list A) i :
  0 <= i < Z.of_nat (List.length a) -> exists x, load a i = Some x.
Proof.
  intros Hi. unfold load.
  destruct (Z.ltb_spec i 0) as [Hneg | _]; [lia|].
  destruct (nth_error a (Z.to_nat i)) as [x|] eqn:E; [exists x; reflexivity|].
  apply nth_error_None in E. lia.
Qed.

Lemma local_at_written cw i local :
  load (locals cw) i = Some local -> local_at cw i = local.
Proof. intros H. unfold local_at. rewrite H. reflexivity. Qed.

(** The loop returns the innermost local of the given name, and reports
    the error when the depth of that local is negative. *)
Lemma resolve_local_from_innermost n : forall cw ident i,
  (i < n)%nat ->
  cw_identifiers_equal ident (name (local_at cw (Z.of_nat i))) = true ->
  (forall j, (i < j < n)%nat ->
             cw_identifiers_equal ident (name (local_at cw (Z.of_nat j)))
             = false) ->
  resolve_local_from n cw ident
  = ((if depth (local_at cw (Z.of_nat i)) <? 0
      then cw_syntax_error_at cw ident
             "Can not read local variable in its own initializer."
      else cw),
     Z.of_nat i).
Proof.
  induction n as [|m IH]; intros cw ident i Hi Heq Hnone.
  - lia.
  - cbn [resolve_local_from]. cbv zeta.
    destruct (Nat.eq_dec m i) as [->|Hne].
    + rewrite Heq. reflexivity.
    + rewrite (Hnone m) by lia.
      apply IH; [lia | exact Heq |].
      intros j Hj. apply Hnone. lia.
Qed.

Lemma cw_resolve_local_negative_depth cw ident i local :
  local_count cw <= Z.of_nat (List.length (locals cw)) ->
  0 <= i < local_count cw ->
  load (locals cw) i = Some local ->
  cw_identifiers_equal ident (name local) = true ->
  depth local < 0 ->
  (forall j l, i < j < local_count cw ->
               load (locals cw) j = Some l ->
               cw_identifiers_equal ident (name l) = false) ->
  cw_resolve_local cw ident
  = (cw_syntax_error_at cw ident
       "Can not read local variable in its own initializer.", i).
Proof.
  intros Hlen Hi Hload Heq Hdepth Hnone. unfold cw_resolve_local.
  rewrite (resolve_local_from_innermost (Z.to_nat (local_count cw)) cw ident
             (Z.to_nat i)).
  - rewrite Z2Nat.id by lia. rewrite (local_at_written cw i local Hload).
    destruct (Z.ltb_spec (depth local) 0); [|lia]. reflexivity.
  - lia.
  - rewrite Z2Nat.id by lia. rewrite (local_at_written cw i local Hload).
    exact Heq.
  - intros j Hj.
    destruct (load_written (locals cw) (Z.of_nat j) ltac:(lia)) as [l Hl].
    rewrite (local_at_written cw _ l Hl).
    apply (Hnone (Z.of_nat j) l); [lia | exact Hl].
Qed.

(** C8.  An identifier is resolved to the innermost local of its name.
    When that local has a negative depth (the -1 of a local that is
    declared and not yet initialized), [cw_resolve_local] raises the
    compile error "Can not read local variable in its own initializer."
    at the identifier, and returns the slot of the local.  The locals
    below [local_count] are those that [cw_add_local] has written. *)
Theorem cw_resolve_local_uninitialized :
  forall (cw : cwRuntime) (ident : cwToken) (i : Z) (local : cwLocal),
    local_count cw <= Z.of_nat (List.length (locals cw)) ->
    0 <= i < local_count cw ->
    load (locals cw) i = Some local ->
    cw_identifiers_equal ident (name local) = true ->
    depth local < 0 ->
    (forall j l, i < j < local_count cw ->
                 load (locals cw) j = Some l ->
                 cw_identifiers_equal ident (name l) = false) ->
    let r := cw_resolve_local cw ident in
    snd r = i /\
    fst r = cw_syntax_error_at cw ident
              "Can not read local variable in its own initializer." /\
    syntax_error_raised cw (fst r) ident
      "Can not read local variable in its own initializer.".
Proof.
  intros cw ident i local Hlen Hi Hload Heq Hdepth Hnone r. subst r.
  rewrite (cw_resolve_local_negative_depth cw ident i local)
    by assumption.
  cbn [fst snd].
  split; [reflexivity|]. split; [reflexivity|].
  apply cw_syntax_error_at_raised.
Qed.

(** The case of the initializer: the local that [cw_add_local] has just
    declared is the one that its own name resolves to. *)
Lemma cw_resolve_local_after_add cw ident :
  0 <= local_count cw <= UINT8_MAX ->
  local_count cw <= Z.of_nat (List.length (locals cw)) ->
  cw_identifiers_equal ident ident = true ->
  let cw1 := cw_add_local cw ident in
  cw_resolve_local cw1 ident
  = (cw_syntax_error_at cw1 ident
       "Can not read local variable in its own initializer.",
     local_count cw).
Proof.
  intros Hc Hl Hid cw1.
  assert (E1 : local_count cw1 = local_count cw + 1).
  { subst cw1. unfold cw_add_local.
    destruct (Z.gtb_spec (local_count cw) UINT8_MAX); [lia | reflexivity]. }
  assert (E2 : load (locals cw1) (local_count cw) = Some (mkLocal ident (-1))).
  { subst cw1. unfold cw_add_local.
    destruct (Z.gtb_spec (local_count cw) UINT8_MAX); [lia|].
    cbn [locals set_locals set_local_count]. apply load_store_same. lia. }
  assert (E3 : local_count cw1 <= Z.of_nat (List.length (locals cw1))).
  { destruct (Z.le_gt_cases (local_count cw1)
                (Z.of_nat (List.length (locals cw1)))) as [H | H]; [exact H|].
    unfold load in E2.
    destruct (Z.ltb_spec (local_count cw) 0) as [Hneg | _]; [lia|].
    assert (Hn : nth_error (locals cw1) (Z.to_nat (local_count cw)) <> None)
      by (rewrite E2; discriminate).
    apply nth_error_Some in Hn. lia. }
  apply (cw_resolve_local_negative_depth cw1 ident (local_count cw)
           (mkLocal ident (-1))); cbn [depth name]; try assumption; try lia.
Qed.

Lemma cw_resolve_local_uninitialized_witness :
  let a := token_at TOKEN_IDENTIFIER "a" 2 in
  let cw1 := cw_add_local cw_zero (token_at TOKEN_IDENTIFIER "a" 1) in
  let r := cw_resolve_local cw1 a in
  load (locals cw1) 0 = Some (mkLocal (token_at TOKEN_IDENTIFIER "a" 1) (-1)) /\
  snd r = 0 /\
  error (fst r) = true /\
  stderr (fst r)
  = [Printf "[line %d] Error" [ArgInt 2];
     Printf " at '%.*s'" [ArgInt 1; ArgStr "a"];
     Printf ": %s\n"
       [ArgStr "Can not read local variable in its own initializer."]].
Proof.
  intros a cw1 r.
  assert (Hload : load (locals cw1) 0
                  = Some (mkLocal (token_at TOKEN_IDENTIFIER "a" 1) (-1)))
    by (vm_compute; reflexivity).
  assert (Hcount : local_count cw1 = 1) by (vm_compute; reflexivity).
  pose proof (cw_resolve_local_uninitialized cw1 a 0
                (mkLocal (token_at TOKEN_IDENTIFIER "a" 1) (-1))) as H.
  cbv zeta in H.
  destruct H as (Hs & _ & (_ & Hrep & _)).
  - vm_compute. discriminate.
  - rewrite Hcount. lia.
  - exact Hload.
  - vm_compute; reflexivity.
  - simpl; lia.
  - intros j l Hj. rewrite Hcount in Hj. lia.
  - destruct (Hrep eq_refl) as (He & Herr).
    split; [exact Hload|]. split; [exact Hs|]. split; [exact He|].
    vm_compute in Herr. vm_compute. exact Herr.
Defined.

(* ------------------------------------------------------------------ *)
(** ** The run loop: its pieces *)

Ltac fields :=
  cbn [chunk ip stack stack_index objects strings previous current locals
       local_count scope_depth error panic stdout stderr
       set_chunk set_ip set_stack set_stack_index set_objects set_strings
       set_previous set_current set_locals set_local_count set_scope_depth
       set_error set_panic set_stdout set_stderr
       cw_reset_stack to_stdout to_stderr after_runtime_error].

Tactic Notation "fields" "in" hyp(H) :=
  cbn [chunk ip stack stack_index objects strings previous current locals
       local_count scope_depth error panic stdout stderr
       set_chunk set_ip set_stack set_stack_index set_objects set_strings
       set_previous set_current set_locals set_local_count set_scope_depth
       set_error set_panic set_stdout set_stderr
       cw_reset_stack to_stdout to_stderr after_runtime_error] in H.

Ltac state_eq :=
  cbv [chunk ip stack stack_index objects strings previous current locals
       local_count scope_depth error panic stdout stderr
       set_chunk set_ip set_stack set_stack_index set_objects set_strings
       set_previous set_current set_locals set_local_count set_scope_depth
       set_error set_panic set_stdout set_stderr
       cw_reset_stack to_stdout to_stderr after_runtime_error].

Lemma bind_Val {A B : Type} (m : M A) (k : A -> M B) cw a cw1 :
  m cw = Val a cw1 -> bind m k cw = k a cw1.
Proof. intros H. unfold bind. rewrite H. reflexivity. Qed.

Lemma bind_Ret {A B : Type} (m : M A) (k : A -> M B) cw r cw1 :
  m cw = Ret r cw1 -> bind m k cw = Ret r cw1.
Proof. intros H. unfold bind. rewrite H. reflexivity. Qed.

Lemma READ_BYTE_at cw b :
  load (bytes (chunk cw)) (ip cw) = Some b ->
  READ_BYTE cw = Val b (set_ip (ip cw + 1) cw).
Proof. intros H. unfold READ_BYTE. rewrite H. reflexivity. Qed.

Lemma cw_runtime_error_at cw format args ln :
  load (lines (chunk cw)) (ip cw - 1) = Some ln ->
  cw_runtime_error format args cw
  = Val tt (after_runtime_error cw format args ln).
Proof.
  intros H. unfold cw_runtime_error. cbv zeta. fields. rewrite H.
  destruct cw. state_eq. rewrite <- !app_assoc. reflexivity.
Qed.

Lemma cw_peek_stack_at cw distance k v :
  stack_index cw - 1 - distance = k ->
  load (stack cw) k = Some v ->
  cw_peek_stack distance cw = Val v cw.
Proof. intros <- H. unfold cw_peek_stack. rewrite H. reflexivity. Qed.

Lemma test_at p cw distance k v :
  stack_index cw - 1 - distance = k ->
  load (stack cw) k = Some v ->
  test p distance cw = Val (p v) cw.
Proof.
  intros Hk H. unfold test.
  rewrite (bind_Val _ _ _ _ _ (cw_peek_stack_at cw distance k v Hk H)).
  reflexivity.
Qed.

Lemma cw_pop_stack_at cw k v :
  stack_index cw - 1 = k ->
  load (stack cw) k = Some v ->
  cw_pop_stack cw = Val v (set_stack_index k cw).
Proof.
  intros <- H. unfold cw_pop_stack. cbv zeta. fields. rewrite H. reflexivity.
Qed.

Lemma cw_push_stack_room cw k v :
  stack_index cw = k ->
  k < CW_STACK_MAX ->
  cw_push_stack v cw
  = Val tt (set_stack_index (k + 1) (set_stack (store (stack cw) k v) cw)).
Proof.
  intros <- Hk. unfold cw_push_stack.
  destruct (Z.geb_spec (stack_index cw) CW_STACK_MAX); [lia | reflexivity].
Qed.

(** A push on a full stack: the error is written and the stack is reset,
    and the run loop goes on. *)
Lemma cw_push_stack_full cw v ln :
  CW_STACK_MAX <= stack_index cw ->
  load (lines (chunk cw)) (ip cw - 1) = Some ln ->
  cw_push_stack v cw
  = Val tt (after_runtime_error cw "Stack overflow" [] ln).
Proof.
  intros Hk Hl. unfold cw_push_stack.
  destruct (Z.geb_spec (stack_index cw) CW_STACK_MAX); [|lia].
  apply cw_runtime_error_at. exact Hl.
Qed.

Lemma and_also_left_false a b cw cw1 :
  a cw = Val false cw1 -> and_also a b cw = Val false cw1.
Proof.
  intros H. unfold and_also. rewrite (bind_Val _ _ _ _ _ H). reflexivity.
Qed.

Lemma and_also_left_true a b cw cw1 :
  a cw = Val true cw1 -> and_also a b cw = b cw1.
Proof.
  intros H. unfold and_also. rewrite (bind_Val _ _ _ _ _ H). reflexivity.
Qed.

(** Reading an instruction and entering the [switch]. *)
Lemma cw_run_instruction_at cw o :
  next_opcode cw o ->
  cw_run_instruction cw
  = cw_run_switch (opcode_byte o) (set_ip (ip cw + 1) cw).
Proof.
  intros H. unfold cw_run_instruction.
  rewrite (bind_Val _ _ _ _ _ (READ_BYTE_at cw _ H)). reflexivity.
Qed.

Lemma and_also_tests p cw a b :
  load (stack cw) (stack_index cw - 1) = Some b ->
  load (stack cw) (stack_index cw - 2) = Some a ->
  and_also (test p 0) (test p 1) cw = Val (p b && p a) cw.
Proof.
  intros Hb Ha.
  assert (T0 : test p 0 cw = Val (p b) cw)
    by (apply (test_at p cw 0 (stack_index cw - 1)); [lia | exact Hb]).
  assert (T1 : test p 1 cw = Val (p a) cw)
    by (apply (test_at p cw 1 (stack_index cw - 2)); [lia | exact Ha]).
  destruct (p b) eqn:E.
  - rewrite (and_also_left_true _ _ _ _ T0). exact T1.
  - rewrite (and_also_left_false _ _ _ _ T0). reflexivity.
Qed.

Lemma cw_run_returns fuel cw r cw1 :
  cw_run_instruction cw = Ret r cw1 ->
  cw_run (S fuel) cw = Returned r cw1.
Proof. intros H. cbn [cw_run]. rewrite H. reflexivity. Qed.

Lemma cw_run_goes_on fuel cw cw1 :
  cw_run_instruction cw = Val tt cw1 ->
  cw_run (S fuel) cw = cw_run fuel cw1.
Proof. intros H. cbn [cw_run]. rewrite H. reflexivity. Qed.

(* ------------------------------------------------------------------ *)
(** ** Interning *)

Lemma cw_table_find_key_sound table str h s :
  cw_table_find_key table str h = Some s ->
  chars s = str /\ hash s = h.
Proof.
  unfold cw_table_find_key.
  destruct (find _ table) as [e|] eqn:F; cbn [option_map]; [|discriminate].
  intros [= <-]. apply find_some in F. destruct F as [_ F].
  apply andb_prop in F. destruct F as [F Hs].
  apply andb_prop in F. destruct F as [_ Hh].
  split; [apply String.eqb_eq; exact Hs | apply Z.eqb_eq; exact Hh].
Qed.

Lemma cw_table_find_key_head table s v :
  cw_table_find_key ((s, v) :: table) (chars s) (hash s) = Some s.
Proof.
  unfold cw_table_find_key. cbn [find fst].
  rewrite Nat.eqb_refl, Z.eqb_refl, String.eqb_refl. reflexivity.
Qed.

(** [intern] returns a string of the given bytes that is the canonical
    one of the table afterwards, and touches the table and the object
    list only. *)
Lemma intern_result cw str :
  let r := intern cw str in
  chars (snd r) = str /\
  interned (fst r) (snd r) /\
  exists table objs, fst r = set_strings table (set_objects objs cw).
Proof.
  unfold intern, interned. cbv zeta.
  destruct (cw_table_find_key (strings cw) str (cw_hash_str str)) as [s|] eqn:F;
    cbn [fst snd].
  - destruct (cw_table_find_key_sound _ _ _ _ F) as [Hc Hh].
    split; [exact Hc|]. split.
    + rewrite Hc, Hh. exact F.
    + exists (strings cw), (objects cw). destruct cw. reflexivity.
  - split; [reflexivity|]. split.
    + cbn [strings set_strings].
      apply (cw_table_find_key_head (strings cw)
               (mkString (fresh_address (objects cw)) str (cw_hash_str str))).
    + eexists _, _. reflexivity.
Qed.

(* ------------------------------------------------------------------ *)
(** ** [OP_ADD] *)

Lemma OP_ADD_numbers cw x y :
  next_opcode cw OP_ADD ->
  2 <= stack_index cw <= CW_STACK_MAX ->
  load (stack cw) (stack_index cw - 1) = Some (VAL_NUMBER y) ->
  load (stack cw) (stack_index cw - 2) = Some (VAL_NUMBER x) ->
  cw_run_instruction cw
  = Val tt
      (set_stack_index (stack_index cw - 1)
         (set_stack
            (store (stack cw) (stack_index cw - 2)
               (MAKE_NUMBER (PrimFloat.add x y)))
            (set_ip (ip cw + 1) cw))).
Proof.
  intros Hf Hsp Hb Ha.
  rewrite (cw_run_instruction_at cw OP_ADD Hf).
  set (cw1 := set_ip (ip cw + 1) cw).
  set (sp := stack_index cw) in *.
  unfold cw_run_switch.
  change (opcode_of_byte (opcode_byte OP_ADD)) with (Some OP_ADD). cbv iota.
  rewrite (bind_Val _ _ _ _ _ (and_also_tests IS_STRING cw1 _ _ Hb Ha)).
  cbn [IS_STRING andb]. cbv iota.
  rewrite (bind_Val _ _ _ _ _ (and_also_tests IS_NUMBER cw1 _ _ Hb Ha)).
  cbn [IS_NUMBER andb]. cbv iota.
  rewrite (bind_Val _ _ _ _ _ (cw_pop_stack_at cw1 (sp - 1) _ eq_refl Hb)).
  rewrite (bind_Val _ _ _ _ _
             (cw_pop_stack_at (set_stack_index (sp - 1) cw1) (sp - 2) _
                ltac:(fields; lia) Ha)).
  rewrite (cw_push_stack_room _ (sp - 2)); [|reflexivity|lia].
  subst cw1 sp. destruct cw. state_eq. cbn [AS_NUMBER].
  apply f_equal. f_equal; lia.
Qed.

Lemma OP_ADD_strings cw s1 s2 :
  next_opcode cw OP_ADD ->
  2 <= stack_index cw <= CW_STACK_MAX ->
  load (stack cw) (stack_index cw - 1) = Some (VAL_OBJECT s2) ->
  load (stack cw) (stack_index cw - 2) = Some (VAL_OBJECT s1) ->
  exists s cw',
    cw_run_instruction cw = Val tt cw' /\
    chars s = (chars s1 ++ chars s2)%string /\
    interned cw' s /\
    ip cw' = ip cw + 1 /\
    stack_index cw' = stack_index cw - 1 /\
    stack cw' = store (stack cw) (stack_index cw - 2) (MAKE_OBJECT s).
Proof.
  intros Hf Hsp Hb Ha.
  rewrite (cw_run_instruction_at cw OP_ADD Hf).
  set (cw1 := set_ip (ip cw + 1) cw).
  set (sp := stack_index cw) in *.
  unfold cw_run_switch.
  change (opcode_of_byte (opcode_byte OP_ADD)) with (Some OP_ADD). cbv iota.
  rewrite (bind_Val _ _ _ _ _ (and_also_tests IS_STRING cw1 _ _ Hb Ha)).
  cbn [IS_STRING andb]. cbv iota.
  rewrite (bind_Val _ _ _ _ _ (cw_pop_stack_at cw1 (sp - 1) _ eq_refl Hb)).
  rewrite (bind_Val _ _ _ _ _
             (cw_pop_stack_at (set_stack_index (sp - 1) cw1) (sp - 2) _
                ltac:(fields; lia) Ha)).
  cbn [AS_STRING].
  set (cw2 := set_stack_index (sp - 2) (set_stack_index (sp - 1) cw1)).
  destruct (intern_result cw2 (chars s1 ++ chars s2)%string)
    as (Hc & Hi & table & objs & Hframe).
  unfold bind at 1, cw_str_concat.
  destruct (intern cw2 (chars s1 ++ chars s2)%string) as [cw3 s].
  cbn [fst snd] in *. subst cw3.
  rewrite (cw_push_stack_room _ (sp - 2)); [| reflexivity | lia].
  eexists s, _. split; [reflexivity|].
  split; [exact Hc|]. split.
  - unfold interned in *. exact Hi.
  - subst cw2 cw1 sp. destruct cw. state_eq.
    split; [reflexivity|]. split; [lia | reflexivity].
Qed.

Lemma OP_ADD_mismatch cw a b ln :
  next_opcode cw OP_ADD ->
  load (stack cw) (stack_index cw - 1) = Some b ->
  load (stack cw) (stack_index cw - 2) = Some a ->
  IS_STRING b && IS_STRING a = false ->
  IS_NUMBER b && IS_NUMBER a = false ->
  load (lines (chunk cw)) (ip cw) = Some ln ->
  cw_run_instruction cw
  = Ret INTERPRET_RUNTIME_ERROR
      (after_runtime_error (set_ip (ip cw + 1) cw)
         "Operands must be two numbers or two strings." [] ln).
Proof.
  intros Hf Hb Ha Hs Hn Hl.
  rewrite (cw_run_instruction_at cw OP_ADD Hf).
  set (cw1 := set_ip (ip cw + 1) cw).
  unfold cw_run_switch.
  change (opcode_of_byte (opcode_byte OP_ADD)) with (Some OP_ADD). cbv iota.
  rewrite (bind_Val _ _ _ _ _ (and_also_tests IS_STRING cw1 _ _ Hb Ha)).
  rewrite Hs. cbv iota.
  rewrite (bind_Val _ _ _ _ _ (and_also_tests IS_NUMBER cw1 _ _ Hb Ha)).
  rewrite Hn. cbv iota.
  rewrite (bind_Val _ _ _ _ _
             (cw_runtime_error_at cw1 _ _ ln
                ltac:(subst cw1; fields;
                      replace (ip cw + 1 - 1) with (ip cw) by lia;
                      exact Hl))).
  reflexivity.
Qed.

(** C3.  [OP_ADD] with two values on the stack, [b] on top of [a].  Two
    Numbers: both are popped and their IEEE-754 sum is pushed.  Two
    Strings: both are popped and a string is pushed that has the bytes of
    [a] followed by those of [b] and is the canonical string of the intern
    table.  Any other pair: the runtime error is reported, the stack is
    reset, and [cw_run] returns [INTERPRET_RUNTIME_ERROR] at once. *)
Theorem OP_ADD_adds_concatenates_or_fails :
  forall (cw : cwRuntime) (a b : Value),
    next_opcode cw OP_ADD ->
    2 <= stack_index cw <= CW_STACK_MAX ->
    load (stack cw) (stack_index cw - 1) = Some b ->
    load (stack cw) (stack_index cw - 2) = Some a ->
    match a, b with
    | VAL_NUMBER x, VAL_NUMBER y =>
        cw_run_instruction cw
        = Val tt
            (set_stack_index (stack_index cw - 1)
               (set_stack
                  (store (stack cw) (stack_index cw - 2)
                     (MAKE_NUMBER (PrimFloat.add x y)))
                  (set_ip (ip cw + 1) cw)))
    | VAL_OBJECT s1, VAL_OBJECT s2 =>
        exists s cw',
          cw_run_instruction cw = Val tt cw' /\
          chars s = (chars s1 ++ chars s2)%string /\
          interned cw' s /\
          ip cw' = ip cw + 1 /\
          stack_index cw' = stack_index cw - 1 /\
          stack cw' = store (stack cw) (stack_index cw - 2) (MAKE_OBJECT s)
    | _, _ =>
        forall ln, load (lines (chunk cw)) (ip cw) = Some ln ->
          let cw' :=
            after_runtime_error (set_ip (ip cw + 1) cw)
              "Operands must be two numbers or two strings." [] ln in
          cw_run_instruction cw = Ret INTERPRET_RUNTIME_ERROR cw' /\
          stack_index cw' = 0 /\
          forall fuel,
            cw_run (S fuel) cw = Returned INTERPRET_RUNTIME_ERROR cw'
    end.
Proof.
  intros cw a b Hf Hsp Hb Ha.
  assert (Hbad : forall ln,
             IS_STRING b && IS_STRING a = false ->
             IS_NUMBER b && IS_NUMBER a = false ->
             load (lines (chunk cw)) (ip cw) = Some ln ->
             let cw' :=
               after_runtime_error (set_ip (ip cw + 1) cw)
                 "Operands must be two numbers or two strings." [] ln in
             cw_run_instruction cw = Ret INTERPRET_RUNTIME_ERROR cw' /\
             stack_index cw' = 0 /\
             forall fuel,
               cw_run (S fuel) cw = Returned INTERPRET_RUNTIME_ERROR cw').
  { intros ln Hs Hn Hl cw'.
    pose proof (OP_ADD_mismatch cw a b ln Hf Hb Ha Hs Hn Hl) as E.
    split; [exact E|]. split; [reflexivity|].
    intros fuel. apply cw_run_returns. exact E. }
  destruct a as [|ba|x|s1], b as [|bb|y|s2];
    try (intros ln Hl; apply Hbad; [reflexivity | reflexivity | exact Hl]).
  - apply OP_ADD_numbers; assumption.
  - apply OP_ADD_strings; assumption.
Qed.

Lemma OP_ADD_adds_concatenates_or_fails_witness :
  let cw :=
    runtime_of [opcode_byte OP_ADD; opcode_byte OP_RETURN] []
      [MAKE_NUMBER 1; MAKE_NUMBER 2] in
  next_opcode cw OP_ADD /\
  exists cw',
    cw_run_instruction cw = Val tt cw' /\
    stack_index cw' = 1 /\
    load (stack cw') 0 = Some (MAKE_NUMBER 3).
Proof.
  intros cw.
  assert (Hf : next_opcode cw OP_ADD) by (vm_compute; reflexivity).
  assert (Hsp : 2 <= stack_index cw <= CW_STACK_MAX)
    by (split; vm_compute; discriminate).
  assert (Hb : load (stack cw) (stack_index cw - 1) = Some (MAKE_NUMBER 2))
    by (vm_compute; reflexivity).
  assert (Ha : load (stack cw) (stack_index cw - 2) = Some (MAKE_NUMBER 1))
    by (vm_compute; reflexivity).
  pose proof (OP_ADD_adds_concatenates_or_fails cw (MAKE_NUMBER 1)
                (MAKE_NUMBER 2) Hf Hsp Hb Ha) as H.
  cbv beta iota delta [MAKE_NUMBER] in H.
  split; [exact Hf|].
  eexists. split; [exact H|].
  split; vm_compute; reflexivity.
Defined.

(* ------------------------------------------------------------------ *)
(** ** Runtime errors *)

(** The type errors that [cw_run] finds return at once: [OP_NEGATE] on a
    value that is not a Number writes the error, resets the stack and
    leaves [cw_run] with [INTERPRET_RUNTIME_ERROR]; [ip] is just past the
    instruction, none of the code after it is read. *)
Lemma OP_NEGATE_not_a_number cw v ln :
  next_opcode cw OP_NEGATE ->
  load (stack cw) (stack_index cw - 1) = Some v ->
  IS_NUMBER v = false ->
  load (lines (chunk cw)) (ip cw) = Some ln ->
  let cw' :=
    after_runtime_error (set_ip (ip cw + 1) cw)
      "Operand must be a number." [] ln in
  cw_run_instruction cw = Ret INTERPRET_RUNTIME_ERROR cw' /\
  stack_index cw' = 0 /\
  ip cw' = ip cw + 1 /\
  forall fuel, cw_run (S fuel) cw = Returned INTERPRET_RUNTIME_ERROR cw'.
Proof.
  intros Hf Hv Hn Hl cw'.
  assert (E : cw_run_instruction cw = Ret INTERPRET_RUNTIME_ERROR cw').
  { rewrite (cw_run_instruction_at cw OP_NEGATE Hf).
    set (cw1 := set_ip (ip cw + 1) cw) in *.
    unfold cw_run_switch.
    change (opcode_of_byte (opcode_byte OP_NEGATE)) with (Some OP_NEGATE).
    cbv iota.
    rewrite (bind_Val _ _ _ _ _
               (test_at IS_NUMBER cw1 0 (stack_index cw - 1) v
                  ltac:(subst cw1; fields; lia) Hv)).
    rewrite Hn. cbn [negb]. cbv iota.
    rewrite (bind_Val _ _ _ _ _
               (cw_runtime_error_at cw1 _ _ ln
                  ltac:(subst cw1; fields;
                        replace (ip cw + 1 - 1) with (ip cw) by lia;
                        exact Hl))).
    reflexivity. }
  split; [exact E|]. split; [reflexivity|]. split.
  - subst cw'. destruct cw. reflexivity.
  - intros fuel. apply cw_run_returns. exact E.
Qed.

Lemma or_else_tests p cw a b :
  load (stack cw) (stack_index cw - 1) = Some b ->
  load (stack cw) (stack_index cw - 2) = Some a ->
  or_else (test p 0) (test p 1) cw = Val (p b || p a) cw.
Proof.
  intros Hb Ha. unfold or_else.
  rewrite (bind_Val _ _ _ _ _
             (test_at p cw 0 (stack_index cw - 1) b ltac:(lia) Hb)).
  destruct (p b); [reflexivity|].
  apply (test_at p cw 1 (stack_index cw - 2)); [lia | exact Ha].
Qed.

(** So do the comparisons and [OP_SUBTRACT], [OP_MULTIPLY], [OP_DIVIDE]
    through [BINARY_OP]. *)
Lemma BINARY_OP_not_numbers {T : Type} (value_type : T -> Value)
    (op : float -> float -> T) cw a b ln :
  load (stack cw) (stack_index cw - 1) = Some b ->
  load (stack cw) (stack_index cw - 2) = Some a ->
  IS_NUMBER b && IS_NUMBER a = false ->
  load (lines (chunk cw)) (ip cw - 1) = Some ln ->
  BINARY_OP value_type op cw
  = Ret INTERPRET_RUNTIME_ERROR
      (after_runtime_error cw "Operands must be numbers." [] ln).
Proof.
  intros Hb Ha Hn Hl. unfold BINARY_OP.
  rewrite (bind_Val _ _ _ _ _
             (or_else_tests (fun v => negb (IS_NUMBER v)) cw a b Hb Ha)).
  rewrite <- negb_andb, Hn. cbn [negb]. cbv iota.
  rewrite (bind_Val _ _ _ _ _ (cw_runtime_error_at cw _ _ ln Hl)).
  reflexivity.
Qed.

(** A literal pushed on a full stack: the overflow is written and the
    stack is reset, and the instruction ends like any other; the loop of
    [cw_run] takes its next turn. *)
Lemma push_literal_on_full_stack cw o ln :
  In o [OP_NULL; OP_TRUE; OP_FALSE] ->
  next_opcode cw o ->
  CW_STACK_MAX <= stack_index cw ->
  load (lines (chunk cw)) (ip cw) = Some ln ->
  let cw' :=
    after_runtime_error (set_ip (ip cw + 1) cw) "Stack overflow" [] ln in
  cw_run_instruction cw = Val tt cw' /\
  stack_index cw' = 0 /\
  forall fuel, cw_run (S fuel) cw = cw_run fuel cw'.
Proof.
  intros Ho Hf Hfull Hl cw'.
  assert (E : cw_run_instruction cw = Val tt cw').
  { rewrite (cw_run_instruction_at cw o Hf).
    assert (Hl1 : load (lines (chunk (set_ip (ip cw + 1) cw)))
                    (ip (set_ip (ip cw + 1) cw) - 1) = Some ln).
    { fields. replace (ip cw + 1 - 1) with (ip cw) by lia. exact Hl. }
    unfold cw_run_switch.
    destruct Ho as [<- | [<- | [<- | []]]];
      match goal with
      | |- context [opcode_of_byte (opcode_byte ?op)] =>
          change (opcode_of_byte (opcode_byte op)) with (Some op)
      end; cbv iota;
      exact (cw_push_stack_full (set_ip (ip cw + 1) cw) _ ln Hfull Hl1). }
  split; [exact E|]. split; [reflexivity|].
  intros fuel. apply cw_run_goes_on. exact E.
Qed.

(** C1, on the code: 257 values are pushed and the program ends.  The
    overflow of the 257th push is written to [stderr] and the stack is
    reset, and [cw_run] goes on to [OP_RETURN]: it returns
    [INTERPRET_OK], and so does [cw_interpret] on a program that compiles
    to this code. *)
Theorem stack_overflow_returns_ok :
  match cw_run 258 (runtime_of (overflow_code ++ [opcode_byte OP_RETURN]) [] [])
  with
  | Returned r cw' =>
      r = INTERPRET_OK /\
      stack_index cw' = 0 /\
      stderr cw'
      = [Printf "Stack overflow" []; Fputs "\n";
         Printf "[line %d] in script\n" [ArgInt 1]]
  | _ => False
  end /\
  match cw_interpret (emitting overflow_code) 258 cw_zero "..." with
  | Returned r _ => r = INTERPRET_OK
  | _ => False
  end.
Proof. vm_compute. repeat split. Qed.

(** C5, on the code: after the stack overflow of the 257th push the run
    loop executes the code that follows: [true] is pushed and printed, and
    [cw_run] returns [INTERPRET_OK]. *)
Theorem stack_overflow_runs_remaining_code :
  match cw_run 261 (runtime_of overflow_print_code [] []) with
  | Returned r cw' =>
      r = INTERPRET_OK /\
      stderr cw'
      = [Printf "Stack overflow" []; Fputs "\n";
         Printf "[line %d] in script\n" [ArgInt 1]] /\
      stdout cw' = [PrintValue (MAKE_BOOL true); Printf "\n" []] /\
      ip cw' = 260
  | _ => False
  end.
Proof. vm_compute. repeat split. Qed.

(** On code that pops what it has pushed, the run loop that goes on after
    the overflow pops from the stack that was reset: it reads below the
    stack. *)
Lemma stack_overflow_then_underflow :
  cw_run 600 (runtime_of nested_equality_code [] []) = UndefinedBehaviour.
Proof. vm_compute. reflexivity. Qed.

(* ------------------------------------------------------------------ *)
(** ** The value printer *)

(** C4, as stated, fails on [debug.c]: its value type has an integer case
    beside the floating-point one, and an integer is printed with [%d],
    not with [%g]. *)
Lemma cw_print_value_int_not_with_g :
  Debug.is_numeric (Debug.Int 1000000) = true /\
  Debug.cw_print_value (Debug.Int 1000000)
  = [Printf "%d" [ArgInt 1000000]] /\
  ~ Debug.rendered_with_g (Debug.Int 1000000).
Proof.
  split; [reflexivity|]. split; [reflexivity|].
  intros [x Hx]. discriminate Hx.
Qed.

(** C4, as the code has it.  The value type of [debug.c] has two numeric
    cases, [VAL_INT] and [VAL_FLOAT]; the printer renders a [VAL_FLOAT]
    with [%g] and a [VAL_INT] with [%d]. *)
Theorem cw_print_value_numeric :
  forall val : Debug.Value,
    Debug.is_numeric val = true ->
    (exists x, val = Debug.Float x /\
               Debug.type_of val = Debug.VAL_FLOAT /\
               Debug.cw_print_value val = [Printf "%g" [ArgDouble x]]) \/
    (exists i, val = Debug.Int i /\
               Debug.type_of val = Debug.VAL_INT /\
               Debug.cw_print_value val = [Printf "%d" [ArgInt i]]).
Proof.
  intros [| b | i | x | o] H; try discriminate H.
  - right. exists i. repeat split.
  - left. exists x. repeat split.
Qed.

Lemma cw_print_value_numeric_witness :
  Debug.is_numeric (Debug.Float 1.5%float) = true /\
  Debug.cw_print_value (Debug.Float 1.5%float)
  = [Printf "%g" [ArgDouble 1.5%float]].
Proof.
  split; [reflexivity|].
  destruct (cw_print_value_numeric (Debug.Float 1.5%float) eq_refl)
    as [(x & Hv & _ & Hp) | (i & Hv & _)].
  - injection Hv as <-. exact Hp.
  - discriminate Hv.
Defined.

(* ================================================================== *)
(** * Further properties *)

(* ------------------------------------------------------------------ *)
(** ** Identifiers and locals *)

(** X1.  Two tokens are equal identifiers exactly when their lexemes are
    the same bytes; the type, the modifier and the line of the tokens do
    not count. *)
Theorem cw_identifiers_equal_iff :
  forall a b : cwToken,
    cw_identifiers_equal a b = true <-> lexeme a = lexeme b.
Proof.
  intros a b. unfold cw_identifiers_equal. cbv zeta.
  destruct (Nat.eqb_spec (String.length (lexeme a)) (String.length (lexeme b)))
    as [Hlen | Hlen].
  - apply String.eqb_eq.
  - split; [discriminate|].
    intros E. rewrite E in Hlen. contradiction.
Qed.

(** X2.  With room in the array of locals, [cw_add_local] puts the name,
    with depth -1, in the slot at [local_count], adds one to the count and
    touches no other slot and no flag.  At 256 locals it raises the
    compile error "Too many variables in scope." and leaves the locals as
    they were.  So the count never exceeds 256. *)
Theorem cw_add_local_bounded :
  forall (cw : cwRuntime) (ident : cwToken),
    0 <= local_count cw <= UINT8_MAX + 1 ->
    local_count cw <= Z.of_nat (List.length (locals cw)) ->
    let cw' := cw_add_local cw ident in
    0 <= local_count cw' <= UINT8_MAX + 1 /\
    local_count cw' <= Z.of_nat (List.length (locals cw')) /\
    (local_count cw <= UINT8_MAX ->
       local_count cw' = local_count cw + 1 /\
       load (locals cw') (local_count cw) = Some (mkLocal ident (-1)) /\
       (forall k, k <> local_count cw ->
                  load (locals cw') k = load (locals cw) k) /\
       error cw' = error cw /\ panic cw' = panic cw /\
       stderr cw' = stderr cw) /\
    (local_count cw = UINT8_MAX + 1 ->
       locals cw' = locals cw /\
       local_count cw' = local_count cw /\
       syntax_error_raised cw cw' (previous cw)
         "Too many variables in scope.").
Proof.
  intros cw ident Hc Hl cw'. subst cw'. unfold cw_add_local.
  destruct (Z.gtb_spec (local_count cw) UINT8_MAX) as [Hfull | Hroom].
  - assert (L : locals (cw_syntax_error_at cw (previous cw)
                          "Too many variables in scope.") = locals cw
                /\ local_count (cw_syntax_error_at cw (previous cw)
                          "Too many variables in scope.") = local_count cw).
    { unfold cw_syntax_error_at. destruct (panic cw); [split; reflexivity|].
      destruct (type (previous cw)); split; reflexivity. }
    destruct L as [L1 L2]. rewrite L1, L2.
    split; [exact Hc|]. split; [exact Hl|]. split; [lia|].
    intros _. split; [reflexivity|]. split; [reflexivity|].
    apply cw_syntax_error_at_raised.
  - cbn [locals local_count set_locals set_local_count error panic stderr].
    pose proof (store_length_le (locals cw) (local_count cw)
                  (mkLocal ident (-1))) as Hlen.
    assert (Hw : load (store (locals cw) (local_count cw) (mkLocal ident (-1)))
                   (local_count cw) = Some (mkLocal ident (-1)))
      by (apply load_store_same; lia).
    split; [lia|]. split.
    + unfold load in Hw. destruct (local_count cw <? 0) eqn:E; [discriminate|].
      assert (Z.to_nat (local_count cw)
              < List.length (store (locals cw) (local_count cw)
                               (mkLocal ident (-1))))%nat
        by (apply nth_error_Some; rewrite Hw; discriminate).
      lia.
    + split; [|unfold UINT8_MAX in *; lia].
      intros _. split; [reflexivity|]. split; [exact Hw|].
      split; [|repeat split].
      intros k Hk. apply load_store_other. congruence.
Qed.

Lemma cw_add_local_bounded_witness :
  let a := token_at TOKEN_IDENTIFIER "a" 1 in
  let cw' := cw_add_local cw_zero a in
  local_count cw' = 1 /\
  load (locals cw') 0 = Some (mkLocal a (-1)) /\
  error cw' = false.
Proof.
  intros a cw'.
  assert (Hc : 0 <= local_count cw_zero <= UINT8_MAX + 1)
    by (split; vm_compute; discriminate).
  assert (Hl : local_count cw_zero
               <= Z.of_nat (List.length (locals cw_zero)))
    by (vm_compute; discriminate).
  destruct (cw_add_local_bounded cw_zero a Hc Hl) as (_ & _ & Hroom & _).
  destruct Hroom as (Hn & Hw & _ & He & _).
  - vm_compute; discriminate.
  - split; [exact Hn|]. split; [exact Hw | exact He].
Defined.

(** What the loop of [cw_resolve_local] comes to. *)
Lemma resolve_local_from_cases n : forall cw ident,
  let r := resolve_local_from n cw ident in
  (snd r = -1 /\ fst r = cw /\
   forall j, (j < n)%nat ->
             cw_identifiers_equal ident (name (local_at cw (Z.of_nat j)))
             = false) \/
  (exists i local,
      (i < n)%nat /\ snd r = Z.of_nat i /\
      local_at cw (Z.of_nat i) = local /\
      cw_identifiers_equal ident (name local) = true /\
      (forall j, (i < j < n)%nat ->
                 cw_identifiers_equal ident (name (local_at cw (Z.of_nat j)))
                 = false) /\
      fst r = if depth local <? 0
              then cw_syntax_error_at cw ident
                     "Can not read local variable in its own initializer."
              else cw).
Proof.
  induction n as [|m IH]; intros cw ident; cbn [resolve_local_from]; cbv zeta.
  - left. cbn [fst snd]. split; [reflexivity|]. split; [reflexivity|].
    intros j Hj. lia.
  - destruct (cw_identifiers_equal ident (name (local_at cw (Z.of_nat m))))
      eqn:Heq.
    + right. exists m, (local_at cw (Z.of_nat m)). cbn [fst snd].
      split; [lia|]. split; [reflexivity|]. split; [reflexivity|].
      split; [exact Heq|]. split; [intros j Hj; lia | reflexivity].
    + destruct (IH cw ident)
        as [(Hs & Hf & Hnone) | (i & local & Hi & Hs & Hl & He & Hnone & Hf)].
      * left. split; [exact Hs|]. split; [exact Hf|].
        intros j Hj.
        destruct (Nat.eq_dec j m) as [-> | Hne]; [exact Heq|].
        apply Hnone. lia.
      * right. exists i, local.
        split; [lia|]. split; [exact Hs|]. split; [exact Hl|].
        split; [exact He|]. split; [|exact Hf].
        intros j Hj.
        destruct (Nat.eq_dec j m) as [-> | Hne]; [exact Heq|].
        apply Hnone. lia.
Qed.

(** X3.  With the locals below [local_count] written, [cw_resolve_local]
    returns -1, and the runtime as it was, when none of them has the
    name.  Otherwise it returns the slot of the innermost local of that
    name, a slot below [local_count], and the runtime as it was unless
    the depth of that local is negative, in which case the error has been
    raised. *)
Theorem cw_resolve_local_result :
  forall (cw : cwRuntime) (ident : cwToken),
    local_count cw <= Z.of_nat (List.length (locals cw)) ->
    let r := cw_resolve_local cw ident in
    (snd r = -1 /\ fst r = cw /\
     forall j l, 0 <= j < local_count cw -> load (locals cw) j = Some l ->
                 cw_identifiers_equal ident (name l) = false) \/
    (0 <= snd r < local_count cw /\
     exists local,
       load (locals cw) (snd r) = Some local /\
       cw_identifiers_equal ident (name local) = true /\
       (forall j l, snd r < j < local_count cw ->
                    load (locals cw) j = Some l ->
                    cw_identifiers_equal ident (name l) = false) /\
       (0 <= depth local -> fst r = cw) /\
       (depth local < 0 ->
          fst r = cw_syntax_error_at cw ident
                    "Can not read local variable in its own initializer.")).
Proof.
  intros cw ident Hlen r. subst r. unfold cw_resolve_local.
  assert (At : forall j l, 0 <= j -> load (locals cw) j = Some l ->
                           local_at cw (Z.of_nat (Z.to_nat j)) = l).
  { intros j l Hj Hload. rewrite Z2Nat.id by lia.
    apply local_at_written. exact Hload. }
  destruct (resolve_local_from_cases (Z.to_nat (local_count cw)) cw ident)
    as [(Hs & Hf & Hnone) | (i & local & Hi & Hs & Hl & He & Hnone & Hf)].
  - left. split; [exact Hs|]. split; [exact Hf|].
    intros j l Hj Hload.
    rewrite <- (At j l ltac:(lia) Hload). apply Hnone. lia.
  - right. rewrite Hs. split; [lia|]. exists local.
    split.
    { destruct (load_written (locals cw) (Z.of_nat i) ltac:(lia)) as [l Hload].
      rewrite <- Hl. rewrite (local_at_written cw _ l Hload). exact Hload. }
    split; [exact He|]. split.
    + intros j l Hj Hload.
      rewrite <- (At j l ltac:(lia) Hload). apply Hnone. lia.
    + rewrite Hf. split; intros Hd.
      * destruct (Z.ltb_spec (depth local) 0); [lia | reflexivity].
      * destruct (Z.ltb_spec (depth local) 0); [reflexivity | lia].
Qed.

Lemma cw_resolve_local_result_witness :
  let a := token_at TOKEN_IDENTIFIER "a" 1 in
  let b := token_at TOKEN_IDENTIFIER "b" 2 in
  let cw := set_local_count 2
              (set_locals [mkLocal a 0; mkLocal b 0] cw_zero) in
  snd (cw_resolve_local cw a) = 0 /\
  fst (cw_resolve_local cw a) = cw /\
  snd (cw_resolve_local cw (token_at TOKEN_IDENTIFIER "c" 3)) = -1.
Proof.
  intros a b cw.
  assert (Hlen : local_count cw <= Z.of_nat (List.length (locals cw)))
    by (vm_compute; discriminate).
  split; [|split].
  - vm_compute. reflexivity.
  - destruct (cw_resolve_local_result cw a Hlen)
      as [(Hs & _) | (_ & local & Hload & _ & _ & Hkeep & _)].
    + vm_compute in Hs. discriminate Hs.
    + apply Hkeep.
      assert (E : snd (cw_resolve_local cw a) = 0) by (vm_compute; reflexivity).
      rewrite E in Hload. vm_compute in Hload.
      injection Hload as <-. vm_compute. discriminate.
  - destruct (cw_resolve_local_result cw (token_at TOKEN_IDENTIFIER "c" 3) Hlen)
      as [(Hs & _) | (Hr & _)].
    + exact Hs.
    + exfalso.
      assert (E : snd (cw_resolve_local cw (token_at TOKEN_IDENTIFIER "c" 3))
                  = -1) by (vm_compute; reflexivity).
      rewrite E in Hr. lia.
Defined.

Lemma resolve_local_from_same_slots n : forall cw1 cw2 ident,
  (forall k, (k < n)%nat ->
             load (locals cw1) (Z.of_nat k) = load (locals cw2) (Z.of_nat k)) ->
  snd (resolve_local_from n cw1 ident) = snd (resolve_local_from n cw2 ident).
Proof.
  induction n as [|m IH]; intros cw1 cw2 ident Hsame;
    cbn [resolve_local_from]; [reflexivity|]. cbv zeta.
  unfold local_at. rewrite (Hsame m) by lia. fold (local_at cw2 (Z.of_nat m)).
  assert (Hrec : snd (resolve_local_from m cw1 ident)
                 = snd (resolve_local_from m cw2 ident))
    by (apply IH; intros k Hk; apply Hsame; lia).
  destruct (cw_identifiers_equal ident (name (local_at cw2 (Z.of_nat m))));
    [reflexivity | exact Hrec].
Qed.

(** X4.  Declaring a local does not change what another name resolves
    to: after [cw_add_local] of [other], an identifier that is not
    [other] resolves to the slot it resolved to before. *)
Theorem cw_add_local_keeps_other_names :
  forall (cw : cwRuntime) (other ident : cwToken),
    0 <= local_count cw <= UINT8_MAX ->
    local_count cw <= Z.of_nat (List.length (locals cw)) ->
    cw_identifiers_equal ident other = false ->
    snd (cw_resolve_local (cw_add_local cw other) ident)
    = snd (cw_resolve_local cw ident).
Proof.
  intros cw other ident Hc Hl Hne.
  unfold cw_resolve_local, cw_add_local.
  destruct (Z.gtb_spec (local_count cw) UINT8_MAX) as [Hfull | _]; [lia|].
  cbn [local_count set_local_count set_locals].
  replace (Z.to_nat (local_count cw + 1)) with (S (Z.to_nat (local_count cw)))
    by lia.
  cbn [resolve_local_from]. cbv zeta. unfold local_at at 1 2.
  cbn [locals set_local_count set_locals].
  rewrite Z2Nat.id by lia.
  rewrite load_store_same by lia. cbn [name]. rewrite Hne.
  apply resolve_local_from_same_slots.
  intros k Hk. cbn [locals set_local_count set_locals].
  apply load_store_other. lia.
Qed.

Lemma cw_add_local_keeps_other_names_witness :
  let a := token_at TOKEN_IDENTIFIER "a" 1 in
  let b := token_at TOKEN_IDENTIFIER "b" 2 in
  let cw1 := set_local_count 1
               (set_locals [mkLocal a 0] cw_zero) in
  snd (cw_resolve_local cw1 a) = 0 /\
  snd (cw_resolve_local (cw_add_local cw1 b) a) = 0.
Proof.
  intros a b cw1.
  assert (H0 : snd (cw_resolve_local cw1 a) = 0) by (vm_compute; reflexivity).
  split; [exact H0|].
  rewrite (cw_add_local_keeps_other_names cw1 b a).
  - exact H0.
  - split; vm_compute; discriminate.
  - vm_compute; discriminate.
  - vm_compute; reflexivity.
Defined.

(* ------------------------------------------------------------------ *)
(** ** The constants pool below its limit *)

Lemma uint8_small z : 0 <= z <= UINT8_MAX -> uint8 z = z.
Proof. intros H. unfold uint8. apply Z.mod_small. unfold UINT8_MAX in H. lia. Qed.

Lemma cw_make_constant_reads_back cw value :
  0 <= const_len (chunk cw) <= UINT8_MAX ->
  const_len (chunk cw) <= Z.of_nat (List.length (constants (chunk cw))) ->
  snd (cw_make_constant cw value) = const_len (chunk cw) /\
  const_len (chunk (fst (cw_make_constant cw value)))
  = const_len (chunk cw) + 1 /\
  load (constants (chunk (fst (cw_make_constant cw value))))
    (snd (cw_make_constant cw value)) = Some value.
Proof.
  intros Hn Hl. unfold cw_make_constant, cw_chunk_add_constant.
  destruct (Z.gtb_spec (const_len (chunk cw)) UINT8_MAX) as [Hbig | _]; [lia|].
  cbn [fst snd chunk set_chunk const_len constants].
  rewrite (uint8_small _ Hn).
  split; [reflexivity|]. split; [reflexivity|].
  apply load_store_same. lia.
Qed.

(** X5.  With fewer than 256 constants in the pool, [cw_make_constant]
    adds the value at the end of the pool and returns its index, which
    reads the value back; no error is raised.  The second listing does
    the same. *)
Theorem cw_make_constant_below_limit :
  forall (cw : cwRuntime) (value : Value),
    0 <= const_len (chunk cw) <= UINT8_MAX ->
    const_len (chunk cw) <= Z.of_nat (List.length (constants (chunk cw))) ->
    let r := cw_make_constant cw value in
    snd r = const_len (chunk cw) /\
    const_len (chunk (fst r)) = const_len (chunk cw) + 1 /\
    chunk_constants (chunk (fst r)) = chunk_constants (chunk cw) ++ [value] /\
    load (constants (chunk (fst r))) (snd r) = Some value /\
    error (fst r) = error cw /\ panic (fst r) = panic cw /\
    stderr (fst r) = stderr cw /\
    Listing2.cw_make_constant cw value = r.
Proof.
  intros cw value Hn Hl r. subst r.
  unfold Listing2.cw_make_constant, cw_make_constant, cw_chunk_add_constant.
  cbv zeta. cbn [const_len].
  destruct (Z.gtb_spec (const_len (chunk cw)) UINT8_MAX) as [Hbig | _]; [lia|].
  cbn [fst snd chunk set_chunk const_len constants error panic stderr].
  rewrite (uint8_small _ Hn).
  split; [reflexivity|]. split; [reflexivity|]. split.
  { unfold chunk_constants. cbn [constants const_len].
    apply contents_store_next. lia. }
  split; [apply load_store_same; lia|].
  split; [reflexivity|]. split; [reflexivity|]. split; [reflexivity|].
  destruct cw. reflexivity.
Qed.

Lemma cw_make_constant_below_limit_witness :
  let r := cw_make_constant cw_zero (MAKE_BOOL true) in
  snd r = 0 /\
  chunk_constants (chunk (fst r)) = [MAKE_BOOL true] /\
  Listing2.cw_make_constant cw_zero (MAKE_BOOL true) = r.
Proof.
  intros r.
  assert (Hn : 0 <= const_len (chunk cw_zero) <= UINT8_MAX)
    by (split; vm_compute; discriminate).
  assert (Hl : const_len (chunk cw_zero)
               <= Z.of_nat (List.length (constants (chunk cw_zero))))
    by (vm_compute; discriminate).
  destruct (cw_make_constant_below_limit cw_zero (MAKE_BOOL true) Hn Hl)
    as (Hi & _ & Hp & _ & _ & _ & _ & H2).
  split; [exact Hi|]. split; [exact Hp | exact H2].
Defined.

(* ------------------------------------------------------------------ *)
(** ** Jumps and loops *)

(** X6.  [cw_patch_jump] writes the two bytes of the operand and nothing
    else of the chunk: every other byte, the lines, the length and the
    constants are as before. *)
Theorem cw_patch_jump_touches_operand_only :
  forall (cw : cwRuntime) (offset : Z),
    let c := chunk cw in
    let c' := chunk (cw_patch_jump cw offset) in
    len c' = len c /\ cap c' = cap c /\ lines c' = lines c /\
    constants c' = constants c /\ const_len c' = const_len c /\
    forall k, k <> offset -> k <> offset + 1 ->
              load (bytes c') k = load (bytes c) k.
Proof.
  intros cw offset c c'. subst c c'. rewrite cw_patch_jump_chunk. cbv zeta.
  cbn [len cap lines constants const_len bytes set_bytes].
  repeat (split; [reflexivity|]).
  intros k H1 H2.
  rewrite load_store_other by congruence.
  apply load_store_other. congruence.
Qed.

Lemma cw_chunk_write_load c byte ln :
  chunk_wf c ->
  load (bytes (cw_chunk_write c byte ln)) (len c) = Some (uint8 byte) /\
  forall k, k <> len c ->
            load (bytes (cw_chunk_write c byte ln)) k = load (bytes c) k.
Proof.
  intros (H0 & Hb & Hl). cbn [cw_chunk_write bytes]. split.
  - apply load_store_same. lia.
  - intros k Hk. apply load_store_other. congruence.
Qed.

(** X7.  [cw_emit_jump] adds three bytes to the code, the instruction and
    two bytes [0xff], all on the line of the previous token, and returns
    the index of the first of the two: until it is patched the operand
    reads 65535. *)
Theorem cw_emit_jump_placeholder :
  forall (cw : cwRuntime) (instruction : Z),
    chunk_wf (chunk cw) ->
    let r := cw_emit_jump cw instruction in
    let ln := line (previous cw) in
    chunk_bytes (chunk (fst r))
    = chunk_bytes (chunk cw) ++ [uint8 instruction; 255; 255] /\
    chunk_lines (chunk (fst r)) = chunk_lines (chunk cw) ++ [ln; ln; ln] /\
    snd r = len (chunk cw) + 1 /\
    load (bytes (chunk (fst r))) (snd r - 1) = Some (uint8 instruction) /\
    be16_at (bytes (chunk (fst r))) (snd r) = Some UINT16_MAX.
Proof.
  intros cw instruction W r ln. subst r.
  unfold cw_emit_jump, cw_emit_byte. cbv zeta.
  cbn [fst snd chunk set_chunk previous].
  fold ln.
  set (c1 := cw_chunk_write (chunk cw) instruction ln).
  set (c2 := cw_chunk_write c1 255 ln).
  assert (W1 : chunk_wf c1) by (apply cw_chunk_write_wf; exact W).
  assert (W2 : chunk_wf c2) by (apply cw_chunk_write_wf; exact W1).
  assert (L1 : len c1 = len (chunk cw) + 1) by reflexivity.
  assert (L2 : len c2 = len (chunk cw) + 2) by (subst c2; cbn [cw_chunk_write len]; lia).
  split.
  { rewrite (cw_chunk_write_bytes c2 255 ln W2). unfold c2.
    rewrite (cw_chunk_write_bytes c1 255 ln W1). unfold c1.
    rewrite (cw_chunk_write_bytes (chunk cw) instruction ln W).
    rewrite <- !app_assoc. reflexivity. }
  split.
  { rewrite (cw_chunk_write_lines c2 255 ln W2). unfold c2.
    rewrite (cw_chunk_write_lines c1 255 ln W1). unfold c1.
    rewrite (cw_chunk_write_lines (chunk cw) instruction ln W).
    rewrite <- !app_assoc. reflexivity. }
  split; [cbn [cw_chunk_write len]; subst c2 c1; cbn [cw_chunk_write len]; lia|].
  destruct (cw_chunk_write_load (chunk cw) instruction ln W) as [A1 _].
  destruct (cw_chunk_write_load c1 255 ln W1) as [B1 B2].
  destruct (cw_chunk_write_load c2 255 ln W2) as [C1 C2].
  fold c1 in A1, B1, B2. fold c2 in B1, B2, C1, C2.
  replace (len (cw_chunk_write c2 255 ln) - 2) with (len (chunk cw) + 1)
    by (cbn [cw_chunk_write len]; lia).
  split.
  { replace (len (chunk cw) + 1 - 1) with (len (chunk cw)) by lia.
    rewrite C2 by lia. rewrite B2 by lia. exact A1. }
  unfold be16_at.
  rewrite (C2 (len (chunk cw) + 1)) by lia.
  replace (len (chunk cw) + 1) with (len c1) at 1 by lia. rewrite B1.
  replace (len (chunk cw) + 1 + 1) with (len c2) by lia. rewrite C1.
  reflexivity.
Qed.

Lemma cw_emit_jump_placeholder_witness :
  let r := cw_emit_jump cw_zero (opcode_byte OP_JUMP) in
  chunk_bytes (chunk (fst r)) = [23; 255; 255] /\
  snd r = 1 /\
  be16_at (bytes (chunk (fst r))) (snd r) = Some 65535.
Proof.
  intros r.
  assert (W : chunk_wf (chunk cw_zero)) by (unfold chunk_wf; simpl; lia).
  destruct (cw_emit_jump_placeholder cw_zero (opcode_byte OP_JUMP) W)
    as (Hb & _ & Ho & _ & He).
  split; [vm_compute in Hb; vm_compute; exact Hb|].
  split; [vm_compute in Ho; vm_compute; exact Ho | exact He].
Defined.

Lemma cw_emit_loop_chunk cw start :
  let ln := line (previous cw) in
  let offset := len (chunk cw) + 1 - start + 2 in
  chunk (Listing2.cw_emit_loop cw start)
  = cw_chunk_write
      (cw_chunk_write
         (cw_chunk_write (chunk cw) (opcode_byte OP_LOOP) ln)
         (Z.land (Z.shiftr offset 8) 255) ln)
      (Z.land offset 255) ln.
Proof.
  intros ln offset. unfold Listing2.cw_emit_loop. cbv zeta.
  change Listing2.cw_emit_byte with cw_chunk_write.
  set (cw1 := set_chunk (cw_chunk_write (chunk cw) (opcode_byte OP_LOOP)
                           (line (previous cw))) cw).
  assert (L1 : len (chunk cw1) - start + 2 = offset) by reflexivity.
  rewrite L1.
  set (cw2 := if offset >? UINT16_MAX then _ else cw1).
  assert (E : chunk cw2 = chunk cw1 /\ previous cw2 = previous cw).
  { subst cw2. destruct (offset >? UINT16_MAX).
    - rewrite cw_syntax_error_at_chunk, cw_syntax_error_at_previous.
      split; reflexivity.
    - split; reflexivity. }
  destruct E as [E1 E2].
  cbn [chunk set_chunk previous]. rewrite E1, E2. reflexivity.
Qed.

(** X8.  [cw_emit_loop] of the second listing adds [OP_LOOP] and a
    two-byte operand that holds, big-endian, the distance from the end of
    the instruction back to [start], so that subtracting the operand from
    the position after it gives [start], as long as the distance is at
    most [UINT16_MAX].  Beyond it the compile error "Loop body too large."
    is raised and the low 16 bits are emitted all the same. *)
Theorem cw_emit_loop_operand :
  forall (cw : cwRuntime) (start : Z),
    chunk_wf (chunk cw) ->
    start <= len (chunk cw) ->
    let cw' := Listing2.cw_emit_loop cw start in
    let offset := len (chunk cw') - start in
    len (chunk cw') = len (chunk cw) + 3 /\
    chunk_bytes (chunk cw')
    = chunk_bytes (chunk cw)
      ++ [opcode_byte OP_LOOP; (offset / 256) mod 256; offset mod 256] /\
    be16_at (bytes (chunk cw')) (len (chunk cw) + 1)
    = Some (offset mod 65536) /\
    (offset <= UINT16_MAX ->
       be16_at (bytes (chunk cw')) (len (chunk cw) + 1) = Some offset /\
       error cw' = error cw /\ panic cw' = panic cw /\
       stderr cw' = stderr cw) /\
    (offset > UINT16_MAX ->
       syntax_error_raised cw cw' (previous cw) "Loop body too large.").
Proof.
  intros cw start W Hs cw' offset.
  pose proof (cw_emit_loop_chunk cw start) as Hc. cbv zeta in Hc.
  fold cw' in Hc.
  set (ln := line (previous cw)) in *.
  set (off := len (chunk cw) + 1 - start + 2) in *.
  set (c1 := cw_chunk_write (chunk cw) (opcode_byte OP_LOOP) ln) in *.
  set (c2 := cw_chunk_write c1 (Z.land (Z.shiftr off 8) 255) ln) in *.
  assert (W1 : chunk_wf c1) by (apply cw_chunk_write_wf; exact W).
  assert (W2 : chunk_wf c2) by (apply cw_chunk_write_wf; exact W1).
  assert (L1 : len c1 = len (chunk cw) + 1) by reflexivity.
  assert (L2 : len c2 = len (chunk cw) + 2)
    by (subst c2; cbn [cw_chunk_write len]; lia).
  assert (L3 : len (chunk cw') = len (chunk cw) + 3)
    by (rewrite Hc; cbn [cw_chunk_write len]; lia).
  assert (Eoff : offset = off) by (subst offset off; lia).
  assert (Hpos : 0 <= off) by (subst off; lia).
  assert (Hhi : uint8 (Z.land (Z.shiftr off 8) 255) = (off / 256) mod 256).
  { rewrite land_255, shiftr_8. unfold uint8. apply Z.mod_mod. lia. }
  assert (Hlo : uint8 (Z.land off 255) = off mod 256).
  { rewrite land_255. unfold uint8. apply Z.mod_mod. lia. }
  assert (Hbe : be16_at (bytes (chunk cw')) (len (chunk cw) + 1)
                = Some (off mod 65536)).
  { rewrite Hc.
    destruct (cw_chunk_write_load c1 (Z.land (Z.shiftr off 8) 255) ln W1)
      as [B1 _].
    destruct (cw_chunk_write_load c2 (Z.land off 255) ln W2) as [C1 C2].
    fold c2 in B1, C1, C2.
    unfold be16_at.
    rewrite (C2 (len (chunk cw) + 1)) by lia.
    replace (len (chunk cw) + 1) with (len c1) at 1 by lia. rewrite B1.
    replace (len (chunk cw) + 1 + 1) with (len c2) by lia. rewrite C1.
    rewrite Hhi, Hlo. f_equal. apply high_low_bytes. }
  split; [exact L3|]. split.
  { rewrite Hc. rewrite (cw_chunk_write_bytes c2 _ ln W2). unfold c2.
    rewrite (cw_chunk_write_bytes c1 _ ln W1). unfold c1.
    rewrite (cw_chunk_write_bytes (chunk cw) _ ln W).
    rewrite Hhi, Hlo, Eoff. rewrite <- !app_assoc. reflexivity. }
  rewrite Eoff. split; [exact Hbe|]. split.
  - intros Hsmall. split.
    + rewrite Hbe. f_equal. apply Z.mod_small.
      unfold UINT16_MAX in Hsmall. lia.
    + subst cw'. unfold Listing2.cw_emit_loop. cbv zeta.
      cbn [chunk set_chunk len cw_chunk_write Listing2.cw_emit_byte].
      change (len (chunk cw) + 1 - start + 2) with off.
      destruct (Z.gtb_spec off UINT16_MAX); [lia|].
      repeat split.
  - intros Hbig. subst cw'. unfold Listing2.cw_emit_loop. cbv zeta.
    cbn [chunk set_chunk len cw_chunk_write Listing2.cw_emit_byte].
    change (len (chunk cw) + 1 - start + 2) with off.
    destruct (Z.gtb_spec off UINT16_MAX); [|lia].
    unfold syntax_error_raised.
    cbn [panic error stderr set_chunk].
    exact (syntax_error_raised_after_set_chunk cw _ (previous cw)
             "Loop body too large.").
Qed.

Lemma cw_emit_loop_operand_witness :
  let cw := set_chunk (chunk_of [2; 4; 2; 4] []) cw_zero in
  let cw' := Listing2.cw_emit_loop cw 1 in
  chunk_bytes (chunk cw') = [2; 4; 2; 4; 26; 0; 6] /\
  be16_at (bytes (chunk cw')) 5 = Some 6 /\
  len (chunk cw') - 6 = 1.
Proof.
  intros cw cw'.
  assert (W : chunk_wf (chunk cw)) by (unfold chunk_wf; simpl; lia).
  assert (Hs : 1 <= len (chunk cw)) by (vm_compute; discriminate).
  destruct (cw_emit_loop_operand cw 1 W Hs) as (_ & Hb & _ & Hsmall & _).
  destruct Hsmall as (He & _); [vm_compute; discriminate|].
  split; [vm_compute in Hb; vm_compute; exact Hb|].
  split; [vm_compute in He; vm_compute; exact He | vm_compute; reflexivity].
Defined.

(* ------------------------------------------------------------------ *)
(** ** Errors of a compilation *)

Lemma cw_syntax_error_at_error_step cw token msg :
  error_step cw (cw_syntax_error_at cw token msg).
Proof.
  destruct (panic cw) eqn:Hp.
  - left. rewrite (cw_syntax_error_at_in_panic cw token msg Hp).
    split; reflexivity.
  - right. exists token, msg.
    destruct (cw_syntax_error_at_reported cw token msg Hp) as (He & _ & Hs).
    split; [exact Hp|]. split; assumption.
Qed.

(** A step that is taken from a state with the same flags and [stderr],
    and one that ends in such a state. *)
Lemma error_step_from cw0 cw cw' :
  error cw0 = error cw -> panic cw0 = panic cw -> stderr cw0 = stderr cw ->
  error_step cw cw' -> error_step cw0 cw'.
Proof.
  intros He Hp Hs [[E S] | (t & m & P & E & S)].
  - left. split; congruence.
  - right. exists t, m. split; [congruence|]. split; congruence.
Qed.

Lemma error_step_to cw cw1 cw' :
  error cw' = error cw1 -> stderr cw' = stderr cw1 ->
  error_step cw cw1 -> error_step cw cw'.
Proof.
  intros He Hs [[E S] | (t & m & P & E & S)].
  - left. split; congruence.
  - right. exists t, m. split; [exact P|]. split; congruence.
Qed.

Lemma error_step_none cw cw' :
  error cw' = error cw -> stderr cw' = stderr cw -> error_step cw cw'.
Proof. intros He Hs. left. split; assumption. Qed.

Lemma cw_patch_jump_error_step cw offset :
  error_step cw (cw_patch_jump cw offset).
Proof.
  unfold cw_patch_jump. cbv zeta.
  destruct (_ >? UINT16_MAX).
  - eapply error_step_to;
      [| | apply (cw_syntax_error_at_error_step cw (previous cw)
                    "Too much code to jump over.")]; reflexivity.
  - apply error_step_none; reflexivity.
Qed.

Lemma cw_make_constant_error_step cw value :
  error_step cw (fst (cw_make_constant cw value)).
Proof.
  unfold cw_make_constant, cw_chunk_add_constant.
  destruct (_ >? UINT8_MAX); cbn [fst].
  - eapply error_step_from;
      [| | | apply cw_syntax_error_at_error_step]; reflexivity.
  - apply error_step_none; reflexivity.
Qed.

Lemma intern_flags cw str :
  error (fst (intern cw str)) = error cw /\
  panic (fst (intern cw str)) = panic cw /\
  stderr (fst (intern cw str)) = stderr cw /\
  same_run_state cw (fst (intern cw str)).
Proof.
  unfold intern, same_run_state. cbv zeta.
  destruct (cw_table_find_key _ _ _); cbn [fst]; repeat split.
Qed.

Lemma cw_resolve_local_error_step cw ident :
  error_step cw (fst (cw_resolve_local cw ident)).
Proof.
  unfold cw_resolve_local.
  destruct (resolve_local_from_cases (Z.to_nat (local_count cw)) cw ident)
    as [(_ & Hf & _) | (i & local & _ & _ & _ & _ & _ & Hf)]; rewrite Hf.
  - apply error_step_none; reflexivity.
  - destruct (depth local <? 0).
    + apply cw_syntax_error_at_error_step.
    + apply error_step_none; reflexivity.
Qed.

Lemma run_action_error_step cw a : error_step cw (run_action cw a).
Proof.
  destruct a; cbn [run_action].
  - apply error_step_none; reflexivity.
  - apply error_step_none; reflexivity.
  - apply error_step_none; reflexivity.
  - apply cw_patch_jump_error_step.
  - apply cw_make_constant_error_step.
  - unfold cw_identifier_constant, cw_str_copy.
    destruct (intern_flags cw (lexeme ident)) as (He & Hp & Hs & _).
    destruct (intern cw (lexeme ident)) as [cw1 s]. cbn [fst] in *.
    eapply error_step_from; [| | | apply cw_make_constant_error_step];
      congruence.
  - unfold cw_add_local. destruct (_ >? UINT8_MAX).
    + apply cw_syntax_error_at_error_step.
    + apply error_step_none; reflexivity.
  - apply cw_resolve_local_error_step.
  - apply cw_syntax_error_at_error_step.
  - apply cw_syntax_error_at_error_step.
  - apply error_step_none; reflexivity.
  - apply error_step_none; reflexivity.
  - apply error_step_none; reflexivity.
Qed.

Lemma error_log_step s0 cw cw' :
  error_log s0 cw -> error_step cw cw' -> error_log s0 cw'.
Proof.
  intros [[E S] | (E & t & m & rest & S)] [[E' S'] | (t' & m' & P & E' & S')].
  - left. split; congruence.
  - right. split; [exact E'|]. exists t', m', []. rewrite S', S.
    rewrite app_nil_r. reflexivity.
  - right. split; [congruence|]. exists t, m, rest. congruence.
  - right. split; [exact E'|].
    exists t, m, (rest ++ error_report t' m'). rewrite S', S.
    rewrite <- !app_assoc. reflexivity.
Qed.

Lemma run_actions_error_log s0 l : forall cw,
  error_log s0 cw -> error_log s0 (run_actions cw l).
Proof.
  induction l as [|a l IH]; intros cw H; cbn [run_actions fold_left].
  - exact H.
  - apply IH. eapply error_log_step; [exact H | apply run_action_error_step].
Qed.

(** X9.  A compilation that succeeds has written nothing to [stderr]; one
    that fails has written the report of its first error, and maybe
    more.  A flag or a report left from an earlier compilation does not
    count. *)
Theorem cw_compile_fails_iff_reported :
  forall (parser : string -> list Action) (cw : cwRuntime) (src : string)
         (chunk0 : cwChunk),
    let r := cw_compile parser cw src chunk0 in
    (snd r = true -> error (fst r) = false /\ stderr (fst r) = stderr cw) /\
    (snd r = false ->
       error (fst r) = true /\
       exists token msg rest,
         stderr (fst r) = stderr cw ++ error_report token msg ++ rest).
Proof.
  intros parser cw src chunk0 r. subst r. unfold cw_compile. cbv zeta.
  cbn [fst snd].
  match goal with
  | |- context [run_actions ?s ?l] =>
      assert (L : error_log (stderr cw) (run_actions s l));
      [apply run_actions_error_log; left; split; reflexivity|];
      set (cw2 := run_actions s l) in *
  end.
  assert (Ee : error (cw_compiler_end cw2) = error cw2) by reflexivity.
  assert (Es : stderr (cw_compiler_end cw2) = stderr cw2) by reflexivity.
  rewrite Ee, Es.
  destruct L as [[E S] | (E & Hrep)]; rewrite E; cbn [negb].
  - split; [intros _; split; [reflexivity | exact S] | discriminate].
  - split; [discriminate | intros _; split; [reflexivity | exact Hrep]].
Qed.

(* ------------------------------------------------------------------ *)
(** ** The run loop: what every instruction keeps *)

Lemma triple_ret {A : Type} (P : cwRuntime -> Prop) (a : A) Q R :
  (forall cw, P cw -> Q a cw) -> triple P (ret a) Q R.
Proof. intros H cw HP. apply H. exact HP. Qed.

Lemma triple_return {A : Type} (P : cwRuntime -> Prop) r
    (Q : A -> cwRuntime -> Prop) R :
  (forall cw, P cw -> R r cw) -> triple P (return_ r) Q R.
Proof. intros H cw HP. apply H. exact HP. Qed.

Lemma triple_bind {A B : Type} P (m : M A) (k : A -> M B) Q Q' R :
  triple P m Q R ->
  (forall a, triple (Q a) (k a) Q' R) ->
  triple P (bind m k) Q' R.
Proof.
  intros Hm Hk cw HP. unfold bind. specialize (Hm cw HP).
  destruct (m cw) as [a cw1 | r cw1 |]; [|exact Hm|exact Logic.I].
  apply (Hk a cw1 Hm).
Qed.

Lemma triple_weaken {A : Type} (P P' : cwRuntime -> Prop) (m : M A)
    (Q Q' : A -> cwRuntime -> Prop) R :
  (forall cw, P' cw -> P cw) ->
  (forall a cw, Q a cw -> Q' a cw) ->
  triple P m Q R -> triple P' m Q' R.
Proof.
  intros HP HQ H cw HP'. specialize (H cw (HP cw HP')).
  destruct (m cw); [apply HQ; exact H | exact H | exact Logic.I].
Qed.

Lemma opcode_of_byte_sound b o :
  opcode_of_byte b = Some o -> b = opcode_byte o.
Proof.
  unfold opcode_of_byte. intros H. apply find_some in H.
  destruct H as [_ H]. apply Z.eqb_eq in H. congruence.
Qed.

Section RunLoop.

Variable Inv : cwRuntime -> Prop.
Variable Res : InterpretResult -> cwRuntime -> Prop.

Hypothesis Inv_ip : forall x cw, Inv cw -> Inv (set_ip x cw).
Hypothesis Inv_stack : forall x cw, Inv cw -> Inv (set_stack x cw).
Hypothesis Inv_stdout : forall x cw, Inv cw -> Inv (set_stdout x cw).
Hypothesis Inv_stderr : forall x cw, Inv cw -> Inv (set_stderr x cw).
Hypothesis Inv_strings : forall x cw, Inv cw -> Inv (set_strings x cw).
Hypothesis Inv_objects : forall x cw, Inv cw -> Inv (set_objects x cw).
Hypothesis Inv_push :
  forall cw, Inv cw -> stack_index cw < CW_STACK_MAX ->
             Inv (set_stack_index (stack_index cw + 1) cw).
Hypothesis Inv_pop :
  forall cw, Inv cw -> 0 <= stack_index cw - 1 ->
             Inv (set_stack_index (stack_index cw - 1) cw).
Hypothesis Inv_reset : forall cw, Inv cw -> Inv (set_stack_index 0 cw).
Hypothesis Res_error :
  forall cw, Inv cw -> stack_index cw = 0 -> Res INTERPRET_RUNTIME_ERROR cw.
Hypothesis Res_ok :
  forall cw,
    Inv cw ->
    load (bytes (chunk cw)) (ip cw - 1) = Some (opcode_byte OP_RETURN) ->
    Res INTERPRET_OK cw.

(** The piece keeps [Inv] when it goes on, and leaves with [Res]. *)
Local Abbreviation kept m := (triple Inv m (fun _ => Inv) Res).

Lemma kept_ret {A : Type} (a : A) : kept (ret a).
Proof. apply triple_ret. auto. Qed.

Lemma kept_bind {A B : Type} (m : M A) (k : A -> M B) :
  kept m -> (forall a, kept (k a)) -> kept (bind m k).
Proof. intros Hm Hk. exact (triple_bind _ _ _ _ _ _ Hm Hk). Qed.

Lemma kept_READ_BYTE : kept READ_BYTE.
Proof.
  intros cw H. unfold READ_BYTE.
  destruct (load (bytes (chunk cw)) (ip cw)); [|exact Logic.I].
  apply Inv_ip. exact H.
Qed.

Lemma kept_READ_CONSTANT : kept READ_CONSTANT.
Proof.
  unfold READ_CONSTANT. apply kept_bind; [exact kept_READ_BYTE|].
  intros b cw H. destruct (load (constants (chunk cw)) b);
    [exact H | exact Logic.I].
Qed.

Lemma kept_peek distance : kept (cw_peek_stack distance).
Proof.
  intros cw H. unfold cw_peek_stack.
  destruct (load (stack cw) _); [exact H | exact Logic.I].
Qed.

Lemma kept_test p distance : kept (test p distance).
Proof.
  unfold test. apply kept_bind; [apply kept_peek|].
  intros v. apply kept_ret.
Qed.

Lemma kept_and_also a b : kept a -> kept b -> kept (and_also a b).
Proof.
  intros Ha Hb. unfold and_also. apply kept_bind; [exact Ha|].
  intros [|]; [exact Hb | apply kept_ret].
Qed.

Lemma kept_or_else a b : kept a -> kept b -> kept (or_else a b).
Proof.
  intros Ha Hb. unfold or_else. apply kept_bind; [exact Ha|].
  intros [|]; [apply kept_ret | exact Hb].
Qed.

Lemma kept_pop : kept cw_pop_stack.
Proof.
  intros cw H. unfold cw_pop_stack. cbv zeta.
  cbn [stack stack_index set_stack_index].
  destruct (load (stack cw) (stack_index cw - 1)) eqn:E; [|exact Logic.I].
  apply Inv_pop; [exact H|].
  unfold load in E. destruct (Z.ltb_spec (stack_index cw - 1) 0);
    [discriminate | lia].
Qed.

(** [cw_runtime_error] keeps [Inv] and leaves the stack reset. *)
Lemma runtime_error_resets format args :
  triple Inv (cw_runtime_error format args)
    (fun _ cw => Inv cw /\ stack_index cw = 0) Res.
Proof.
  intros cw H. unfold cw_runtime_error. cbv zeta.
  destruct (load _ _); [|exact Logic.I].
  split; [|reflexivity].
  unfold cw_reset_stack, to_stderr.
  apply Inv_reset. do 3 apply Inv_stderr. exact H.
Qed.

Lemma kept_runtime_error format args : kept (cw_runtime_error format args).
Proof.
  eapply triple_weaken; [| |apply runtime_error_resets].
  - auto.
  - intros _ cw [H _]. exact H.
Qed.

(** The runtime errors of [cw_run]: the error, then [return]. *)
Lemma kept_raise format args :
  kept (bind (cw_runtime_error format args)
          (fun _ => @return_ unit INTERPRET_RUNTIME_ERROR)).
Proof.
  eapply triple_bind; [apply runtime_error_resets|].
  intros u. apply triple_return. intros cw [H H0].
  apply Res_error; assumption.
Qed.

Lemma kept_push v : kept (cw_push_stack v).
Proof.
  intros cw H. unfold cw_push_stack.
  destruct (Z.geb_spec (stack_index cw) CW_STACK_MAX) as [Hfull | Hroom].
  - exact (kept_runtime_error "Stack overflow" [] cw H).
  - apply (Inv_push (set_stack (store (stack cw) (stack_index cw) v) cw)).
    + apply Inv_stack. exact H.
    + exact Hroom.
Qed.

Lemma kept_print c : kept (modify (to_stdout c)).
Proof.
  intros cw H. unfold modify, to_stdout. apply Inv_stdout. exact H.
Qed.

Lemma kept_str_concat a b : kept (cw_str_concat a b).
Proof.
  intros cw H. unfold cw_str_concat, intern. cbv zeta.
  destruct (cw_table_find_key _ _ _); [exact H|].
  apply Inv_strings. apply Inv_objects. exact H.
Qed.

Lemma kept_BINARY_OP {T : Type} (value_type : T -> Value)
    (op : float -> float -> T) :
  kept (BINARY_OP value_type op).
Proof.
  unfold BINARY_OP. apply kept_bind.
  - apply kept_or_else; apply kept_test.
  - intros [|].
    + apply kept_raise.
    + apply kept_bind; [apply kept_pop|]. intros b.
      apply kept_bind; [apply kept_pop|]. intros a.
      apply kept_push.
Qed.

Ltac kept_steps :=
  repeat first
    [ apply kept_push | apply kept_pop | apply kept_ret | apply kept_raise
    | apply kept_BINARY_OP | apply kept_READ_CONSTANT | apply kept_print
    | apply kept_str_concat | apply kept_test
    | apply kept_and_also
    | match goal with
      | |- triple _ (if ?c then _ else _) _ _ => destruct c
      | |- forall _, _ => intro
      end
    | apply kept_bind ].

(** The [switch], entered with the instruction that was just read. *)
Lemma switch_kept instruction :
  triple
    (fun cw => Inv cw /\ load (bytes (chunk cw)) (ip cw - 1) = Some instruction)
    (cw_run_switch instruction) (fun _ => Inv) Res.
Proof.
  unfold cw_run_switch.
  destruct (opcode_of_byte instruction) as [o|] eqn:Ho.
  - destruct o;
      try (eapply triple_weaken;
           [intros cw [H _]; exact H | intros a cw H; exact H |];
           kept_steps; fail).
    apply triple_return. intros cw [H Hl].
    apply Res_ok; [exact H|].
    rewrite Hl. f_equal. apply opcode_of_byte_sound. exact Ho.
  - apply triple_ret. intros cw [H _]. exact H.
Qed.

Lemma instruction_kept : kept cw_run_instruction.
Proof.
  intros cw H. unfold cw_run_instruction, bind, READ_BYTE.
  destruct (load (bytes (chunk cw)) (ip cw)) as [b|] eqn:E; [|exact Logic.I].
  apply (switch_kept b (set_ip (ip cw + 1) cw)). split.
  - apply Inv_ip. exact H.
  - cbn [chunk ip set_ip].
    replace (ip cw + 1 - 1) with (ip cw) by lia. exact E.
Qed.

Lemma cw_run_kept fuel : forall cw,
  Inv cw ->
  match cw_run fuel cw with
  | Returned r cw' => Res r cw'
  | OutOfFuel cw' => Inv cw'
  | UndefinedBehaviour => True
  end.
Proof.
  induction fuel as [|fuel IH]; intros cw H; cbn [cw_run]; [exact H|].
  pose proof (instruction_kept cw H) as S.
  destruct (cw_run_instruction cw) as [[] cw1 | r cw1 |].
  - apply IH. exact S.
  - exact S.
  - exact Logic.I.
Qed.

End RunLoop.

(** X10.  [cw_run] never moves the stack index past the end of the
    stack: started with [stack_index <= CW_STACK_MAX], it returns, or is
    stopped, with [stack_index <= CW_STACK_MAX], whatever the code.  It is
    the test of [cw_push_stack] that keeps it so.  Nothing of the kind
    holds at the other end: [cw_pop_stack] decrements without a test. *)
Theorem cw_run_stack_index_at_most_max :
  forall (fuel : nat) (cw : cwRuntime),
    stack_index cw <= CW_STACK_MAX ->
    match cw_run fuel cw with
    | Returned _ cw' => stack_index cw' <= CW_STACK_MAX
    | OutOfFuel cw' => stack_index cw' <= CW_STACK_MAX
    | UndefinedBehaviour => True
    end.
Proof.
  intros fuel cw H.
  apply (cw_run_kept (fun cw => stack_index cw <= CW_STACK_MAX)
           (fun _ cw => stack_index cw <= CW_STACK_MAX));
    unfold CW_STACK_MAX in *;
    cbn [stack_index set_ip set_stack set_stdout set_stderr set_strings
         set_objects set_stack_index];
    intros; lia.
Qed.

Lemma cw_run_stack_index_at_most_max_witness :
  let cw := runtime_of (overflow_code ++ [opcode_byte OP_RETURN]) [] [] in
  stack_index cw <= CW_STACK_MAX /\
  match cw_run 258 cw with
  | Returned r cw' =>
      r = INTERPRET_OK /\ stack_index cw' = 0 /\
      stack_index cw' <= CW_STACK_MAX
  | _ => False
  end.
Proof.
  intros cw.
  assert (H : stack_index cw <= CW_STACK_MAX) by (vm_compute; discriminate).
  split; [exact H|].
  pose proof (cw_run_stack_index_at_most_max 258 cw H) as T.
  destruct (cw_run 258 cw) as [r cw' | | cw'] eqn:E;
    vm_compute in E; try discriminate E.
  injection E as <- <-.
  split; [reflexivity|]. split; [reflexivity | exact T].
Defined.

(** X11.  [cw_run] executes the chunk and never writes it: the chunk and
    the fields of the runtime that belong to the compiler (tokens,
    locals, scope depth, error and panic flags) are the same when it
    returns. *)
Theorem cw_run_keeps_chunk_and_compiler_state :
  forall (fuel : nat) (cw : cwRuntime),
    match cw_run fuel cw with
    | Returned _ cw' => same_compiler_state cw cw'
    | OutOfFuel cw' => same_compiler_state cw cw'
    | UndefinedBehaviour => True
    end.
Proof.
  intros fuel cw.
  apply (cw_run_kept (same_compiler_state cw)
           (fun _ => same_compiler_state cw));
    try (intros; assumption).
  unfold same_compiler_state. repeat split.
Qed.

Lemma cw_run_results fuel cw :
  match cw_run fuel cw with
  | Returned r cw' => result_origin r cw'
  | _ => True
  end.
Proof.
  pose proof (cw_run_kept (fun _ => True) result_origin) as H.
  specialize (H ltac:(auto) ltac:(auto) ltac:(auto) ltac:(auto) ltac:(auto)
                ltac:(auto) ltac:(auto) ltac:(auto) ltac:(auto)).
  specialize (H ltac:(intros c _ H0; exact H0)
                ltac:(intros c _ H0; exact H0) fuel cw Logic.I).
  destruct (cw_run fuel cw); [exact H | exact Logic.I | exact Logic.I].
Qed.

(** X12.  The results of [cw_run]: it returns [INTERPRET_OK] only from an
    [OP_RETURN], the instruction just before [ip]; it returns
    [INTERPRET_RUNTIME_ERROR] only with the stack reset; it never returns
    [INTERPRET_COMPILE_ERROR]. *)
Theorem cw_run_result_origin :
  forall (fuel : nat) (cw : cwRuntime),
    match cw_run fuel cw with
    | Returned INTERPRET_OK cw' =>
        load (bytes (chunk cw')) (ip cw' - 1) = Some (opcode_byte OP_RETURN)
    | Returned INTERPRET_RUNTIME_ERROR cw' => stack_index cw' = 0
    | Returned INTERPRET_COMPILE_ERROR _ => False
    | _ => True
    end.
Proof.
  intros fuel cw. pose proof (cw_run_results fuel cw) as H.
  destruct (cw_run fuel cw) as [[] cw' | |]; exact H.
Qed.

(* ------------------------------------------------------------------ *)
(** ** Comparisons and arithmetic *)

Lemma BINARY_OP_numbers {T : Type} (value_type : T -> Value)
    (op : float -> float -> T) cw x y :
  2 <= stack_index cw <= CW_STACK_MAX ->
  load (stack cw) (stack_index cw - 1) = Some (VAL_NUMBER y) ->
  load (stack cw) (stack_index cw - 2) = Some (VAL_NUMBER x) ->
  BINARY_OP value_type op cw
  = Val tt
      (set_stack_index (stack_index cw - 1)
         (set_stack
            (store (stack cw) (stack_index cw - 2) (value_type (op x y)))
            cw)).
Proof.
  intros Hsp Hb Ha. unfold BINARY_OP.
  rewrite (bind_Val _ _ _ _ _
             (or_else_tests (fun v => negb (IS_NUMBER v)) cw _ _ Hb Ha)).
  cbn [IS_NUMBER negb orb]. cbv iota.
  set (sp := stack_index cw) in *.
  rewrite (bind_Val _ _ _ _ _ (cw_pop_stack_at cw (sp - 1) _ eq_refl Hb)).
  rewrite (bind_Val _ _ _ _ _
             (cw_pop_stack_at (set_stack_index (sp - 1) cw) (sp - 2) _
                ltac:(fields; lia) Ha)).
  rewrite (cw_push_stack_room _ (sp - 2)); [|reflexivity|lia].
  subst sp. destruct cw. state_eq. cbn [AS_NUMBER].
  apply f_equal. f_equal; lia.
Qed.

Lemma equality_opcode cw a b (negated : bool) :
  2 <= stack_index cw <= CW_STACK_MAX ->
  load (stack cw) (stack_index cw - 1) = Some b ->
  load (stack cw) (stack_index cw - 2) = Some a ->
  (b0 <- cw_pop_stack ;;
   a0 <- cw_pop_stack ;;
   let eq := cw_values_equal a0 b0 in
   cw_push_stack (MAKE_BOOL (if negated then negb eq else eq)))%run cw
  = Val tt
      (set_stack_index (stack_index cw - 1)
         (set_stack
            (store (stack cw) (stack_index cw - 2)
               (MAKE_BOOL (if negated then negb (cw_values_equal a b)
                           else cw_values_equal a b)))
            cw)).
Proof.
  intros Hsp Hb Ha.
  set (sp := stack_index cw) in *.
  rewrite (bind_Val _ _ _ _ _ (cw_pop_stack_at cw (sp - 1) _ eq_refl Hb)).
  rewrite (bind_Val _ _ _ _ _
             (cw_pop_stack_at (set_stack_index (sp - 1) cw) (sp - 2) _
                ltac:(fields; lia) Ha)).
  cbv zeta.
  rewrite (cw_push_stack_room _ (sp - 2)); [|reflexivity|lia].
  subst sp. destruct cw. state_eq.
  apply f_equal. f_equal; lia.
Qed.

(** X13.  The comparisons and [OP_SUBTRACT], [OP_MULTIPLY], [OP_DIVIDE]
    pop [b] and [a] and push one value in their place: the equalities for
    any two values, [OP_NOTEQ] the negation of what [OP_EQ] pushes; the
    others for two Numbers, the IEEE-754 result, with no test of the
    divisor: a division by zero is not an error. *)
Theorem binary_opcode_pushes_result :
  forall (cw : cwRuntime) (o : OpCode) (a b v : Value),
    next_opcode cw o ->
    2 <= stack_index cw <= CW_STACK_MAX ->
    load (stack cw) (stack_index cw - 1) = Some b ->
    load (stack cw) (stack_index cw - 2) = Some a ->
    binary_value o a b = Some v ->
    cw_run_instruction cw
    = Val tt
        (set_stack_index (stack_index cw - 1)
           (set_stack (store (stack cw) (stack_index cw - 2) v)
              (set_ip (ip cw + 1) cw))).
Proof.
  intros cw o a b v Hf Hsp Hb Ha Hv.
  rewrite (cw_run_instruction_at cw o Hf).
  set (cw1 := set_ip (ip cw + 1) cw).
  assert (Hsp1 : 2 <= stack_index cw1 <= CW_STACK_MAX) by exact Hsp.
  assert (Hb1 : load (stack cw1) (stack_index cw1 - 1) = Some b) by exact Hb.
  assert (Ha1 : load (stack cw1) (stack_index cw1 - 2) = Some a) by exact Ha.
  unfold cw_run_switch.
  destruct o; try discriminate Hv;
    match goal with
    | |- context [opcode_of_byte (opcode_byte ?op)] =>
        change (opcode_of_byte (opcode_byte op)) with (Some op)
    end; cbv iota.
  - (* OP_EQ *)
    injection Hv as <-.
    exact (equality_opcode cw1 a b false Hsp1 Hb1 Ha1).
  - (* OP_NOTEQ *)
    injection Hv as <-.
    exact (equality_opcode cw1 a b true Hsp1 Hb1 Ha1).
  - destruct a as [| |x|], b as [| |y|]; try discriminate Hv.
    injection Hv as <-. exact (BINARY_OP_numbers _ _ cw1 x y Hsp1 Hb1 Ha1).
  - destruct a as [| |x|], b as [| |y|]; try discriminate Hv.
    injection Hv as <-. exact (BINARY_OP_numbers _ _ cw1 x y Hsp1 Hb1 Ha1).
  - destruct a as [| |x|], b as [| |y|]; try discriminate Hv.
    injection Hv as <-. exact (BINARY_OP_numbers _ _ cw1 x y Hsp1 Hb1 Ha1).
  - destruct a as [| |x|], b as [| |y|]; try discriminate Hv.
    injection Hv as <-. exact (BINARY_OP_numbers _ _ cw1 x y Hsp1 Hb1 Ha1).
  - destruct a as [| |x|], b as [| |y|]; try discriminate Hv.
    injection Hv as <-. exact (BINARY_OP_numbers _ _ cw1 x y Hsp1 Hb1 Ha1).
  - destruct a as [| |x|], b as [| |y|]; try discriminate Hv.
    injection Hv as <-. exact (BINARY_OP_numbers _ _ cw1 x y Hsp1 Hb1 Ha1).
  - destruct a as [| |x|], b as [| |y|]; try discriminate Hv.
    injection Hv as <-. exact (BINARY_OP_numbers _ _ cw1 x y Hsp1 Hb1 Ha1).
Qed.

Lemma binary_opcode_pushes_result_witness :
  let cw :=
    runtime_of [opcode_byte OP_DIVIDE; opcode_byte OP_RETURN] []
      [MAKE_NUMBER 1; MAKE_NUMBER 0] in
  exists cw',
    cw_run_instruction cw = Val tt cw' /\
    stack_index cw' = 1 /\
    load (stack cw') 0 = Some (MAKE_NUMBER PrimFloat.infinity) /\
    stderr cw' = [].
Proof.
  intros cw.
  assert (Hf : next_opcode cw OP_DIVIDE) by (vm_compute; reflexivity).
  assert (Hsp : 2 <= stack_index cw <= CW_STACK_MAX)
    by (split; vm_compute; discriminate).
  assert (Hb : load (stack cw) (stack_index cw - 1) = Some (MAKE_NUMBER 0))
    by (vm_compute; reflexivity).
  assert (Ha : load (stack cw) (stack_index cw - 2) = Some (MAKE_NUMBER 1))
    by (vm_compute; reflexivity).
  pose proof (binary_opcode_pushes_result cw OP_DIVIDE (MAKE_NUMBER 1)
                (MAKE_NUMBER 0) (MAKE_NUMBER PrimFloat.infinity)
                Hf Hsp Hb Ha ltac:(vm_compute; reflexivity)) as H.
  eexists. split; [exact H|].
  split; [vm_compute; reflexivity|].
  split; vm_compute; reflexivity.
Defined.

(* ------------------------------------------------------------------ *)
(** ** Bytes without a case *)

(** X14.  The [switch] of [cw_run] has no default: an instruction byte
    that is none of the opcodes it has a [case] for is passed over.  Only
    [ip] moves, by one. *)
Theorem cw_run_passes_over_other_bytes :
  forall (cw : cwRuntime) (b : Z),
    load (bytes (chunk cw)) (ip cw) = Some b ->
    (forall o, In o handled -> b <> opcode_byte o) ->
    cw_run_instruction cw = Val tt (set_ip (ip cw + 1) cw).
Proof.
  intros cw b Hb Hnone. unfold cw_run_instruction.
  rewrite (bind_Val _ _ _ _ _ (READ_BYTE_at cw b Hb)).
  unfold cw_run_switch.
  destruct (opcode_of_byte b) as [o|] eqn:Ho; [|reflexivity].
  apply opcode_of_byte_sound in Ho.
  destruct o; try reflexivity;
    exfalso; refine (Hnone _ _ Ho); unfold handled; cbn [In]; tauto.
Qed.

Lemma cw_run_passes_over_other_bytes_witness :
  let cw := runtime_of [opcode_byte OP_JUMP; 200; opcode_byte OP_RETURN] []
              [MAKE_NULL] in
  cw_run_instruction cw = Val tt (set_ip 1 cw) /\
  cw_run_instruction (set_ip 1 cw) = Val tt (set_ip 2 cw).
Proof.
  intros cw. split.
  - apply (cw_run_passes_over_other_bytes cw (opcode_byte OP_JUMP)).
    + vm_compute; reflexivity.
    + intros o Ho. unfold handled in Ho. cbn [In] in Ho.
      repeat (destruct Ho as [<- | Ho]; [vm_compute; discriminate|]).
      contradiction.
  - apply (cw_run_passes_over_other_bytes (set_ip 1 cw) 200).
    + vm_compute; reflexivity.
    + intros o Ho. unfold handled in Ho. cbn [In] in Ho.
      repeat (destruct Ho as [<- | Ho]; [vm_compute; discriminate|]).
      contradiction.
Defined.

(* ------------------------------------------------------------------ *)
(** ** From the compiler to the run loop *)



(* ------------------------------------------------------------------ *)
(** ** [cw_interpret] *)

Lemma same_run_state_refl cw : same_run_state cw cw.
Proof. unfold same_run_state. repeat split. Qed.

Lemma same_run_state_trans cw1 cw2 cw3 :
  same_run_state cw1 cw2 -> same_run_state cw2 cw3 -> same_run_state cw1 cw3.
Proof.
  unfold same_run_state. intros (A & B & C & D) (A' & B' & C' & D').
  repeat split; congruence.
Qed.

Lemma cw_syntax_error_at_same_run_state cw token msg :
  same_run_state cw (cw_syntax_error_at cw token msg).
Proof.
  unfold cw_syntax_error_at. destruct (panic cw);
    [apply same_run_state_refl|].
  destruct (type token); unfold same_run_state; repeat split.
Qed.

(** The compiler does not run anything: its steps leave [ip], the stack
    and [stdout] alone. *)
Lemma run_action_same_run_state cw a : same_run_state cw (run_action cw a).
Proof.
  destruct a; cbn [run_action];
    try (unfold same_run_state; repeat split; fail).
  - unfold cw_patch_jump. cbv zeta. destruct (_ >? UINT16_MAX).
    + eapply same_run_state_trans;
        [apply (cw_syntax_error_at_same_run_state cw (previous cw)
                  "Too much code to jump over.")|].
      unfold same_run_state. repeat split.
    + unfold same_run_state. repeat split.
  - unfold cw_make_constant, cw_chunk_add_constant.
    destruct (_ >? UINT8_MAX); cbn [fst].
    + eapply same_run_state_trans;
        [|apply cw_syntax_error_at_same_run_state].
      unfold same_run_state. repeat split.
    + unfold same_run_state. repeat split.
  - unfold cw_identifier_constant, cw_str_copy.
    destruct (intern_flags cw (lexeme ident)) as (_ & _ & _ & Hrun).
    destruct (intern cw (lexeme ident)) as [cw1 s]. cbn [fst] in Hrun.
    eapply same_run_state_trans; [exact Hrun|].
    unfold cw_make_constant, cw_chunk_add_constant.
    destruct (_ >? UINT8_MAX); cbn [fst].
    + eapply same_run_state_trans;
        [|apply cw_syntax_error_at_same_run_state].
      unfold same_run_state. repeat split.
    + unfold same_run_state. repeat split.
  - unfold cw_add_local. destruct (_ >? UINT8_MAX).
    + apply cw_syntax_error_at_same_run_state.
    + unfold same_run_state. repeat split.
  - unfold cw_resolve_local.
    destruct (resolve_local_from_cases (Z.to_nat (local_count cw)) cw ident)
      as [(_ & Hf & _) | (i & local & _ & _ & _ & _ & _ & Hf)]; rewrite Hf.
    + apply same_run_state_refl.
    + destruct (depth local <? 0).
      * apply cw_syntax_error_at_same_run_state.
      * apply same_run_state_refl.
  - apply cw_syntax_error_at_same_run_state.
  - apply cw_syntax_error_at_same_run_state.
Qed.

Lemma run_actions_same_run_state l : forall cw,
  same_run_state cw (run_actions cw l).
Proof.
  induction l as [|a l IH]; intros cw; cbn [run_actions fold_left].
  - apply same_run_state_refl.
  - eapply same_run_state_trans; [apply run_action_same_run_state | apply IH].
Qed.

Lemma cw_compile_same_run_state parser cw src chunk0 :
  same_run_state cw (fst (cw_compile parser cw src chunk0)).
Proof.
  unfold cw_compile. cbv zeta. cbn [fst].
  match goal with
  | |- context [run_actions ?s ?l] =>
      pose proof (run_actions_same_run_state l s) as H;
      set (cw2 := run_actions s l) in *
  end.
  eapply same_run_state_trans; [|eapply same_run_state_trans; [exact H|]];
    unfold same_run_state; repeat split.
Qed.

(** X16.  [cw_interpret] returns [INTERPRET_COMPILE_ERROR] exactly when
    the compilation has failed, and then nothing has run: [ip], the stack
    and [stdout] are as before the call.  When the compilation has
    succeeded, what it returns is what [cw_run] returns on the compiled
    chunk from its first byte.  The chunk is released either way. *)
Theorem cw_interpret_runs_only_compiled_code :
  forall (parser : string -> list Action) (fuel : nat) (cw : cwRuntime)
         (src : string),
    let compiled := cw_compile parser cw src cw_chunk_init in
    (snd compiled = false ->
       exists cw',
         cw_interpret parser fuel cw src
         = Returned INTERPRET_COMPILE_ERROR cw' /\
         same_run_state cw cw' /\
         chunk cw' = cw_chunk_init) /\
    (snd compiled = true ->
       forall r cw',
         cw_interpret parser fuel cw src = Returned r cw' ->
         r <> INTERPRET_COMPILE_ERROR /\
         chunk cw' = cw_chunk_init /\
         exists cw1,
           cw_run fuel (set_ip 0 (fst compiled)) = Returned r cw1).
Proof.
  intros parser fuel cw src compiled.
  pose proof (cw_compile_same_run_state parser cw src cw_chunk_init) as Hrun.
  fold compiled in Hrun.
  unfold cw_interpret. cbv zeta. fold compiled.
  destruct compiled as [cwc ok]. cbn [fst snd] in *.
  split; intros Hok; subst ok.
  - eexists. split; [reflexivity|]. split; [|reflexivity].
    eapply same_run_state_trans; [exact Hrun|].
    unfold same_run_state. repeat split.
  - intros r cw' H.
    assert (E : set_ip 0 (set_chunk (chunk cwc) cwc) = set_ip 0 cwc)
      by (destruct cwc; reflexivity).
    rewrite E in H.
    pose proof (cw_run_results fuel (set_ip 0 cwc)) as Hres.
    destruct (cw_run fuel (set_ip 0 cwc)) as [r1 cw1 | | cw1];
      try discriminate H.
    injection H as <- <-.
    split; [|split; [reflexivity | exists cw1; reflexivity]].
    intros ->. exact Hres.
Qed.

(* ------------------------------------------------------------------ *)
(** ** [OP_NOT] and [OP_NEGATE] *)

(** X17.  [OP_NOT] and [OP_NEGATE] replace the value on top of the stack
    and leave the stack as high as it was: [OP_NOT] by the Bool that
    tells whether the value is falsey, [OP_NEGATE] a Number by its
    negation. *)
Theorem unary_opcode_replaces_top :
  forall (cw : cwRuntime) (o : OpCode) (a v : Value),
    next_opcode cw o ->
    1 <= stack_index cw <= CW_STACK_MAX ->
    load (stack cw) (stack_index cw - 1) = Some a ->
    unary_value o a = Some v ->
    cw_run_instruction cw
    = Val tt
        (set_stack (store (stack cw) (stack_index cw - 1) v)
           (set_ip (ip cw + 1) cw)).
Proof.
  intros cw o a v Hf Hsp Ha Hv.
  rewrite (cw_run_instruction_at cw o Hf).
  set (cw1 := set_ip (ip cw + 1) cw).
  set (sp := stack_index cw) in *.
  assert (Ha1 : load (stack cw1) (stack_index cw1 - 1) = Some a) by exact Ha.
  assert (Pop : cw_pop_stack cw1 = Val a (set_stack_index (sp - 1) cw1))
    by (apply cw_pop_stack_at; [reflexivity | exact Ha]).
  assert (Push : forall w,
             cw_push_stack w (set_stack_index (sp - 1) cw1)
             = Val tt
                 (set_stack (store (stack cw) (sp - 1) w)
                    (set_ip (ip cw + 1) cw))).
  { intros w. rewrite (cw_push_stack_room _ (sp - 1)); [|reflexivity|lia].
    subst cw1 sp. destruct cw. state_eq. apply f_equal. f_equal. lia. }
  unfold cw_run_switch.
  destruct o; try discriminate Hv;
    match goal with
    | |- context [opcode_of_byte (opcode_byte ?op)] =>
        change (opcode_of_byte (opcode_byte op)) with (Some op)
    end; cbv iota.
  - injection Hv as <-.
    rewrite (bind_Val _ _ _ _ _ Pop). apply Push.
  - destruct a as [| |x|]; try discriminate Hv. injection Hv as <-.
    rewrite (bind_Val _ _ _ _ _
               (test_at IS_NUMBER cw1 0 (sp - 1) _
                  ltac:(subst cw1 sp; fields; lia)
                  Ha)).
    cbn [IS_NUMBER negb]. cbv iota.
    rewrite (bind_Val _ _ _ _ _ Pop). apply Push.
Qed.

Lemma unary_opcode_replaces_top_witness :
  let cw := runtime_of [opcode_byte OP_NOT; opcode_byte OP_RETURN] []
              [MAKE_NUMBER 0] in
  exists cw',
    cw_run_instruction cw = Val tt cw' /\
    stack_index cw' = 1 /\
    load (stack cw') 0 = Some (MAKE_BOOL false).
Proof.
  intros cw.
  pose proof (unary_opcode_replaces_top cw OP_NOT (MAKE_NUMBER 0)
                (MAKE_BOOL false)) as H.
  eexists. split; [apply H|].
  - vm_compute; reflexivity.
  - split; vm_compute; discriminate.
  - vm_compute; reflexivity.
  - vm_compute; reflexivity.
  - split; vm_compute; reflexivity.
Defined.

(* ------------------------------------------------------------------ *)
(** ** The disassembler *)

(** An instruction is printed with its offset first, and the next one is
    one or two bytes further. *)
Lemma cw_disassemble_instruction_next chunk offset out next :
  Disasm.cw_disassemble_instruction chunk offset = Some (out, next) ->
  0 <= offset /\
  (next = offset + 1 \/ next = offset + 2) /\
  exists rest, out = Printf "%04d " [ArgInt offset] :: rest.
Proof.
  unfold Disasm.cw_disassemble_instruction.
  destruct (Disasm.line_column chunk offset) as [column|]; [|discriminate].
  destruct (load (Disasm.bytes chunk) offset) as [instruction|] eqn:Hb;
    [|discriminate].
  assert (H0 : 0 <= offset).
  { unfold load in Hb. destruct (Z.ltb_spec offset 0); [discriminate | lia]. }
  cbv zeta.
  match goal with
  | |- match ?r with _ => _ end = _ -> _ =>
      assert (Hr : forall o n, r = Some (o, n) ->
                               n = offset + 1 \/ n = offset + 2);
      [|destruct r as [[o n]|]; [|discriminate]]
  end.
  { intros o n.
    destruct (opcode_of_byte instruction) as [[]|];
      unfold Disasm.cw_disassemble_constant, Disasm.cw_disassemble_simple;
      try (intros [= _ <-]; left; reflexivity);
      (destruct (load (Disasm.bytes chunk) (offset + 1)) as [k|];
       [|discriminate];
       destruct (load (Disasm.constants chunk) k); [|discriminate];
       intros [= _ <-]; right; reflexivity). }
  intros [= <- <-]. split; [exact H0|]. split; [apply (Hr o); reflexivity|].
  eexists. reflexivity.
Qed.

Lemma disassemble_from_ends fuel : forall chunk offset,
  (Z.to_nat (Disasm.len chunk - offset) <= fuel)%nat ->
  Disasm.disassemble_from fuel chunk offset <> Disasm.NoFuel /\
  StronglySorted Z.lt (Disasm.visited fuel chunk offset) /\
  Forall (fun k => offset <= k < Disasm.len chunk)
    (Disasm.visited fuel chunk offset).
Proof.
  induction fuel as [|fuel IH]; intros chunk offset Hfuel;
    cbn [Disasm.disassemble_from Disasm.visited];
    destruct (Z.ltb_spec offset (Disasm.len chunk)) as [Hlt | Hge];
    try (split; [discriminate | split; constructor]).
  - lia.
  - destruct (Disasm.cw_disassemble_instruction chunk offset)
      as [[out next]|] eqn:E.
    + destruct (cw_disassemble_instruction_next _ _ _ _ E) as (_ & Hn & _).
      destruct (IH chunk next ltac:(lia)) as (Hend & Hsorted & Hin).
      split; [|split].
      * destruct (Disasm.disassemble_from fuel chunk next);
          [discriminate | discriminate | contradiction].
      * constructor; [exact Hsorted|].
        eapply Forall_impl; [|exact Hin]. cbv beta. intros k Hk. lia.
      * constructor; [lia|].
        eapply Forall_impl; [|exact Hin]. cbv beta. intros k Hk. lia.
    + split; [discriminate|]. split.
      * constructor; constructor.
      * constructor; [lia | constructor].
Qed.

(** X18.  [cw_disassemble_chunk] ends: every instruction it prints moves
    the offset forward by one or two bytes, so the offsets it visits
    increase strictly and lie inside the code, and [len] turns of its
    loop are enough, whatever the bytes are. *)
Theorem cw_disassemble_chunk_ends :
  forall (chunk : Disasm.Chunk) (name : string) (fuel : nat),
    (Z.to_nat (Disasm.len chunk) <= fuel)%nat ->
    Disasm.cw_disassemble_chunk fuel chunk name <> Disasm.NoFuel /\
    StronglySorted Z.lt (Disasm.visited fuel chunk 0) /\
    Forall (fun k => 0 <= k < Disasm.len chunk) (Disasm.visited fuel chunk 0).
Proof.
  intros chunk name fuel Hfuel.
  destruct (disassemble_from_ends fuel chunk 0) as (Hend & Hsorted & Hin).
  - rewrite Z.sub_0_r. exact Hfuel.
  - split; [|split; assumption].
    unfold Disasm.cw_disassemble_chunk.
    destruct (Disasm.disassemble_from fuel chunk 0);
      [discriminate | discriminate | contradiction].
Qed.

Lemma cw_disassemble_chunk_ends_witness :
  Disasm.cw_disassemble_chunk 3 listing_sample "code"
  = Disasm.Printed
      [Printf "== %s ==\n" [ArgStr "code"];
       Printf "%04d " [ArgInt 0]; Printf "%4d " [ArgInt 1];
       Printf "%-16s %4d '" [ArgStr "OP_CONSTANT"; ArgInt 0];
       Printf "%d" [ArgInt 7]; Printf "'\n" [];
       Printf "%04d " [ArgInt 2]; Printf "   | " [];
       Printf "%s\n" [ArgStr "OP_RETURN"]] /\
  Disasm.visited 3 listing_sample 0 = [0; 2] /\
  Disasm.cw_disassemble_chunk 3 listing_sample "code" <> Disasm.NoFuel.
Proof.
  split; [vm_compute; reflexivity|].
  split; [vm_compute; reflexivity|].
  apply (cw_disassemble_chunk_ends listing_sample "code" 3).
  vm_compute. lia.
Defined.

(* ------------------------------------------------------------------ *)
(** ** What the compiler leaves in place *)

Lemma code_extends_refl c : chunk_wf c -> code_extends c c [].
Proof.
  intros _. split; [rewrite app_nil_r; reflexivity|].
  exists []. split; [rewrite app_nil_r; reflexivity | reflexivity].
Qed.

Lemma code_extends_trans c1 c2 c3 s1 s2 :
  code_extends c1 c2 s1 -> code_extends c2 c3 s2 ->
  code_extends c1 c3 (s1 ++ s2).
Proof.
  intros (B1 & m1 & L1 & N1) (B2 & m2 & L2 & N2). split.
  - rewrite B2, B1, app_assoc. reflexivity.
  - exists (m1 ++ m2). split.
    + rewrite L2, L1, app_assoc. reflexivity.
    + rewrite !length_app. congruence.
Qed.

Lemma code_extends_same c c' :
  bytes c' = bytes c -> lines c' = lines c -> len c' = len c ->
  code_extends c c' [].
Proof.
  intros Hb Hl Hn. unfold code_extends, chunk_bytes, chunk_lines.
  rewrite Hb, Hl, Hn. split; [rewrite app_nil_r; reflexivity|].
  exists []. split; [rewrite app_nil_r; reflexivity | reflexivity].
Qed.

Lemma cw_emit_byte_extends cw byte :
  chunk_wf (chunk cw) ->
  code_extends (chunk cw) (chunk (cw_emit_byte cw byte)) [uint8 byte].
Proof.
  intros W. unfold cw_emit_byte. cbn [chunk set_chunk]. split.
  - apply cw_chunk_write_bytes. exact W.
  - exists [line (previous cw)]. split; [|reflexivity].
    apply cw_chunk_write_lines. exact W.
Qed.

Lemma cw_make_constant_code cw value :
  bytes (chunk (fst (cw_make_constant cw value))) = bytes (chunk cw) /\
  lines (chunk (fst (cw_make_constant cw value))) = lines (chunk cw) /\
  len (chunk (fst (cw_make_constant cw value))) = len (chunk cw).
Proof.
  unfold cw_make_constant, cw_chunk_add_constant.
  destruct (_ >? UINT8_MAX); cbn [fst];
    rewrite ?cw_syntax_error_at_chunk; repeat split.
Qed.

(** What an action other than a patch adds to the code. *)
Lemma run_action_extends cw a :
  chunk_wf (chunk cw) -> not_a_patch a ->
  exists suffix, code_extends (chunk cw) (chunk (run_action cw a)) suffix.
Proof.
  intros W Hp.
  assert (Same : forall cw',
             chunk cw' = chunk cw ->
             exists suffix, code_extends (chunk cw) (chunk cw') suffix).
  { intros cw' E. exists []. rewrite E. apply code_extends_refl. exact W. }
  destruct a; cbn [run_action]; try contradiction.
  - eexists. apply cw_emit_byte_extends. exact W.
  - eexists. unfold cw_emit_bytes.
    eapply code_extends_trans; [apply cw_emit_byte_extends; exact W|].
    apply cw_emit_byte_extends. apply cw_emit_byte_grows. exact W.
  - eexists. unfold cw_emit_jump. cbv zeta. cbn [fst].
    assert (W1 : chunk_wf (chunk (cw_emit_byte cw instruction)))
      by (apply cw_emit_byte_grows; exact W).
    eapply code_extends_trans; [apply cw_emit_byte_extends; exact W|].
    eapply code_extends_trans; [apply cw_emit_byte_extends; exact W1|].
    apply cw_emit_byte_extends. apply cw_emit_byte_grows. exact W1.
  - exists []. destruct (cw_make_constant_code cw value) as (Hb & Hl & Hn).
    apply code_extends_same; assumption.
  - exists []. unfold cw_identifier_constant, cw_str_copy.
    pose proof (intern_chunk cw (lexeme ident)) as E.
    destruct (intern cw (lexeme ident)) as [cw1 s]. cbn [fst] in E.
    destruct (cw_make_constant_code cw1 (MAKE_OBJECT s)) as (Hb & Hl & Hn).
    rewrite E in Hb, Hl, Hn. apply code_extends_same; assumption.
  - apply Same. unfold cw_add_local. destruct (_ >? UINT8_MAX);
      [apply cw_syntax_error_at_chunk | reflexivity].
  - apply Same. unfold cw_resolve_local. apply resolve_local_from_chunk.
  - apply Same. apply cw_syntax_error_at_chunk.
  - apply Same. apply cw_syntax_error_at_chunk.
  - apply Same. reflexivity.
  - apply Same. reflexivity.
  - apply Same. reflexivity.
Qed.

(** X19.  Except for [cw_patch_jump], the compiler only adds to the end
    of the code: after any sequence of calls without a patch, the bytes
    and the lines that the chunk held are still there, in place, followed
    by as many new lines as new bytes. *)
Theorem compiler_appends_to_code :
  forall (l : list Action) (cw : cwRuntime),
    chunk_wf (chunk cw) ->
    Forall not_a_patch l ->
    exists suffix,
      code_extends (chunk cw) (chunk (run_actions cw l)) suffix.
Proof.
  induction l as [|a l IH]; intros cw W Hl; cbn [run_actions fold_left].
  - exists []. apply code_extends_refl. exact W.
  - inversion Hl as [|a' l' Ha Hrest]; subst.
    destruct (run_action_extends cw a W Ha) as (s1 & E1).
    destruct (IH (run_action cw a)) as (s2 & E2).
    + apply run_action_grows. exact W.
    + exact Hrest.
    + exists (s1 ++ s2). eapply code_extends_trans; eassumption.
Qed.

Lemma compiler_appends_to_code_witness :
  let cw := set_chunk (chunk_of [2; 22] []) cw_zero in
  exists suffix,
    code_extends (chunk cw) (chunk (run_actions cw (print_one "print 1;")))
      suffix /\
    chunk_bytes (chunk (run_actions cw (print_one "print 1;")))
    = [2; 22; 0; 0; 22].
Proof.
  intros cw.
  destruct (compiler_appends_to_code (print_one "print 1;") cw) as (s & E).
  - unfold chunk_wf; simpl; lia.
  - unfold print_one. repeat constructor.
  - exists s. split; [exact E | vm_compute; reflexivity].
Defined.

Lemma pool_extends_refl c : pool_extends c c.
Proof. split; [lia | reflexivity]. Qed.

Lemma pool_extends_trans c1 c2 c3 :
  pool_extends c1 c2 -> pool_extends c2 c3 -> pool_extends c1 c3.
Proof.
  intros [L1 H1] [L2 H2]. split; [lia|].
  intros k Hk. rewrite H2 by lia. apply H1. exact Hk.
Qed.

Lemma cw_make_constant_pool cw value :
  pool_extends (chunk cw) (chunk (fst (cw_make_constant cw value))).
Proof.
  unfold cw_make_constant, cw_chunk_add_constant.
  destruct (_ >? UINT8_MAX); cbn [fst];
    rewrite ?cw_syntax_error_at_chunk; cbn [chunk set_chunk];
    (split; [cbn [const_len]; lia|]);
    intros k Hk; cbn [constants]; apply load_store_other; lia.
Qed.

Lemma same_pool c c' :
  constants c' = constants c -> const_len c' = const_len c ->
  pool_extends c c'.
Proof. intros Hc Hn. split; [lia|]. intros k _. rewrite Hc. reflexivity. Qed.

Lemma cw_chunk_write_pool c byte ln : pool_extends c (cw_chunk_write c byte ln).
Proof. apply same_pool; reflexivity. Qed.

Lemma run_action_pool cw a :
  pool_extends (chunk cw) (chunk (run_action cw a)).
Proof.
  assert (Same : forall cw', chunk cw' = chunk cw ->
                             pool_extends (chunk cw) (chunk cw')).
  { intros cw' ->. apply pool_extends_refl. }
  destruct a; cbn [run_action].
  - apply cw_chunk_write_pool.
  - unfold cw_emit_bytes, cw_emit_byte. cbn [chunk set_chunk previous].
    eapply pool_extends_trans; apply cw_chunk_write_pool.
  - unfold cw_emit_jump, cw_emit_byte. cbv zeta.
    cbn [fst chunk set_chunk previous].
    eapply pool_extends_trans; [|apply cw_chunk_write_pool].
    eapply pool_extends_trans; apply cw_chunk_write_pool.
  - rewrite cw_patch_jump_chunk. apply same_pool; reflexivity.
  - apply cw_make_constant_pool.
  - unfold cw_identifier_constant, cw_str_copy.
    pose proof (intern_chunk cw (lexeme ident)) as E.
    destruct (intern cw (lexeme ident)) as [cw1 s]. cbn [fst] in E.
    rewrite <- E. apply cw_make_constant_pool.
  - apply Same. unfold cw_add_local. destruct (_ >? UINT8_MAX);
      [apply cw_syntax_error_at_chunk | reflexivity].
  - apply Same. unfold cw_resolve_local. apply resolve_local_from_chunk.
  - apply Same. apply cw_syntax_error_at_chunk.
  - apply Same. apply cw_syntax_error_at_chunk.
  - apply Same. reflexivity.
  - apply Same. reflexivity.
  - apply Same. reflexivity.
Qed.

Lemma run_actions_pool l : forall cw,
  pool_extends (chunk cw) (chunk (run_actions cw l)).
Proof.
  induction l as [|a l IH]; intros cw; cbn [run_actions fold_left].
  - apply pool_extends_refl.
  - eapply pool_extends_trans; [apply run_action_pool | apply IH].
Qed.

(** X20.  The index that [cw_make_constant] returns stays good: whatever
    the compiler does afterwards, patches included, that index of the
    pool still reads the value. *)
Theorem constant_index_stays_valid :
  forall (cw : cwRuntime) (value : Value) (later : list Action),
    0 <= const_len (chunk cw) <= UINT8_MAX ->
    const_len (chunk cw) <= Z.of_nat (List.length (constants (chunk cw))) ->
    let made := cw_make_constant cw value in
    load (constants (chunk (run_actions (fst made) later))) (snd made)
    = Some value.
Proof.
  intros cw value later Hn Hl made.
  destruct (cw_make_constant_reads_back cw value Hn Hl) as (Hi & Hlen & Hread).
  fold made in Hi, Hlen, Hread.
  destruct (run_actions_pool later (fst made)) as [_ Hkeep].
  rewrite Hkeep by lia. exact Hread.
Qed.

Lemma constant_index_stays_valid_witness :
  let made := cw_make_constant cw_zero (MAKE_NUMBER 7) in
  let later := [CallMakeConstant MAKE_NULL; CallEmitJump 23; CallPatchJump 1] in
  snd made = 0 /\
  load (constants (chunk (run_actions (fst made) later))) 0
  = Some (MAKE_NUMBER 7).
Proof.
  intros made later.
  assert (Hi : snd made = 0) by (vm_compute; reflexivity).
  split; [exact Hi|]. rewrite <- Hi.
  apply (constant_index_stays_valid cw_zero (MAKE_NUMBER 7) later).
  - split; vm_compute; discriminate.
  - vm_compute; discriminate.
Defined.

(* ------------------------------------------------------------------ *)
(** ** [OP_POP] and [OP_PRINT] *)

(** X21.  [OP_POP] and [OP_PRINT] take the value on top off the stack.
    [OP_PRINT] hands it to the value printer and then writes a newline;
    [OP_POP] writes nothing.  Neither touches the values below. *)
Theorem pop_and_print_take_the_top :
  forall (cw : cwRuntime) (v : Value),
    1 <= stack_index cw ->
    load (stack cw) (stack_index cw - 1) = Some v ->
    (next_opcode cw OP_POP ->
       cw_run_instruction cw
       = Val tt (set_stack_index (stack_index cw - 1) (set_ip (ip cw + 1) cw)))
    /\
    (next_opcode cw OP_PRINT ->
       cw_run_instruction cw
       = Val tt
           (set_stdout (stdout cw ++ [PrintValue v; Printf "\n" []])
              (set_stack_index (stack_index cw - 1)
                 (set_ip (ip cw + 1) cw)))).
Proof.
  intros cw v Hsp Hv.
  assert (Pop : cw_pop_stack (set_ip (ip cw + 1) cw)
                = Val v (set_stack_index (stack_index cw - 1)
                           (set_ip (ip cw + 1) cw)))
    by (apply cw_pop_stack_at; [reflexivity | exact Hv]).
  split; intros Hf.
  - rewrite (cw_run_instruction_at cw OP_POP Hf). unfold cw_run_switch.
    change (opcode_of_byte (opcode_byte OP_POP)) with (Some OP_POP). cbv iota.
    rewrite (bind_Val _ _ _ _ _ Pop). reflexivity.
  - rewrite (cw_run_instruction_at cw OP_PRINT Hf). unfold cw_run_switch.
    change (opcode_of_byte (opcode_byte OP_PRINT)) with (Some OP_PRINT).
    cbv iota.
    rewrite (bind_Val _ _ _ _ _ Pop).
    unfold bind, modify. destruct cw. state_eq.
    rewrite <- app_assoc. reflexivity.
Qed.

Lemma pop_and_print_take_the_top_witness :
  let cw := runtime_of [opcode_byte OP_PRINT; opcode_byte OP_RETURN] []
              [MAKE_BOOL true] in
  exists cw',
    cw_run_instruction cw = Val tt cw' /\
    stack_index cw' = 0 /\
    stdout cw' = [PrintValue (MAKE_BOOL true); Printf "\n" []].
Proof.
  intros cw.
  destruct (pop_and_print_take_the_top cw (MAKE_BOOL true)) as [_ H].
  - vm_compute; discriminate.
  - vm_compute; reflexivity.
  - eexists. split; [apply H; vm_compute; reflexivity|].
    split; vm_compute; reflexivity.
Defined.
